(** * Admission and resource control: load balancer, connection pool, job queue

    A shallow embedding of five components of the service:
    - [ConnectionPool]: [EnhancedConnectionPool.getConnection] and
      [EnhancedConnectionPool.transaction] (lib/db connection pool);
    - [PoolQuery]: [EnhancedConnectionPool.query], its health check, metrics
      and status, with the performance monitor and the trace span it calls;
    - [LoadBalancer]: the request-queuing middleware
      (server/middleware/load-balancer.ts);
    - [JobQueue]: the background job queue (lib/jobs/queue.ts);
    - [ConnectionPoolMiddleware]: [connectionPoolMiddleware] of the same
      middleware file.

    JavaScript numbers that hold counters, priorities and millisecond clocks
    are integers here ([Z]); [Date.now()] is an input of every operation.
    Where the code multiplies or divides into a fraction before it rounds,
    the arithmetic is that of IEEE doubles ([PrimFloat]). *)

From Stdlib Require Import ZArith List String Ascii Bool Lia QArith Sorted Permutation.
From Stdlib Require Floats.
Import ListNotations.
Local Open Scope string_scope.
Local Open Scope list_scope.
Local Open Scope Z_scope.

(* ===================================================================== *)
(** * The connection pool: [getConnection] and [transaction]              *)
(* ===================================================================== *)

Module ConnectionPool.

(** [getConnection] and [transaction] as sequential programs over the pool
    object: every [await] either yields a value or throws, as the
    collaborators decide.  [client.release()] does not throw. *)

(** The statements [transaction] sends over the borrowed client. *)
Inductive Query := BEGIN | COMMIT | ROLLBACK.

(** What the pool and the client visibly do, in program order. *)
Inductive Action :=
| Connect                (* this.pool.connect() was called *)
| Run (q : Query)        (* client.query(q) was called *)
| Callback               (* callback(client) was called *)
| Release                (* client.release() was called *)
| Log (msg : string).    (* log(msg, ...) was called *)

(** A promise either fulfils with a value or rejects with an error. *)
Inductive Outcome (A : Type) :=
| Returned (a : A)
| Thrown (e : string).
Arguments Returned {A} a.
Arguments Thrown {A} e.

(** The mutable part of the pool object that these methods touch, and the
    record of the calls made. *)
Record Pool := {
  totalErrors : Z;          (* this.metrics.totalErrors *)
  trace : list Action
}.

(** The behaviour of the collaborators: pg's [pool.connect()], the client's
    answer to each statement, and the caller's callback. *)
Record World (T : Type) := {
  connect_result : Outcome unit;
  query_result : Query -> Outcome unit;
  callback_result : Outcome T
}.
Arguments connect_result {T} w.
Arguments query_result {T} w q.
Arguments callback_result {T} w.

(** An async method body: a state transformer that fulfils or rejects. *)
Definition Async (A : Type) := Pool -> Outcome A * Pool.

Definition ret {A} (a : A) : Async A := fun p => (Returned a, p).
Definition throw {A} (e : string) : Async A := fun p => (Thrown e, p).

(** [await m; k] *)
Definition bind {A B} (m : Async A) (k : A -> Async B) : Async B :=
  fun p => match m p with
           | (Returned a, p') => k a p'
           | (Thrown e, p') => (Thrown e, p')
           end.

(** [try { m } catch (error) { h error }] *)
Definition try_catch {A} (m : Async A) (h : string -> Async A) : Async A :=
  fun p => match m p with
           | (Returned a, p') => (Returned a, p')
           | (Thrown e, p') => h e p'
           end.

(** [try { m } finally { f }]: [f] runs on every exit of [m]; the outcome of
    [m] stands unless [f] itself throws. *)
Definition try_finally {A} (m : Async A) (f : Async unit) : Async A :=
  fun p => match m p with
           | (r, p') => match f p' with
                        | (Returned _, p'') => (r, p'')
                        | (Thrown e, p'') => (Thrown e, p'')
                        end
           end.

Notation "x <- m ;; k" := (bind m (fun x => k))
  (at level 61, m at next level, right associativity).
Notation "m ;;; k" := (bind m (fun _ => k))
  (at level 61, right associativity).

Definition emit (a : Action) : Async unit :=
  fun p => (Returned tt, {| totalErrors := totalErrors p; trace := trace p ++ [a] |}).

Definition incr_totalErrors : Async unit :=
  fun p => (Returned tt, {| totalErrors := totalErrors p + 1; trace := trace p |}).

Definition lift {A} (o : Outcome A) : Async A := fun p => (o, p).

Section Methods.
Context {T : Type} (w : World T).

(** [this.pool.connect()] *)
Definition pool_connect : Async unit :=
  emit Connect ;;; lift (connect_result w).

(** [client.query(q)] *)
Definition client_query (q : Query) : Async unit :=
  emit (Run q) ;;; lift (query_result w q).

(** [callback(client)] *)
Definition run_callback : Async T :=
  emit Callback ;;; lift (callback_result w).

(** [client.release()] *)
Definition client_release : Async unit := emit Release.

(** [getConnection]: delegate to the pool; on failure count the error, log
    and re-throw. *)
Definition getConnection : Async unit :=
  try_catch pool_connect
    (fun error =>
       incr_totalErrors ;;;
       emit (Log "Failed to acquire database connection") ;;;
       throw error).

(** [transaction(callback)] *)
Definition transaction : Async T :=
  getConnection ;;;
  try_finally
    (try_catch
       (client_query BEGIN ;;;
        result <- run_callback ;;
        client_query COMMIT ;;;
        ret result)
       (fun error =>
          client_query ROLLBACK ;;;
          incr_totalErrors ;;;
          emit (Log "Database transaction rolled back") ;;;
          throw error))
    client_release.

End Methods.

Definition fresh_pool : Pool := {| totalErrors := 0; trace := [] |}.

(** How often an action occurs in a trace. *)
Definition is_release (a : Action) : bool :=
  match a with Release => true | _ => false end.
Definition is_rollback (a : Action) : bool :=
  match a with Run ROLLBACK => true | _ => false end.
Definition releases (l : list Action) : nat := List.length (filter is_release l).

(** [before a b l]: some occurrence of [a] in [l] precedes an occurrence of [b]. *)
Definition before (a b : Action) (l : list Action) : Prop :=
  exists l1 l2 l3, l = l1 ++ a :: l2 ++ b :: l3.

(** The error with which the [try] block of [transaction] exits, if any:
    the first rejection among BEGIN, the callback and COMMIT. *)
Definition body_error {T : Type} (w : World T) : option string :=
  match query_result w BEGIN with
  | Thrown e => Some e
  | Returned _ =>
      match callback_result w with
      | Thrown e => Some e
      | Returned _ =>
          match query_result w COMMIT with
          | Thrown e => Some e
          | Returned _ => None
          end
      end
  end.

(** What the caller of [transaction] gets once the connection is there. *)
Definition expected_outcome {T : Type} (w : World T) : Outcome T :=
  match body_error w with
  | None =>
      match callback_result w with
      | Returned r => Returned r
      | Thrown e => Thrown e
      end
  | Some e =>
      match query_result w ROLLBACK with
      | Returned _ => Thrown e
      | Thrown e' => Thrown e'
      end
  end.

(** A world in which the callback rejects and the connection is too broken
    to roll back. *)
Definition broken_world : World unit :=
  {| connect_result := Returned tt;
     query_result := fun q => match q with
                              | ROLLBACK => Thrown "connection terminated"
                              | _ => Returned tt
                              end;
     callback_result := Thrown "duplicate key" |}.

(** [transaction] reaches the statements after [await client.query('ROLLBACK')]
    in its catch block: the [try] block failed and ROLLBACK fulfilled. *)
Definition rolled_back {T : Type} (w : World T) : bool :=
  match body_error w, query_result w ROLLBACK with
  | Some _, Returned _ => true
  | _, _ => false
  end.

(** A world without a connection. *)
Definition offline_world : World unit :=
  {| connect_result := Thrown "timeout exceeded when trying to connect";
     query_result := fun _ => Returned tt;
     callback_result := Returned tt |}.

End ConnectionPool.

(* ===================================================================== *)
(** * JavaScript helpers shared by the two queues                         *)
(* ===================================================================== *)

Module JS.

(** [Array.prototype.sort(cmp)] is stable (ECMAScript 2019): elements that
    compare equal keep their relative order.  Insertion from the right puts an
    element in front of everything it does not compare greater than. *)
Fixpoint insert_by {A : Type} (cmp : A -> A -> Z) (x : A) (l : list A) : list A :=
  match l with
  | [] => [x]
  | y :: l' => if cmp x y <=? 0 then x :: l else y :: insert_by cmp x l'
  end.

Definition sort {A : Type} (cmp : A -> A -> Z) (l : list A) : list A :=
  fold_right (insert_by cmp) [] l.

(** [a.reduce((x, y) => x + y, 0)] *)
Definition sum (l : list Z) : Z := fold_left Z.add l 0.

(** [a.length] as a number *)
Definition len {A : Type} (l : list A) : Z := Z.of_nat (List.length l).

(** [o || d] on an optional number: [undefined] and [0] are falsy. *)
Definition or_default (o : option Z) (d : Z) : Z :=
  match o with
  | Some v => if v =? 0 then d else v
  | None => d
  end.

(** Truthiness of an optional string: [undefined] and the empty string are falsy. *)
Definition truthy (o : option string) : bool :=
  match o with
  | Some EmptyString => false
  | Some _ => true
  | None => false
  end.

(** ** Doubles *)

(** An integer as a JavaScript number; exact for magnitudes below 2^53. *)
Definition number (z : Z) : PrimFloat.float :=
  if z <? 0 then PrimFloat.opp (PrimFloat.of_uint63 (Uint63.of_Z (- z)))
  else PrimFloat.of_uint63 (Uint63.of_Z z).

(** [Math.ceil(x)] of a finite number, as an integer. *)
Definition ceil (x : PrimFloat.float) : Z :=
  match FloatOps.Prim2SF x with
  | SpecFloat.S754_finite negative m e =>
      let v := if negative then Z.neg m else Z.pos m in
      if 0 <=? e then v * 2 ^ e else - ((- v) / 2 ^ (- e))
  | _ => 0
  end.

(** ** Dates *)

(** [new Date(t)] holds the time value [t], or is an Invalid Date when [t]
    is more than 8.64e15 ms away from the epoch.  A date is kept as the
    number it was made from. *)
Definition valid_date (t : Z) : bool :=
  (-8640000000000000 <=? t) && (t <=? 8640000000000000).

(** [a <= b] on two dates: false when either is an Invalid Date. *)
Definition date_le (a b : Z) : bool :=
  valid_date a && valid_date b && (a <=? b).

End JS.


(* ===================================================================== *)
(** * The connection pool: queries, health checks and metrics             *)
(* ===================================================================== *)

Module PoolQuery.
Import ConnectionPool.

(** [EnhancedConnectionPool.query], the health check of
    [startHealthChecks], [updateMetrics], [checkPoolHealth], [getMetrics]
    and [getStatus], with the two functions [query] calls into:
    [traceDatabaseOperation] (lib/tracing) and
    [performanceMonitor.recordQuery] (lib/db/performance-monitor).  The
    counters of pg's pool and the clock are inputs.  Ratios are exact
    rationals; for pool sizes and counts below a million the comparisons with
    80, 90 and 5 come out as in floating point. *)

(** What the pool, the client, the log and the tracer are asked to do, in
    program order. *)
Inductive Call :=
| PoolConnect                     (* this.pool.connect() *)
| ClientQuery (text : string)     (* client.query(text, params) *)
| ClientRelease                   (* client.release() *)
| LogLine (msg : string)          (* log(msg, ...) *)
| EndSpan (ok : bool).            (* endSpan(span, 'ok' | 'error') *)

(** ** The performance monitor *)

Record QueryPerformanceMetrics := {
  qm_query : string;
  executionTime : Z;
  qm_timestamp : Z;
  slow : bool;
  parameters : option (list string)
}.

Record Monitor := {
  slowQueryThreshold : Z;
  enableDetailedLogging : bool;
  queryMetrics : list QueryPerformanceMetrics;
  monitorLog : list string
}.

(** [a.slice(-n)] for a positive [n]. *)
Definition slice_last {A : Type} (n : nat) (a : list A) : list A :=
  skipn (List.length a - n) a.

(** [recordQuery(query, executionTime, parameters)] at time [now], with
    [logSlowQuery].  The text of a statement is a sequence of UTF-16 code
    units, and a [string] here holds those below 256, one to a character:
    [substring] counts code units. *)
Definition recordQuery (m : Monitor) (query : string) (time : Z)
  (params : list string) (now : Z) : Monitor :=
  let metrics :=
    {| qm_query := String.substring 0 500 query;
       executionTime := time;
       qm_timestamp := now;
       slow := slowQueryThreshold m <? time;
       parameters := if enableDetailedLogging m then Some params else None |} in
  let pushed := queryMetrics m ++ [metrics] in
  {| slowQueryThreshold := slowQueryThreshold m;
     enableDetailedLogging := enableDetailedLogging m;
     queryMetrics := if 1000 <? JS.len pushed then slice_last 1000 pushed else pushed;
     monitorLog :=
       if slow metrics then
         monitorLog m ++
         [if 5000 <? time
          then "CRITICAL: Extremely slow database query detected"
          else "Slow database query detected"]
       else monitorLog m |}.

(** ** The pool object *)

(** [pool.totalCount], [pool.idleCount] and [pool.waitingCount] of pg. *)
Record PgCounts := {
  totalCount : Z;
  idleCount : Z;
  waitingCount : Z
}.

Record Metrics := {
  totalConnections : Z;
  idleConnections : Z;
  activeConnections : Z;
  waitingClients : Z;
  totalQueries : Z;
  totalErrors : Z;
  averageQueryTime : Q;
  poolUtilization : Q;
  uptime : Z
}.

Record Pool := {
  metrics : Metrics;
  queryTimes : list Z;
  startTime : Z;
  isShuttingDown : bool;
  monitor : Monitor;          (* the performanceMonitor singleton *)
  calls : list Call
}.

(** [initializeMetrics()] *)
Definition initializeMetrics : Metrics :=
  {| totalConnections := 0; idleConnections := 0; activeConnections := 0;
     waitingClients := 0; totalQueries := 0; totalErrors := 0;
     averageQueryTime := 0%Q; poolUtilization := 0%Q; uptime := 0 |}.

(** The pool as the constructor leaves it at time [now], next to a monitor. *)
Definition create (m : Monitor) (now : Z) : Pool :=
  {| metrics := initializeMetrics; queryTimes := []; startTime := now;
     isShuttingDown := false; monitor := m; calls := [] |}.

Definition set_metrics (p : Pool) (m : Metrics) : Pool :=
  {| metrics := m; queryTimes := queryTimes p; startTime := startTime p;
     isShuttingDown := isShuttingDown p; monitor := monitor p; calls := calls p |}.

Definition set_queryTimes (p : Pool) (l : list Z) : Pool :=
  {| metrics := metrics p; queryTimes := l; startTime := startTime p;
     isShuttingDown := isShuttingDown p; monitor := monitor p; calls := calls p |}.

Definition set_monitor (p : Pool) (m : Monitor) : Pool :=
  {| metrics := metrics p; queryTimes := queryTimes p; startTime := startTime p;
     isShuttingDown := isShuttingDown p; monitor := m; calls := calls p |}.

Definition set_calls (p : Pool) (l : list Call) : Pool :=
  {| metrics := metrics p; queryTimes := queryTimes p; startTime := startTime p;
     isShuttingDown := isShuttingDown p; monitor := monitor p; calls := l |}.

Definition add_totalQueries (m : Metrics) : Metrics :=
  {| totalConnections := totalConnections m; idleConnections := idleConnections m;
     activeConnections := activeConnections m; waitingClients := waitingClients m;
     totalQueries := totalQueries m + 1; totalErrors := totalErrors m;
     averageQueryTime := averageQueryTime m; poolUtilization := poolUtilization m;
     uptime := uptime m |}.

Definition add_totalErrors (m : Metrics) : Metrics :=
  {| totalConnections := totalConnections m; idleConnections := idleConnections m;
     activeConnections := activeConnections m; waitingClients := waitingClients m;
     totalQueries := totalQueries m; totalErrors := totalErrors m + 1;
     averageQueryTime := averageQueryTime m; poolUtilization := poolUtilization m;
     uptime := uptime m |}.

(** ** Async bodies over a state *)

(** As in [ConnectionPool], over the state [S] of the running call. *)
Definition Task (S A : Type) := S -> Outcome A * S.

Definition pure {S A} (a : A) : Task S A := fun s => (Returned a, s).
Definition raise {S A} (e : string) : Task S A := fun s => (Thrown e, s).

(** [await m; k] *)
Definition and_then {S A B} (m : Task S A) (k : A -> Task S B) : Task S B :=
  fun s => match m s with
           | (Returned a, s') => k a s'
           | (Thrown e, s') => (Thrown e, s')
           end.

(** [try { m } catch (error) { h error }] *)
Definition catching {S A} (m : Task S A) (h : string -> Task S A) : Task S A :=
  fun s => match m s with
           | (Returned a, s') => (Returned a, s')
           | (Thrown e, s') => h e s'
           end.

(** [try { m } finally { f }], where [f] does not throw. *)
Definition finally {S A} (m : Task S A) (f : S -> S) : Task S A :=
  fun s => match m s with
           | (r, s') => (r, f s')
           end.

(** A statement that cannot throw. *)
Definition exec {S} (f : S -> S) : Task S unit := fun s => (Returned tt, f s).

Definition settle_with {S A} (o : Outcome A) : Task S A := fun s => (o, s).

Notation "x <~ m ;; k" := (and_then m (fun x => k))
  (at level 61, m at next level, right associativity).
Notation "m ;;~ k" := (and_then m (fun _ => k))
  (at level 61, right associativity).

(** ** Tracing *)

(** [traceDatabaseOperation(operation, query, params, fn)]: run [fn], end
    the span with its status, and hand on what [fn] returned or threw. *)
Definition traceDatabaseOperation {S A} (span : Call -> S -> S) (fn : Task S A)
  : Task S A :=
  catching
    (result <~ fn ;; exec (span (EndSpan true)) ;;~ pure result)
    (fun error => exec (span (EndSpan false)) ;;~ raise error).

(** ** [query] *)

(** The collaborators of one call of [query]: pg's [pool.connect()] and the
    client's answer. *)
Record QueryWorld (R : Type) := {
  connect_outcome : Outcome unit;
  query_outcome : Outcome R
}.
Arguments connect_outcome {R} _.
Arguments query_outcome {R} _.

(** The variables of one call of [query]: the pool object and the local
    [client], [null] until [pool.connect()] has returned. *)
Record Frame := {
  pool : Pool;
  client : bool
}.

Definition on_pool (f : Pool -> Pool) (fr : Frame) : Frame :=
  {| pool := f (pool fr); client := client fr |}.

Definition call (c : Call) (p : Pool) : Pool := set_calls p (calls p ++ [c]).

Section Query.
Context {R : Type} (w : QueryWorld R).
Variables (text : string) (params : list string).
Variables (start stop : Z).   (* Date.now() on entry, and when the duration is taken *)

(** The function passed to [traceDatabaseOperation]. *)
Definition query_body : Task Frame R :=
  finally
    (catching
       (exec (on_pool (call PoolConnect)) ;;~
        settle_with (connect_outcome w) ;;~
        exec (fun fr => {| pool := pool fr; client := true |}) ;;~
        exec (on_pool (call (ClientQuery text))) ;;~
        result <~ settle_with (query_outcome w) ;;
        exec (on_pool (fun p => set_metrics p (add_totalQueries (metrics p)))) ;;~
        exec (on_pool (fun p => set_queryTimes p (queryTimes p ++ [stop - start]))) ;;~
        exec (on_pool (fun p =>
                set_monitor p (recordQuery (monitor p) text (stop - start) params stop))) ;;~
        pure result)
       (fun error =>
          exec (on_pool (fun p => set_metrics p (add_totalErrors (metrics p)))) ;;~
          exec (on_pool (call (LogLine "Database query error"))) ;;~
          exec (on_pool (fun p =>
                  set_monitor p
                    (recordQuery (monitor p) text (- (stop - start)) params stop))) ;;~
          raise error))
    (fun fr => if client fr then on_pool (call ClientRelease) fr else fr).

(** [query(text, params)] *)
Definition query (p : Pool) : Outcome R * Pool :=
  let '(r, fr) :=
    traceDatabaseOperation (fun c => on_pool (call c)) query_body
      {| pool := p; client := false |} in
  (r, pool fr).

End Query.

(** ** The health check *)

(** The body of the interval of [startHealthChecks]; [w] says how
    [pool.connect()] and [client.query('SELECT 1')] end. *)
Definition healthCheck (w : QueryWorld unit) : Task Pool unit :=
  fun p =>
    if isShuttingDown p then (Returned tt, p)
    else
      catching
        (exec (call PoolConnect) ;;~
         settle_with (connect_outcome w) ;;~
         exec (call (ClientQuery "SELECT 1")) ;;~
         settle_with (query_outcome w) ;;~
         exec (call ClientRelease) ;;~
         exec (call (LogLine "Database health check passed")))
        (fun error =>
           exec (fun p => set_metrics p (add_totalErrors (metrics p))) ;;~
           exec (call (LogLine "Database health check failed")))
        p.

(** ** Metrics *)

(** [updateMetrics()] at time [now], with pg's counters [pg]. *)
Definition updateMetrics (pg : PgCounts) (now : Z) (p : Pool) : Pool :=
  let m := metrics p in
  let active := totalCount pg - idleCount pg in
  let m1 :=
    {| totalConnections := totalCount pg;
       idleConnections := idleCount pg;
       activeConnections := active;
       waitingClients := waitingCount pg;
       totalQueries := totalQueries m;
       totalErrors := totalErrors m;
       averageQueryTime :=
         if 0 <? JS.len (queryTimes p)
         then (inject_Z (JS.sum (queryTimes p)) / inject_Z (JS.len (queryTimes p)))%Q
         else averageQueryTime m;
       poolUtilization :=
         if 0 <? totalCount pg
         then ((inject_Z active / inject_Z (totalCount pg)) * (100#1))%Q
         else 0%Q;
       uptime := now - startTime p |} in
  set_queryTimes (set_metrics p m1)
    (if 100 <? JS.len (queryTimes p) then slice_last 100 (queryTimes p)
     else queryTimes p).

(** [getMetrics()]: the copy it returns and the pool it leaves. *)
Definition getMetrics (pg : PgCounts) (now : Z) (p : Pool) : Metrics * Pool :=
  let p' := updateMetrics pg now p in (metrics p', p').

Record PoolStatus := {
  healthy : bool;
  status_totalConnections : Z;
  status_idleConnections : Z;
  status_activeConnections : Z;
  status_waitingClients : Z;
  status_poolUtilization : Q
}.

Definition Qless (a b : Q) : bool := negb (Qle_bool b a).

(** [getStatus()] *)
Definition getStatus (pg : PgCounts) (now : Z) (p : Pool) : PoolStatus * Pool :=
  let '(m, p') := getMetrics pg now p in
  ({| healthy := Qless (poolUtilization m) (90#1) && (waitingClients m <? 10);
      status_totalConnections := totalConnections m;
      status_idleConnections := idleConnections m;
      status_activeConnections := activeConnections m;
      status_waitingClients := waitingClients m;
      status_poolUtilization := poolUtilization m |}, p').

(** [checkPoolHealth()]: the warnings it logs. *)
Definition checkPoolHealth (p : Pool) : Pool :=
  let m := metrics p in
  let p1 := if Qless (80#1) (poolUtilization m)
            then call (LogLine "High database pool utilization detected") p else p in
  let p2 := if 5 <? waitingClients m
            then call (LogLine "High number of waiting database clients") p1 else p1 in
  if (10 <? totalErrors m) && (0 <? totalQueries m) then
    let errorRate := ((inject_Z (totalErrors m) / inject_Z (totalQueries m)) * (100#1))%Q in
    if Qless (5#1) errorRate
    then call (LogLine "High database error rate detected") p2 else p2
  else p2.

(** The body of the interval of [startMonitoring]. *)
Definition monitoringTick (pg : PgCounts) (now : Z) (p : Pool) : Pool :=
  let p1 := updateMetrics pg now p in
  let p2 := if (Z.rem (totalQueries (metrics p1)) 100 =? 0) && (0 <? totalQueries (metrics p1))
            then call (LogLine "Database pool metrics") p1 else p1 in
  checkPoolHealth p2.

(** ** Vocabulary *)

Definition is_release (c : Call) : bool :=
  match c with ClientRelease => true | _ => false end.

(** How often the client was released in a list of calls. *)
Definition release_count (l : list Call) : nat := List.length (filter is_release l).

(** The error with which the [try] block of [query] exits, if any. *)
Definition query_error {R : Type} (w : QueryWorld R) : option string :=
  match connect_outcome w with
  | Thrown e => Some e
  | Returned _ =>
      match query_outcome w with
      | Thrown e => Some e
      | Returned _ => None
      end
  end.

(** The duration [query] reports to the monitor: negated when the call
    failed. *)
Definition reported_time {R : Type} (w : QueryWorld R) (start stop : Z) : Z :=
  match query_error w with
  | None => stop - start
  | Some _ => - (stop - start)
  end.

(** One call of [query], as the caller makes it. *)
Record QueryCall := {
  call_world : QueryWorld unit;
  call_text : string;
  call_params : list string;
  call_start : Z;
  call_stop : Z
}.

Definition run_call (p : Pool) (c : QueryCall) : Pool :=
  snd (query (call_world c) (call_text c) (call_params c) (call_start c) (call_stop c) p).

(** A sequence of calls of [query], one after the other. *)
Definition run_calls (p : Pool) (l : list QueryCall) : Pool := fold_left run_call l p.

(** ** Concrete pools *)

Definition default_monitor : Monitor :=
  {| slowQueryThreshold := 1000; enableDetailedLogging := false;
     queryMetrics := []; monitorLog := [] |}.

(** A query that the server rejects after six seconds. *)
Definition rejected_world : QueryWorld unit :=
  {| connect_outcome := Returned tt; query_outcome := Thrown "relation does not exist" |}.

(** A pool that cannot be reached. *)
Definition unreachable_world : QueryWorld unit :=
  {| connect_outcome := Thrown "connect ECONNREFUSED"; query_outcome := Returned tt |}.

(** A call that finds the pool unreachable after 50 ms. *)
Definition failing_call : QueryCall :=
  {| call_world := unreachable_world; call_text := "SELECT 1"; call_params := [];
     call_start := 100; call_stop := 150 |}.

Definition busy_counts : PgCounts :=
  {| totalCount := 20; idleCount := 2; waitingCount := 3 |}.

End PoolQuery.
(* ===================================================================== *)
(** * The load balancer                                                   *)
(* ===================================================================== *)

Module LoadBalancer.

(** The object is entered from outside in five ways: the middleware is
    called on a new request, a handler calls the wrapped [res.send] or
    [res.json], a response emits ['close'], or the timer of a queued request
    fires.  Each entry runs to completion and is one [Event]; it carries the
    value [Date.now()] has during that call.  Averages and rates are exact
    rationals: the histories hold integers and at most 100 of them, so the
    comparisons with the thresholds come out as in floating point. *)

(** [priorityLevels]: the entries of the object in [Object.entries] order,
    the key ["default"] among them. *)
Definition PriorityLevels := list (string * Z).

Record Config := {
  maxConcurrentRequests : Z;
  maxQueueSize : Z;
  requestTimeout : Z;
  priorityLevels : PriorityLevels;
  enableAdaptiveThrottling : bool
}.

(** A request is identified by its [res] object; objects are numbered in the
    order in which the middleware first sees them. *)
Record QueuedRequest := {
  res : nat;
  path : string;
  timestamp : Z;
  priority : Z
}.

(** The closure [processRequest] creates for one admitted request: the
    [startTime] it captured and its [responseHandled] flag. *)
Record Monitor := {
  m_res : nat;
  startTime : Z;
  responseHandled : bool
}.

Record State := {
  activeRequests : Z;
  requestQueue : list QueuedRequest;
  config : Config;
  responseTimeHistory : list Z;
  errorRateHistory : list Z;
  lastAdaptiveCheck : Z;
  monitors : list Monitor;       (* the live closures of processRequest *)
  headersSent : list nat;        (* the res objects whose headersSent is true *)
  nextRes : nat                  (* number of request objects seen so far *)
}.

(** What the middleware does to the outside: run the downstream handler of a
    request ([next()]) or answer it itself. *)
Inductive Effect :=
| Next (r : nat)
| Respond (r : nat) (status : Z) (error : string).

(** The constructor's defaults. *)
Definition default_priorityLevels : PriorityLevels :=
  [ ("/api/health", 10); ("/api/chat", 8); ("/api/pos", 9); ("/api/services", 7);
    ("/api/staff", 6); ("/api/appointments", 5); ("/api/analytics", 3);
    ("/api/marketing", 2); ("/api/loyalty", 2); ("default", 1) ].

Definition default_config : Config :=
  {| maxConcurrentRequests := 200;
     maxQueueSize := 1000;
     requestTimeout := 45000;
     priorityLevels := default_priorityLevels;
     enableAdaptiveThrottling := true |}.

(** [new LoadBalancer(config)] at time [now]. *)
Definition create (cfg : Config) (now : Z) : State :=
  {| activeRequests := 0; requestQueue := []; config := cfg;
     responseTimeHistory := []; errorRateHistory := [];
     lastAdaptiveCheck := now; monitors := []; headersSent := []; nextRes := 0 |}.

(** ** Priority of a path *)

(** [path.startsWith(pattern)] *)
Definition startsWith (path pattern : string) : bool := String.prefix pattern path.

(** [priorityLevels[key]] *)
Fixpoint lookup (key : string) (levels : PriorityLevels) : option Z :=
  match levels with
  | [] => None
  | (k, v) :: rest => if String.eqb k key then Some v else lookup key rest
  end.

(** The [for ... of Object.entries] loop of [getRequestPriority]. *)
Fixpoint first_match (path : string) (entries : PriorityLevels) : option Z :=
  match entries with
  | [] => None
  | (pattern, priority) :: rest =>
      if String.eqb pattern "default" then first_match path rest
      else if startsWith path pattern then Some priority
      else first_match path rest
  end.

(** [getRequestPriority(path)]; [None] is JavaScript's [undefined], returned
    when nothing matches and the table has no ["default"] key. *)
Definition getRequestPriority (levels : PriorityLevels) (path : string) : option Z :=
  match first_match path levels with
  | Some priority => Some priority
  | None => lookup "default" levels
  end.

(** ** State updates *)

Definition set_active (s : State) (n : Z) : State :=
  {| activeRequests := n; requestQueue := requestQueue s; config := config s;
     responseTimeHistory := responseTimeHistory s; errorRateHistory := errorRateHistory s;
     lastAdaptiveCheck := lastAdaptiveCheck s; monitors := monitors s;
     headersSent := headersSent s; nextRes := nextRes s |}.

Definition set_queue (s : State) (q : list QueuedRequest) : State :=
  {| activeRequests := activeRequests s; requestQueue := q; config := config s;
     responseTimeHistory := responseTimeHistory s; errorRateHistory := errorRateHistory s;
     lastAdaptiveCheck := lastAdaptiveCheck s; monitors := monitors s;
     headersSent := headersSent s; nextRes := nextRes s |}.

Definition set_limit (s : State) (n : Z) : State :=
  {| activeRequests := activeRequests s; requestQueue := requestQueue s;
     config := {| maxConcurrentRequests := n;
                  maxQueueSize := maxQueueSize (config s);
                  requestTimeout := requestTimeout (config s);
                  priorityLevels := priorityLevels (config s);
                  enableAdaptiveThrottling := enableAdaptiveThrottling (config s) |};
     responseTimeHistory := responseTimeHistory s; errorRateHistory := errorRateHistory s;
     lastAdaptiveCheck := lastAdaptiveCheck s; monitors := monitors s;
     headersSent := headersSent s; nextRes := nextRes s |}.

Definition set_histories (s : State) (rt er : list Z) : State :=
  {| activeRequests := activeRequests s; requestQueue := requestQueue s; config := config s;
     responseTimeHistory := rt; errorRateHistory := er;
     lastAdaptiveCheck := lastAdaptiveCheck s; monitors := monitors s;
     headersSent := headersSent s; nextRes := nextRes s |}.

Definition set_lastAdaptiveCheck (s : State) (t : Z) : State :=
  {| activeRequests := activeRequests s; requestQueue := requestQueue s; config := config s;
     responseTimeHistory := responseTimeHistory s; errorRateHistory := errorRateHistory s;
     lastAdaptiveCheck := t; monitors := monitors s;
     headersSent := headersSent s; nextRes := nextRes s |}.

Definition set_monitors (s : State) (ms : list Monitor) : State :=
  {| activeRequests := activeRequests s; requestQueue := requestQueue s; config := config s;
     responseTimeHistory := responseTimeHistory s; errorRateHistory := errorRateHistory s;
     lastAdaptiveCheck := lastAdaptiveCheck s; monitors := ms;
     headersSent := headersSent s; nextRes := nextRes s |}.

Definition set_headersSent (s : State) (hs : list nat) : State :=
  {| activeRequests := activeRequests s; requestQueue := requestQueue s; config := config s;
     responseTimeHistory := responseTimeHistory s; errorRateHistory := errorRateHistory s;
     lastAdaptiveCheck := lastAdaptiveCheck s; monitors := monitors s;
     headersSent := hs; nextRes := nextRes s |}.

Definition set_nextRes (s : State) (n : nat) : State :=
  {| activeRequests := activeRequests s; requestQueue := requestQueue s; config := config s;
     responseTimeHistory := responseTimeHistory s; errorRateHistory := errorRateHistory s;
     lastAdaptiveCheck := lastAdaptiveCheck s; monitors := monitors s;
     headersSent := headersSent s; nextRes := n |}.

Definition limit (s : State) : Z := maxConcurrentRequests (config s).

Definition has_sent (s : State) (r : nat) : bool :=
  existsb (Nat.eqb r) (headersSent s).

(** [res.status(code).json({error})] on a response the middleware answers
    itself: the headers go out.  Such a response never went through
    [processRequest], so its [json] is the original one. *)
Definition respond (s : State) (r : nat) (status : Z) (error : string)
  : State * list Effect :=
  (set_headersSent s (r :: headersSent s), [Respond r status error]).

(** ** Admission *)

(** [processRequest(req, res, next, startTime)]: count the request, wrap
    [res.send] and [res.json], listen for ['close'], and call [next()]. *)
Definition processRequest (s : State) (r : nat) (start : Z) : State * list Effect :=
  let s1 := set_active s (activeRequests s + 1) in
  let monitor := {| m_res := r; startTime := start; responseHandled := false |} in
  (set_monitors s1 (monitors s1 ++ [monitor]), [Next r]).

(** The comparator of [queueRequest]: [(a, b) => b.priority - a.priority]. *)
Definition by_priority (a b : QueuedRequest) : Z := priority b - priority a.

(** [queueRequest(req, res, next)]; the timer it arms fires later as the
    event [Timer]. *)
Definition queueRequest (s : State) (r : nat) (p : string) (now : Z)
  : option (State * list Effect) :=
  if maxQueueSize (config s) <=? JS.len (requestQueue s) then
    Some (respond s r 503 "QUEUE_FULL")
  else
    match getRequestPriority (priorityLevels (config s)) p with
    | None => None
    | Some priority =>
        let queuedRequest :=
          {| res := r; path := p; timestamp := now; priority := priority |} in
        Some (set_queue s (JS.sort by_priority (requestQueue s ++ [queuedRequest])), [])
    end.

(** [processNextInQueue()], by recursion on the queue it consumes; [q] is
    [this.requestQueue] at every call. *)
Fixpoint processNextInQueue_from (q : list QueuedRequest) (s : State) (now : Z)
  : State * list Effect :=
  match q with
  | [] => (s, [])
  | queuedRequest :: rest =>
      if limit s <=? activeRequests s then (s, [])
      else
        let s1 := set_queue s rest in
        let queueTime := now - timestamp queuedRequest in
        if requestTimeout (config s) <? queueTime then
          let '(s2, out1) :=
            if has_sent s1 (res queuedRequest) then (s1, [])
            else respond s1 (res queuedRequest) 408 "QUEUE_TIMEOUT" in
          let '(s3, out2) := processNextInQueue_from rest s2 now in
          (s3, out1 ++ out2)
        else
          processRequest s1 (res queuedRequest) (timestamp queuedRequest)
  end.

Definition processNextInQueue (s : State) (now : Z) : State * list Effect :=
  processNextInQueue_from (requestQueue s) s now.

(** [requestQueue.indexOf(queuedRequest)] followed by [splice(index, 1)]. *)
Fixpoint remove_first (r : nat) (q : list QueuedRequest) : option (list QueuedRequest) :=
  match q with
  | [] => None
  | x :: q' =>
      if Nat.eqb (res x) r then Some q'
      else match remove_first r q' with
           | Some q'' => Some (x :: q'')
           | None => None
           end
  end.

(** [timeoutQueuedRequest(queuedRequest)] *)
Definition timeoutQueuedRequest (s : State) (r : nat) : State * list Effect :=
  match remove_first r (requestQueue s) with
  | None => (s, [])
  | Some q' =>
      let s1 := set_queue s q' in
      if has_sent s1 r then (s1, []) else respond s1 r 408 "QUEUE_TIMEOUT"
  end.

(** ** Adaptive throttling *)

(** [h.push(x); if (h.length > 100) h.shift()] *)
Definition record (h : list Z) (x : Z) : list Z :=
  let h' := h ++ [x] in
  if 100 <? JS.len h' then tl h' else h'.

(** [Math.ceil((percentile / 100) * n) - 1], computed in doubles as the code
    does: the quotient is rounded before it is multiplied. *)
Definition percentile_index (percentile n : Z) : Z :=
  JS.ceil (PrimFloat.mul (PrimFloat.div (JS.number percentile) (JS.number 100))
                         (JS.number n)) - 1.

(** [getPercentile(values, percentile)] *)
Definition getPercentile (values : list Z) (percentile : Z) : Z :=
  match values with
  | [] => 0
  | _ =>
      let sorted := JS.sort (fun a b => a - b) values in
      let index := percentile_index percentile (JS.len sorted) in
      nth (Z.to_nat (Z.max 0 (Z.min index (JS.len sorted - 1)))) sorted 0
  end.

Definition Qgt (a b : Q) : bool := negb (Qle_bool a b).
Definition Qlt (a b : Q) : bool := negb (Qle_bool b a).

(** The four conditions of [checkAdaptiveThrottling], in the order tested. *)
Definition extreme_load (avgResponseTime errorRate : Q) (p95ResponseTime : Z) : bool :=
  Qgt avgResponseTime (10000#1) || Qgt errorRate (2#10) || (15000 <? p95ResponseTime).
Definition high_load (avgResponseTime errorRate : Q) (p95ResponseTime : Z) : bool :=
  Qgt avgResponseTime (5000#1) || Qgt errorRate (1#10) || (8000 <? p95ResponseTime).
Definition good_performance (avgResponseTime errorRate : Q) (p95ResponseTime : Z) : bool :=
  Qlt avgResponseTime (2000#1) && Qlt errorRate (2#100) && (p95ResponseTime <? 3000).
Definition excellent_performance (avgResponseTime errorRate : Q) : bool :=
  Qlt avgResponseTime (1000#1) && Qlt errorRate (1#100).

(** The limit [checkAdaptiveThrottling] sets from the three statistics;
    [Math.floor(limit * 0.3)] is [limit * 3 / 10] on integers. *)
Definition adjust (limit : Z) (avgResponseTime errorRate : Q) (p95ResponseTime : Z) : Z :=
  if extreme_load avgResponseTime errorRate p95ResponseTime then
    let reduction := Z.min 50 (limit * 3 / 10) in
    Z.max 20 (limit - reduction)
  else if high_load avgResponseTime errorRate p95ResponseTime then
    let reduction := Z.min 20 (limit * 2 / 10) in
    Z.max 30 (limit - reduction)
  else if good_performance avgResponseTime errorRate p95ResponseTime then
    Z.min 400 (limit + 10)
  else if excellent_performance avgResponseTime errorRate then
    Z.min 500 (limit + 15)
  else limit.

Definition mean (h : list Z) : Q := (inject_Z (JS.sum h) / inject_Z (JS.len h))%Q.

(** [checkAdaptiveThrottling()] at time [now]. *)
Definition checkAdaptiveThrottling (s : State) (now : Z) : State :=
  if now - lastAdaptiveCheck s <? 5000 then s
  else
    let s1 := set_lastAdaptiveCheck s now in
    if JS.len (responseTimeHistory s1) <? 5 then s1
    else
      let avgResponseTime := mean (responseTimeHistory s1) in
      let errorRate := mean (errorRateHistory s1) in
      let p95ResponseTime := getPercentile (responseTimeHistory s1) 95 in
      set_limit s1 (adjust (limit s1) avgResponseTime errorRate p95ResponseTime).

(** ** Completion *)

Fixpoint find_monitor (r : nat) (ms : list Monitor) : option Monitor :=
  match ms with
  | [] => None
  | m :: ms' => if Nat.eqb (m_res m) r then Some m else find_monitor r ms'
  end.

(** [responseHandled = true] in the closure of [r]. *)
Fixpoint mark_handled (r : nat) (ms : list Monitor) : list Monitor :=
  match ms with
  | [] => []
  | m :: ms' =>
      if Nat.eqb (m_res m) r
      then {| m_res := m_res m; startTime := startTime m; responseHandled := true |} :: ms'
      else m :: mark_handled r ms'
  end.

(** [handleResponse(statusCode)] of the closure of [r], if [r] was admitted. *)
Definition handleResponse (s : State) (r : nat) (statusCode : Z) (now : Z)
  : State * list Effect :=
  match find_monitor r (monitors s) with
  | None => (s, [])
  | Some m =>
      if responseHandled m then (s, [])
      else
        let s1 := set_monitors s (mark_handled r (monitors s)) in
        let s2 := set_active s1 (activeRequests s1 - 1) in
        let responseTime := now - startTime m in
        let s3 := set_histories s2
                    (record (responseTimeHistory s2) responseTime)
                    (record (errorRateHistory s2) (if 400 <=? statusCode then 1 else 0)) in
        let '(s4, out) := processNextInQueue s3 now in
        let s5 := if enableAdaptiveThrottling (config s4)
                  then checkAdaptiveThrottling s4 now else s4 in
        (s5, out)
  end.

(** ** The middleware as a transition system *)

Inductive Event :=
| Arrive (p : string) (now : Z)            (* the middleware is called on a new request *)
| Send (r : nat) (statusCode : Z) (now : Z)   (* the handler calls res.send *)
| Json (r : nat) (statusCode : Z) (now : Z)   (* the handler calls res.json *)
| Close (r : nat) (statusCode : Z) (now : Z)  (* res emits 'close' *)
| Timer (r : nat) (now : Z).               (* the timer armed by queueRequest fires *)

(** The function [middleware()] returns. *)
Definition middleware (s : State) (p : string) (now : Z) : option (State * list Effect) :=
  let r := nextRes s in
  let s0 := set_nextRes s (S r) in
  if limit s0 <=? activeRequests s0 then queueRequest s0 r p now
  else Some (processRequest s0 r now).

Definition sent (r : nat) (x : State * list Effect) : State * list Effect :=
  (set_headersSent (fst x) (r :: headersSent (fst x)), snd x).

Definition step (s : State) (e : Event) : option (State * list Effect) :=
  match e with
  | Arrive p now => middleware s p now
  | Send r statusCode now => Some (sent r (handleResponse s r statusCode now))
  | Json r statusCode now => Some (sent r (handleResponse s r statusCode now))
  | Close r statusCode now =>
      Some (handleResponse s r (if statusCode =? 0 then 499 else statusCode) now)
  | Timer r now => Some (timeoutQueuedRequest s r)
  end.

(** The history of a run: every event followed by what it caused. *)
Inductive Obs :=
| Got (e : Event)
| Did (f : Effect).

Fixpoint run (s : State) (events : list Event) : option (State * list Obs) :=
  match events with
  | [] => Some (s, [])
  | e :: events' =>
      match step s e with
      | None => None
      | Some (s1, out) =>
          match run s1 events' with
          | None => None
          | Some (s2, h) => Some (s2, Got e :: map Did out ++ h)
          end
      end
  end.

(** ** Longest-prefix matching, as the specification words it *)

(** The entry with the longest key, other than ["default"], that is a prefix
    of [path]; [best] is the longest one found so far. *)
Fixpoint best_match (path : string) (entries : PriorityLevels)
  (best : option (string * Z)) : option (string * Z) :=
  match entries with
  | [] => best
  | (pattern, priority) :: rest =>
      if String.eqb pattern "default" then best_match path rest best
      else if startsWith path pattern
              && match best with
                 | None => true
                 | Some (b, _) => (String.length b <? String.length pattern)%nat
                 end
      then best_match path rest (Some (pattern, priority))
      else best_match path rest best
  end.

Definition longest_prefix_priority (levels : PriorityLevels) (path : string) : option Z :=
  match best_match path levels None with
  | Some (_, priority) => Some priority
  | None => lookup "default" levels
  end.

(** No key of [rest] is a proper extension of [k]. *)
Definition no_later_extension (k : string) (rest : PriorityLevels) : bool :=
  forallb (fun '(k2, _) =>
             String.eqb k2 "default"
             || negb (String.prefix k k2 && (String.length k <? String.length k2)%nat))
          rest.

(** No key of the table is a proper prefix of a key that comes after it. *)
Fixpoint well_ordered (levels : PriorityLevels) : bool :=
  match levels with
  | [] => true
  | (k, _) :: rest =>
      (String.eqb k "default" || no_later_extension k rest) && well_ordered rest
  end.

(** ** Vocabulary for the properties of the queue *)

(** A queued request has waited longer than [requestTimeout]. *)
Definition expired (cfg : Config) (now : Z) (x : QueuedRequest) : Prop :=
  requestTimeout cfg < now - timestamp x.

(** The closure [processRequest] creates when [x] leaves the queue. *)
Definition monitor_of (x : QueuedRequest) : Monitor :=
  {| m_res := res x; startTime := timestamp x; responseHandled := false |}.

Definition is_timeout_response (f : Effect) : Prop :=
  exists r, f = Respond r 408 "QUEUE_TIMEOUT".

(** Everything in the configuration but the limit. *)
Definition same_settings (c c' : Config) : Prop :=
  maxQueueSize c' = maxQueueSize c /\
  requestTimeout c' = requestTimeout c /\
  priorityLevels c' = priorityLevels c /\
  enableAdaptiveThrottling c' = enableAdaptiveThrottling c.

(** The state [handleResponse] hands to [processNextInQueue]. *)
Definition after_completion (s : State) (r : nat) (m : Monitor) (statusCode now : Z) : State :=
  let s1 := set_monitors s (mark_handled r (monitors s)) in
  let s2 := set_active s1 (activeRequests s1 - 1) in
  set_histories s2
    (record (responseTimeHistory s2) (now - startTime m))
    (record (errorRateHistory s2) (if 400 <=? statusCode then 1 else 0)).

(** The bounds written into the four branches of [checkAdaptiveThrottling]. *)
Definition branch_bounds : Prop :=
  forall (limit : Z) (avg err : Q) (p95 : Z),
    (extreme_load avg err p95 = true ->
     adjust limit avg err p95 = Z.max 20 (limit - Z.min 50 (limit * 3 / 10))) /\
    (extreme_load avg err p95 = false -> high_load avg err p95 = true ->
     adjust limit avg err p95 = Z.max 30 (limit - Z.min 20 (limit * 2 / 10))) /\
    (extreme_load avg err p95 = false -> high_load avg err p95 = false ->
     good_performance avg err p95 = true ->
     adjust limit avg err p95 = Z.min 400 (limit + 10)) /\
    (extreme_load avg err p95 = false -> high_load avg err p95 = false ->
     good_performance avg err p95 = false -> excellent_performance avg err = true ->
     adjust limit avg err p95 = Z.min 500 (limit + 15)).

(** ** Requests in flight, read off the history of a run *)

(** The request whose completion an event signals. *)
Definition finished_res (e : Event) : option nat :=
  match e with
  | Send r _ _ | Json r _ _ | Close r _ _ => Some r
  | Arrive _ _ | Timer _ _ => None
  end.

(** The requests admitted ([next()] was called) and not yet finished, in
    order of admission, after the history [h] and starting from [acc]. *)
Fixpoint in_flight_from (acc : list nat) (h : list Obs) : list nat :=
  match h with
  | [] => acc
  | Did (Next r) :: h' => in_flight_from (acc ++ [r]) h'
  | Did (Respond _ _ _) :: h' => in_flight_from acc h'
  | Got e :: h' =>
      match finished_res e with
      | Some r => in_flight_from (remove Nat.eq_dec r acc) h'
      | None => in_flight_from acc h'
      end
  end.

Definition in_flight (h : list Obs) : list nat := in_flight_from [] h.

(** The requests admitted in the history [h], in order of admission. *)
Fixpoint admitted (h : list Obs) : list nat :=
  match h with
  | [] => []
  | Did (Next r) :: h' => r :: admitted h'
  | _ :: h' => admitted h'
  end.

(** The requests whose closure has not yet seen a response. *)
Definition unhandled (ms : list Monitor) : list nat :=
  map m_res (filter (fun m => negb (responseHandled m)) ms).

(** Request objects are told apart: closures and queue entries belong to
    different requests that the middleware has seen, and [activeRequests]
    counts the closures that have not seen a response. *)
Definition consistent (s : State) : Prop :=
  NoDup (map m_res (monitors s)) /\
  NoDup (map res (requestQueue s)) /\
  (forall r, In r (map m_res (monitors s)) -> (r < nextRes s)%nat) /\
  (forall r, In r (map res (requestQueue s)) ->
     (r < nextRes s)%nat /\ ~ In r (map m_res (monitors s))) /\
  activeRequests s = Z.of_nat (List.length (unhandled (monitors s))).

(** ** The order of the queue *)

(** [a] arrived before [b]. *)
Definition arrived_before (a b : QueuedRequest) : Prop :=
  timestamp a <= timestamp b /\ (res a < res b)%nat.

(** [a] is served before [b]: higher priority first, and within a priority
    the earlier arrival first. *)
Definition queue_order (a b : QueuedRequest) : Prop :=
  priority b < priority a \/ (priority a = priority b /\ arrived_before a b).

Definition event_time (e : Event) : Z :=
  match e with
  | Arrive _ now | Send _ _ now | Json _ _ now | Close _ _ now | Timer _ now => now
  end.

(** The clock does not run backwards along the events. *)
Fixpoint chronological (t : Z) (events : list Event) : Prop :=
  match events with
  | [] => True
  | e :: events' => t <= event_time e /\ chronological (event_time e) events'
  end.

(** The queue is in serving order and holds requests that arrived by [t]. *)
Definition ordered (s : State) (t : Z) : Prop :=
  StronglySorted queue_order (requestQueue s) /\
  (forall x, In x (requestQueue s) -> timestamp x <= t /\ (res x < nextRes s)%nat).

(** ** A run that leaves a request waiting below the limit *)

(** 200 requests fill the default limit, 7 health checks queue up, five
    requests finish after 100 ms and a sixth after 5 s; its completion raises
    the limit to 215 while one health check is still queued. *)
Definition crowd_events : list Event :=
  repeat (Arrive "/api/pos" 0) 200 ++
  repeat (Arrive "/api/health" 0) 7 ++
  map (fun r => Send r 200 100) (seq 0 5) ++
  [Send 5 200 5000].

(** A short run: one request is admitted and signals its completion three
    times. *)
Definition echo_events : list Event :=
  [Arrive "/api/health" 0; Send 0 200 10; Json 0 200 11; Close 0 200 12].

(** A middleware that runs one request at a time, and four arrivals: the
    first is admitted, then a marketing request, a health check and another
    marketing request queue up. *)
Definition narrow_config : Config :=
  {| maxConcurrentRequests := 1;
     maxQueueSize := 1000;
     requestTimeout := 45000;
     priorityLevels := default_priorityLevels;
     enableAdaptiveThrottling := false |}.

Definition queue_events : list Event :=
  [Arrive "/api/marketing" 0; Arrive "/api/marketing" 1;
   Arrive "/api/health" 2; Arrive "/api/marketing" 3].

(** ** Runs of the default middleware that meet each of the four bounds *)

(** Round [k] ends at [5000 * k] ms: a request that takes 3 s and four that
    are answered at once.  The slow one finishes last and triggers the check:
    the average is low and the 95th percentile is 3000, which is excellent
    but not good performance. *)
Definition excellent_round (k : nat) : list Event :=
  let t := 5000 * Z.of_nat k in
  let base := (5 * (k - 1))%nat in
  Arrive "/api/pos" (t - 3000) ::
  flat_map (fun i => [Arrive "/api/pos" (t - 1); Send (base + i) 200 (t - 1)])
           (seq 1 4) ++
  [Send base 200 t].

(** Fourteen such rounds, then a hundred requests answered at once and a
    check: good performance. *)
Definition climb_events : list Event := flat_map excellent_round (seq 1 14).

Definition calm_events : list Event :=
  flat_map (fun i => [Arrive "/api/pos" 74999; Send (70 + i) 200 74999]) (seq 0 100) ++
  [Arrive "/api/pos" 75000; Send 170 200 75000].

(** Four failures at once, then seven rounds of one failure each, 5 s apart:
    the error rate is 1, extreme load.  Then sixty successes and a check: the
    error rate is 11 in 72, high load. *)
Definition sink_events : list Event :=
  flat_map (fun i => [Arrive "/api/pos" 1; Send i 500 1]) (seq 0 4) ++
  flat_map (fun k => [Arrive "/api/pos" (5000 * Z.of_nat k);
                      Send (3 + k) 500 (5000 * Z.of_nat k)]) (seq 1 7).

Definition recover_events : list Event :=
  flat_map (fun i => [Arrive "/api/pos" 39999; Send (11 + i) 200 39999]) (seq 0 60) ++
  [Arrive "/api/pos" 40000; Send 71 200 40000].

(** The limit after a run of the default middleware created at time 0. *)
Definition limit_after (events : list Event) : option Z :=
  match run (create default_config 0) events with
  | Some (s, _) => Some (limit s)
  | None => None
  end.

(** ** A single pair of bounds, as the specification words it *)

(** Every reduction is floored at [lo] and every increase is capped at [hi]. *)
Definition single_bounds (lo hi : Z) : Prop :=
  forall (limit : Z) (avg err : Q) (p95 : Z),
    (extreme_load avg err p95 = true ->
     adjust limit avg err p95 = Z.max lo (limit - Z.min 50 (limit * 3 / 10))) /\
    (extreme_load avg err p95 = false -> high_load avg err p95 = true ->
     adjust limit avg err p95 = Z.max lo (limit - Z.min 20 (limit * 2 / 10))) /\
    (extreme_load avg err p95 = false -> high_load avg err p95 = false ->
     good_performance avg err p95 = true ->
     adjust limit avg err p95 = Z.min hi (limit + 10)) /\
    (extreme_load avg err p95 = false -> high_load avg err p95 = false ->
     good_performance avg err p95 = false -> excellent_performance avg err = true ->
     adjust limit avg err p95 = Z.min hi (limit + 15)).

(** ** Status *)

(** What [getStatus()] returns.  [utilizationPercent] divides by the limit:
    with a limit of 0 JavaScript yields [NaN] or [Infinity], which is [None]
    here. *)
Record StatusReport := {
  status_activeRequests : Z;
  status_queuedRequests : Z;
  status_maxConcurrentRequests : Z;
  status_maxQueueSize : Z;
  status_avgResponseTime : Q;
  status_errorRate : Q;
  status_utilizationPercent : option Q
}.

(** [h.length > 0 ? h.reduce((a, b) => a + b, 0) / h.length : 0] *)
Definition mean_or_zero (h : list Z) : Q :=
  if 0 <? JS.len h then mean h else 0%Q.

(** [getStatus()] *)
Definition getStatus (s : State) : StatusReport :=
  {| status_activeRequests := activeRequests s;
     status_queuedRequests := JS.len (requestQueue s);
     status_maxConcurrentRequests := limit s;
     status_maxQueueSize := maxQueueSize (config s);
     status_avgResponseTime := mean_or_zero (responseTimeHistory s);
     status_errorRate := mean_or_zero (errorRateHistory s);
     status_utilizationPercent :=
       if limit s =? 0 then None
       else Some ((inject_Z (activeRequests s) / inject_Z (limit s)) * (100#1))%Q |}.

(** ** Requests the middleware answers itself *)

(** The requests answered by the effects [out], in order. *)
Fixpoint answered (out : list Effect) : list nat :=
  match out with
  | [] => []
  | Respond r _ _ :: out' => r :: answered out'
  | Next _ :: out' => answered out'
  end.

(** The requests the middleware answered itself (503 or 408) in the history
    [h], in order. *)
Fixpoint rejected (h : list Obs) : list nat :=
  match h with
  | [] => []
  | Did (Respond r _ _) :: h' => r :: rejected h'
  | _ :: h' => rejected h'
  end.

(** The requests in [rej] are done with: the middleware has seen them, and
    they are neither queued nor admitted. *)
Definition settled (s : State) (rej : list nat) : Prop :=
  NoDup rej /\
  forall r, In r rej ->
    (r < nextRes s)%nat /\
    ~ In r (map res (requestQueue s)) /\
    ~ In r (map m_res (monitors s)).

(** Nothing the object holds lies in the future: queued requests arrived by
    [t], admitted ones started by [t], and no recorded response time is
    negative. *)
Definition timely (s : State) (t : Z) : Prop :=
  (forall x, In x (requestQueue s) -> timestamp x <= t) /\
  (forall m, In m (monitors s) -> startTime m <= t) /\
  Forall (fun d => 0 <= d) (responseTimeHistory s).

(** The histories hold the same number of entries, at most 100, and the
    error history holds flags. *)
Definition windowed (s : State) : Prop :=
  List.length (responseTimeHistory s) = List.length (errorRateHistory s) /\
  (List.length (responseTimeHistory s) <= 100)%nat /\
  Forall (fun x => x = 0 \/ x = 1) (errorRateHistory s).

(** The number of admitted requests whose completion has been recorded. *)
Definition completions (s : State) : nat :=
  List.length (filter responseHandled (monitors s)).

(** The last [n] entries of a list. *)
Definition last_entries {A : Type} (n : nat) (l : list A) : list A :=
  skipn (List.length l - n) l.

(** What the closure of [r] makes of a response with [statusCode] at [now]:
    the time since its [startTime] and the error flag; nothing when [r] was
    not admitted or the closure has seen a response before. *)
Definition first_response (s : State) (r : nat) (statusCode now : Z) : option (Z * Z) :=
  match find_monitor r (monitors s) with
  | Some m =>
      if responseHandled m then None
      else Some (now - startTime m, if 400 <=? statusCode then 1 else 0)
  | None => None
  end.

(** The response an event brings, if it is the first of its request. *)
Definition recorded (s : State) (e : Event) : option (Z * Z) :=
  match e with
  | Send r statusCode now | Json r statusCode now => first_response s r statusCode now
  | Close r statusCode now =>
      first_response s r (if statusCode =? 0 then 499 else statusCode) now
  | Arrive _ _ | Timer _ _ => None
  end.

(** The responses of a run, oldest first: the response time and the error
    flag of each. *)
Fixpoint recordings (s : State) (events : list Event) : list (Z * Z) :=
  match events with
  | [] => []
  | e :: events' =>
      match step s e with
      | None => []
      | Some (s1, _) =>
          match recorded s e with
          | Some x => x :: recordings s1 events'
          | None => recordings s1 events'
          end
      end
  end.

(** [n] requests ten milliseconds apart; request [i] is answered [i] ms
    after it arrived, every tenth with an error. *)
Definition burst (n : nat) : list Event :=
  flat_map (fun i => [Arrive "/api/pos" (1000 * Z.of_nat i);
                      Send i (if (i mod 10 =? 0)%nat then 500 else 200)
                           (1000 * Z.of_nat i + Z.of_nat i)])
           (seq 0 n).

(** A queue of three behind a limit of one and a queue size of two: the
    fourth arrival is turned away. *)
Definition tight_config : Config :=
  {| maxConcurrentRequests := 1;
     maxQueueSize := 2;
     requestTimeout := 45000;
     priorityLevels := default_priorityLevels;
     enableAdaptiveThrottling := true |}.

Definition overflow_events : list Event :=
  [Arrive "/api/pos" 0; Arrive "/api/chat" 1; Arrive "/api/health" 2;
   Arrive "/api/staff" 3; Timer 1 45001; Send 0 500 46000].

(** The default middleware after four failed requests at time 1 and a fifth
    arrival at 5 s: the completion of the fifth triggers the first check. *)
Definition before_first_check : State :=
  match run (create default_config 0) (firstn 9 sink_events) with
  | Some (s, _) => s
  | None => create default_config 0
  end.

(** The values 1 to 100. *)
Definition one_to_hundred : list Z := map Z.of_nat (seq 1 100).

End LoadBalancer.

(* ===================================================================== *)
(** * The job queue                                                       *)
(* ===================================================================== *)

Module JobQueue.

(** [await handler(job)] calls the handler at once.  A handler that throws
    before it returns is caught in the same call of [processJob]; otherwise
    it returns a promise or a value, and what follows the [await] runs in a
    later event, [Settle].  [generateJobId()] reads the clock and
    [Math.random()], so the id it returns is an input of [addJob].  Job
    payloads and results are opaque strings.  [createdAt] and [nextRunAt]
    are dates, kept as the numbers they were made from ([JS.valid_date]). *)

Inductive Status := Pending | Running | Completed | Failed | Cancelled.

(** The three messages the queue writes into [job.error]: the template and
    the values spliced into it. *)
Inductive JobError :=
| NoHandler (type : string)                 (* No handler registered for job type: T *)
| AttemptFailed (n : Z) (message : string)  (* Attempt N failed: M *)
| MaxRetriesExceeded (message : string).    (* Max retries exceeded. Final error: M *)

(** [job.result]: the handler's value with [processingTime] and [completedAt]. *)
Record JobResult := {
  value : string;
  processingTime : Z;
  completedAt : Z
}.

Record Job := {
  id : string;
  type : string;
  data : string;
  priority : Z;
  maxRetries : Z;
  retryCount : Z;
  createdAt : Z;
  nextRunAt : Z;
  status : Status;
  result : option JobResult;
  error : option JobError;
  idempotencyKey : option string
}.

Record QueueConfig := {
  maxConcurrency : Z;
  retryDelayMs : Z;
  config_maxRetries : Z;         (* config.maxRetries *)
  cleanupIntervalMs : Z;
  enableMonitoring : bool
}.

(** The [options] argument of [addJob]; [None] is an absent property. *)
Record Options := {
  opt_priority : option Z;
  opt_maxRetries : option Z;
  opt_delayMs : option Z;
  opt_idempotencyKey : option string
}.

Definition no_options : Options :=
  {| opt_priority := None; opt_maxRetries := None; opt_delayMs := None;
     opt_idempotencyKey := None |}.

(** The queue object.  [jobs] is the [Map] in insertion order; a job object
    is the entry under its id, which is exact as long as [generateJobId()]
    returns ids that are not in the map.  [awaiting] holds the calls of
    [processJob] suspended at [await handler(job)], each with the [startTime]
    it captured. *)
Record State := {
  jobs : list (string * Job);
  handlers : list string;        (* the types that have a handler *)
  running : list string;         (* the Set of running job ids *)
  awaiting : list (string * Z);
  config : QueueConfig
}.

Definition create (cfg : QueueConfig) : State :=
  {| jobs := []; handlers := []; running := []; awaiting := []; config := cfg |}.

Definition status_eqb (a b : Status) : bool :=
  match a, b with
  | Pending, Pending | Running, Running | Completed, Completed
  | Failed, Failed | Cancelled, Cancelled => true
  | _, _ => false
  end.

Definition key_eqb (a b : option string) : bool :=
  match a, b with
  | Some x, Some y => String.eqb x y
  | None, None => true
  | _, _ => false
  end.

Definition mem (x : string) (l : list string) : bool := existsb (String.eqb x) l.

(** ** Map and Set operations *)

(** [map.get(key)] *)
Fixpoint get (key : string) (m : list (string * Job)) : option Job :=
  match m with
  | [] => None
  | (k, j) :: m' => if String.eqb k key then Some j else get key m'
  end.

(** [map.set(key, job)]: an existing key keeps its place. *)
Fixpoint set (key : string) (job : Job) (m : list (string * Job)) : list (string * Job) :=
  match m with
  | [] => [(key, job)]
  | (k, j) :: m' => if String.eqb k key then (k, job) :: m' else (k, j) :: set key job m'
  end.

(** Assignments to the fields of the job object stored under [key]. *)
Fixpoint modify (key : string) (f : Job -> Job) (m : list (string * Job))
  : list (string * Job) :=
  match m with
  | [] => []
  | (k, j) :: m' => if String.eqb k key then (k, f j) :: m' else (k, j) :: modify key f m'
  end.

(** [Array.from(map.values())] *)
Definition values (m : list (string * Job)) : list Job := map snd m.

(** [set.add(x)] and [set.delete(x)] *)
Definition add (x : string) (l : list string) : list string :=
  if mem x l then l else l ++ [x].
Definition delete (x : string) (l : list string) : list string :=
  filter (fun y => negb (String.eqb x y)) l.

Definition set_jobs (s : State) (m : list (string * Job)) : State :=
  {| jobs := m; handlers := handlers s; running := running s;
     awaiting := awaiting s; config := config s |}.
Definition set_handlers (s : State) (h : list string) : State :=
  {| jobs := jobs s; handlers := h; running := running s;
     awaiting := awaiting s; config := config s |}.
Definition set_running (s : State) (r : list string) : State :=
  {| jobs := jobs s; handlers := handlers s; running := r;
     awaiting := awaiting s; config := config s |}.
Definition set_awaiting (s : State) (a : list (string * Z)) : State :=
  {| jobs := jobs s; handlers := handlers s; running := running s;
     awaiting := a; config := config s |}.

(** Field assignments on a job. *)
Definition with_status (st : Status) (j : Job) : Job :=
  {| id := id j; type := type j; data := data j; priority := priority j;
     maxRetries := maxRetries j; retryCount := retryCount j; createdAt := createdAt j;
     nextRunAt := nextRunAt j; status := st; result := result j; error := error j;
     idempotencyKey := idempotencyKey j |}.
Definition with_error (e : JobError) (j : Job) : Job :=
  {| id := id j; type := type j; data := data j; priority := priority j;
     maxRetries := maxRetries j; retryCount := retryCount j; createdAt := createdAt j;
     nextRunAt := nextRunAt j; status := status j; result := result j; error := Some e;
     idempotencyKey := idempotencyKey j |}.
Definition with_result (r : JobResult) (j : Job) : Job :=
  {| id := id j; type := type j; data := data j; priority := priority j;
     maxRetries := maxRetries j; retryCount := retryCount j; createdAt := createdAt j;
     nextRunAt := nextRunAt j; status := status j; result := Some r; error := error j;
     idempotencyKey := idempotencyKey j |}.
Definition with_retryCount (n : Z) (j : Job) : Job :=
  {| id := id j; type := type j; data := data j; priority := priority j;
     maxRetries := maxRetries j; retryCount := n; createdAt := createdAt j;
     nextRunAt := nextRunAt j; status := status j; result := result j; error := error j;
     idempotencyKey := idempotencyKey j |}.
Definition with_nextRunAt (t : Z) (j : Job) : Job :=
  {| id := id j; type := type j; data := data j; priority := priority j;
     maxRetries := maxRetries j; retryCount := retryCount j; createdAt := createdAt j;
     nextRunAt := t; status := status j; result := result j; error := error j;
     idempotencyKey := idempotencyKey j |}.

(** ** The public operations *)

(** [registerHandler(type, handler)] *)
Definition registerHandler (s : State) (t : string) : State :=
  set_handlers s (if mem t (handlers s) then handlers s else handlers s ++ [t]).

(** The job object [addJob] builds.  [nextRunAt] is the number handed to
    [new Date]: out of the range of dates it stands for an Invalid Date, for
    which the test of [processJobs] never holds ([due]). *)
Definition new_job (cfg : QueueConfig) (jobId t d : string) (options : Options) (now : Z)
  : Job :=
  {| id := jobId; type := t; data := d;
     priority := JS.or_default (opt_priority options) 5;
     maxRetries := JS.or_default (opt_maxRetries options) (config_maxRetries cfg);
     retryCount := 0;
     createdAt := now;
     nextRunAt := now + JS.or_default (opt_delayMs options) 0;
     status := Pending; result := None; error := None;
     idempotencyKey := opt_idempotencyKey options |}.

(** The test of the idempotency lookup:
    [j.idempotencyKey === options.idempotencyKey && j.status !== 'cancelled']. *)
Definition live_with_key (key : option string) (j : Job) : bool :=
  key_eqb (idempotencyKey j) key && negb (status_eqb (status j) Cancelled).

(** [addJob(type, data, options)] at time [now]; [jobId] is what
    [generateJobId()] returned.  The result is the new state and the id the
    promise fulfils with. *)
Definition addJob (s : State) (jobId t d : string) (options : Options) (now : Z)
  : State * string :=
  let job := new_job (config s) jobId t d options now in
  let existing :=
    if JS.truthy (opt_idempotencyKey options) then
      find (live_with_key (opt_idempotencyKey options)) (values (jobs s))
    else None in
  match existing with
  | Some existingJob => (s, id existingJob)
  | None => (set_jobs s (set jobId job (jobs s)), jobId)
  end.

(** [getJob(jobId)] *)
Definition getJob (s : State) (jobId : string) : option Job := get jobId (jobs s).

(** [cancelJob(jobId)] *)
Definition cancelJob (s : State) (jobId : string) : State * bool :=
  match get jobId (jobs s) with
  | Some job =>
      if status_eqb (status job) Pending
      then (set_jobs s (modify jobId (with_status Cancelled) (jobs s)), true)
      else (s, false)
  | None => (s, false)
  end.

(** ** Execution *)

(** The queue calls a handler. *)
Inductive Effect :=
| Invoke (jobId : string).

Inductive Settlement :=
| Fulfilled (v : string)
| Rejected (message : string).

Fixpoint startTime_of (jobId : string) (a : list (string * Z)) : option Z :=
  match a with
  | [] => None
  | (k, t) :: a' => if String.eqb k jobId then Some t else startTime_of jobId a'
  end.

Fixpoint drop_call (jobId : string) (a : list (string * Z)) : list (string * Z) :=
  match a with
  | [] => []
  | (k, t) :: a' => if String.eqb k jobId then a' else (k, t) :: drop_call jobId a'
  end.

(** The catch block of [processJob], as assignments to the job. *)
Definition on_failure (delay now : Z) (message : string) (j : Job) : Job :=
  let j1 := with_retryCount (retryCount j + 1) j in
  if retryCount j1 <? maxRetries j1 then
    with_error (AttemptFailed (retryCount j1) message)
      (with_nextRunAt (now + delay * retryCount j1) (with_status Pending j1))
  else
    with_error (MaxRetriesExceeded message) (with_status Failed j1).

(** The try block after the [await]. *)
Definition on_success (start now : Z) (v : string) (j : Job) : Job :=
  with_result {| value := v; processingTime := now - start; completedAt := now |}
    (with_status Completed j).

(** [processJob(job)] from its [await] on, for the call that captured
    [start]: the try or the catch block, then [finally]. *)
Definition settle_state (s : State) (jobId : string) (o : Settlement) (start now : Z)
  : State :=
  let s1 := set_awaiting s (drop_call jobId (awaiting s)) in
  let s2 :=
    match o with
    | Fulfilled v => set_jobs s1 (modify jobId (on_success start now v) (jobs s1))
    | Rejected message =>
        set_jobs s1
          (modify jobId (on_failure (retryDelayMs (config s1)) now message) (jobs s1))
    end in
  set_running s2 (delete jobId (running s2)).

(** What [handler(job)] throws before it returns, in one tick: the ids of
    the jobs whose handler does so, each with the message of the error. *)
Fixpoint thrown_by (jobId : string) (throwing : list (string * string)) : option string :=
  match throwing with
  | [] => None
  | (k, message) :: rest => if String.eqb k jobId then Some message else thrown_by jobId rest
  end.

(** [processJob(job)] at time [now]: up to its [await] when the handler
    returns, and to its end when there is no handler or the handler throws
    [thrown] before it returns, which the catch block takes as a failure. *)
Definition processJob (s : State) (job : Job) (now : Z) (thrown : option string)
  : State * list Effect :=
  if maxConcurrency (config s) <=? JS.len (running s) then (s, [])
  else
    let s1 := set_running s (add (id job) (running s)) in
    let s2 := set_jobs s1 (modify (id job) (with_status Running) (jobs s1)) in
    if mem (type job) (handlers s2) then
      match thrown with
      | None => (set_awaiting s2 (awaiting s2 ++ [(id job, now)]), [Invoke (id job)])
      | Some message =>
          let s3 := set_jobs s2
                      (modify (id job) (on_failure (retryDelayMs (config s2)) now message)
                         (jobs s2)) in
          (set_running s3 (delete (id job) (running s3)), [Invoke (id job)])
      end
    else
      let s3 := set_jobs s2
                  (modify (id job)
                     (fun j => with_error (NoHandler (type job)) (with_status Failed j))
                     (jobs s2)) in
      (set_running s3 (delete (id job) (running s3)), []).

(** The comparator of [processJobs]. *)
Definition by_priority_then_age (a b : Job) : Z :=
  if negb (priority a =? priority b) then priority b - priority a
  else createdAt a - createdAt b.

(** The [for] loop of [processJobs] over the sorted snapshot. *)
Fixpoint start_jobs (pendingJobs : list Job) (s : State) (now : Z)
  (throwing : list (string * string)) : State * list Effect :=
  match pendingJobs with
  | [] => (s, [])
  | job :: rest =>
      if maxConcurrency (config s) <=? JS.len (running s) then (s, [])
      else if mem (id job) (running s) then start_jobs rest s now throwing
      else
        let '(s1, out1) := processJob s job now (thrown_by (id job) throwing) in
        let '(s2, out2) := start_jobs rest s1 now throwing in
        (s2, out1 ++ out2)
  end.

(** The filter of [processJobs]:
    [job.status === 'pending' && job.nextRunAt <= new Date()]. *)
Definition due (now : Z) (job : Job) : bool :=
  status_eqb (status job) Pending && JS.date_le (nextRunAt job) now.

(** [processJobs()] at time [now]. *)
Definition processJobs (s : State) (now : Z) (throwing : list (string * string))
  : State * list Effect :=
  if maxConcurrency (config s) <=? JS.len (running s) then (s, [])
  else
    let pendingJobs :=
      JS.sort by_priority_then_age (filter (due now) (values (jobs s))) in
    start_jobs pendingJobs s now throwing.

(** The handler's promise of [jobId] settles at time [now]; nothing happens
    when no call is suspended on [jobId]. *)
Definition settle (s : State) (jobId : string) (o : Settlement) (now : Z) : State :=
  match startTime_of jobId (awaiting s) with
  | None => s
  | Some start => settle_state s jobId o start now
  end.

(** [cleanup()] at time [now]. *)
Definition cleanup (s : State) (now : Z) : State :=
  let cutoffDate := now - 24 * 60 * 60 * 1000 in
  set_jobs s
    (filter (fun '(_, job) =>
               negb ((status_eqb (status job) Completed || status_eqb (status job) Failed)
                     && (createdAt job <? cutoffDate)))
            (jobs s)).

(** ** The queue as a transition system *)

Inductive Event :=
| RegisterHandler (t : string)
| AddJob (jobId t d : string) (options : Options) (now : Z)
| CancelJob (jobId : string)
| Tick (now : Z) (throwing : list (string * string))
    (* the 1 s interval fires; the handlers called for the jobs in [throwing]
       throw before they return *)
| Settle (jobId : string) (o : Settlement) (now : Z) (* a handler's promise settles *)
| Cleanup (now : Z).                               (* the cleanup interval fires *)

Definition step (s : State) (e : Event) : State * list Effect :=
  match e with
  | RegisterHandler t => (registerHandler s t, [])
  | AddJob jobId t d options now => (fst (addJob s jobId t d options now), [])
  | CancelJob jobId => (fst (cancelJob s jobId), [])
  | Tick now throwing => processJobs s now throwing
  | Settle jobId o now => (settle s jobId o now, [])
  | Cleanup now => (cleanup s now, [])
  end.

Fixpoint run (s : State) (events : list Event) : State * list Effect :=
  match events with
  | [] => (s, [])
  | e :: events' =>
      let '(s1, out1) := step s e in
      let '(s2, out2) := run s1 events' in
      (s2, out1 ++ out2)
  end.

(** How often the handler of [jobId] was called. *)
Definition invocations (jobId : string) (out : list Effect) : nat :=
  List.length (filter (fun '(Invoke k) => String.eqb k jobId) out).

(** ** The bookkeeping of the queue *)

Definition keys {A : Type} (m : list (string * A)) : list string := map fst m.

(** A call of the handler that [retryCount] does not count: the one under
    way, or the one that succeeded. *)
Definition uncounted (j : Job) : Z :=
  match status j with
  | Running | Completed => 1
  | _ => 0
  end.

(** The number of times the handler of a job is called when it always fails. *)
Definition attempts_allowed (j : Job) : Z := Z.max 1 (maxRetries j).

(** The ids [generateJobId()] returned along the events. *)
Definition added_ids (events : list Event) : list string :=
  flat_map (fun e => match e with
                     | AddJob jobId _ _ _ _ => [jobId]
                     | RegisterHandler _ | CancelJob _ | Tick _ _
                     | Settle _ _ _ | Cleanup _ => []
                     end) events.

(** What holds of the job stored under [k] after the handlers were called
    as [out] records. *)
Definition job_ok (s : State) (out : list Effect) (k : string) (j : Job) : Prop :=
  id j = k /\
  (status j = Running <-> In k (keys (awaiting s))) /\
  Z.of_nat (invocations k out) = retryCount j + uncounted j /\
  0 <= retryCount j /\
  match status j with
  | Failed =>
      (exists t, error j = Some (NoHandler t)) \/
      (retryCount j = attempts_allowed j /\
       exists message, error j = Some (MaxRetriesExceeded message))
  | _ => retryCount j < attempts_allowed j
  end.

(** The queue after a run in which [generateJobId()] returned [added]. *)
Definition well_formed (s : State) (out : list Effect) (added : list string) : Prop :=
  NoDup (keys (jobs s)) /\
  NoDup (keys (awaiting s)) /\
  running s = keys (awaiting s) /\
  (forall k, In k (keys (awaiting s)) -> In k (keys (jobs s))) /\
  (forall k, In k (keys (jobs s)) -> In k added) /\
  (forall k, In (Invoke k) out -> In k added) /\
  (forall k j, In (k, j) (jobs s) -> job_ok s out k j) /\
  (forall key j1 j2,
      key <> EmptyString ->
      In j1 (values (jobs s)) -> In j2 (values (jobs s)) ->
      live_with_key (Some key) j1 = true -> live_with_key (Some key) j2 = true ->
      j1 = j2).

(** The ids an event brings in. *)
Definition event_ids (e : Event) : list string :=
  match e with
  | AddJob jobId _ _ _ _ => [jobId]
  | _ => []
  end.

(** ** A job alone in the queue whose handler always fails *)


(** One failing attempt: the tick at [start] finds the job and calls its
    handler, which rejects with [message] at [stop], or throws [message]
    before it returns. *)
Inductive Attempt :=
| Rejects (start stop : Z) (message : string)
| Throws (start : Z) (message : string).




Definition attempt_events (k : string) (a : Attempt) : list Event :=
  match a with
  | Rejects start stop message => [Tick start []; Settle k (Rejected message) stop]
  | Throws start message => [Tick start [(k, message)]]
  end.

Definition attempts_events (k : string) (l : list Attempt) : list Event :=
  flat_map (attempt_events k) l.




(** A job is retried as often as its handler is called again. *)
Definition retries (k : string) (out : list Effect) : nat := pred (invocations k out).


(** ** Concrete queues *)

Definition default_queue_config : QueueConfig :=
  {| maxConcurrency := 5; retryDelayMs := 60000; config_maxRetries := 3;
     cleanupIntervalMs := 3600000; enableMonitoring := true |}.

(** The queue of a process started with [JOB_QUEUE_MAX_RETRIES=0]. *)
Definition no_retries_config : QueueConfig :=
  {| maxConcurrency := 5; retryDelayMs := 60000; config_maxRetries := 0;
     cleanupIntervalMs := 3600000; enableMonitoring := true |}.

Definition with_key (key : string) : Options :=
  {| opt_priority := None; opt_maxRetries := None; opt_delayMs := None;
     opt_idempotencyKey := Some key |}.

Definition with_maxRetries (n : Z) : Options :=
  {| opt_priority := None; opt_maxRetries := Some n; opt_delayMs := None;
     opt_idempotencyKey := None |}.

Definition zero_options : Options :=
  {| opt_priority := Some 0; opt_maxRetries := Some 0; opt_delayMs := None;
     opt_idempotencyKey := None |}.



(** A job asked for with [maxRetries: 1] fails once; two more ticks follow. *)
Definition one_failure : list Event :=
  [RegisterHandler "email"; AddJob "job_1" "email" "hello" (with_maxRetries 1) 0] ++
  attempts_events "job_1" [Rejects 1000 1500 "boom"] ++
  [Tick 400000 []; Tick 500000 []].

(** A job added under a key runs to completion. *)
Definition completed_under_key : list Event :=
  [RegisterHandler "email"; AddJob "job_1" "email" "hello" (with_key "order-17") 0;
   Tick 1000 []; Settle "job_1" (Fulfilled "sent") 1200].

(** ** Statistics *)

(** What [getStats()] returns. *)
Record Stats := {
  totalJobs : Z;
  pendingJobs : Z;
  runningJobs : Z;
  completedJobs : Z;
  failedJobs : Z;
  avgProcessingTime : Q
}.




(** ** Vocabulary for the scheduling of a tick *)

(** [a] is started no later than [b]: higher priority first, and within a
    priority the older job first. *)
Definition job_order (a b : Job) : Prop :=
  priority b < priority a \/ (priority a = priority b /\ createdAt a <= createdAt b).

(** The due jobs that have a handler, in the order in which the loop of
    [processJobs] meets them. *)
Definition ready (s : State) (now : Z) : list Job :=
  filter (fun job => mem (type job) (handlers s))
         (JS.sort by_priority_then_age (filter (due now) (values (jobs s)))).

(** The number of handlers the queue may still start. *)
Definition free_slots (s : State) : nat :=
  Z.to_nat (maxConcurrency (config s) - JS.len (running s)).

(** The handler called for [job] returns: it does not throw first. *)
Definition returns (throwing : list (string * string)) (job : Job) : bool :=
  match thrown_by (id job) throwing with
  | None => true
  | Some _ => false
  end.

(** The ready jobs whose handler a tick calls, with [slots] slots free: a
    handler that returns keeps its slot, one that throws frees it at once. *)
Fixpoint called (slots : nat) (throwing : list (string * string)) (ready : list Job)
  : list Job :=
  match ready with
  | [] => []
  | job :: rest =>
      match slots with
      | O => []
      | S n => job :: called (if returns throwing job then n else slots) throwing rest
      end
  end.

(** The calls of handlers that returned. *)
Definition returned (throwing : list (string * string)) (out : list Effect) : list Effect :=
  filter (fun '(Invoke k) => match thrown_by k throwing with
                             | None => true
                             | Some _ => false
                             end) out.

(** A job in one of the three states it never leaves. *)
Definition finished (j : Job) : Prop :=
  status j = Completed \/ status j = Failed \/ status j = Cancelled.

(** [cleanup] at time [now] removes the job: it is completed or failed and
    was created more than 24 hours before. *)
Definition expendable (now : Z) (j : Job) : Prop :=
  (status j = Completed \/ status j = Failed) /\ createdAt j < now - 86400000.

(** The job stored under [k], if any, is done. *)
Definition at_rest (s : State) (k : string) : Prop :=
  match getJob s k with
  | Some j => finished j
  | None => True
  end.

(** ** Vocabulary for failures *)



(** ** A busy queue *)

(** Two workers, four mail jobs of which one is urgent and one delayed, a job
    of a type without handler; one job is cancelled, one fails for good, one
    succeeds, and a cleanup comes two days later. *)
Definition small_queue_config : QueueConfig :=
  {| maxConcurrency := 2; retryDelayMs := 1000; config_maxRetries := 1;
     cleanupIntervalMs := 3600000; enableMonitoring := true |}.

Definition urgent : Options :=
  {| opt_priority := Some 9; opt_maxRetries := None; opt_delayMs := None;
     opt_idempotencyKey := None |}.

Definition delayed : Options :=
  {| opt_priority := None; opt_maxRetries := None; opt_delayMs := Some 60000;
     opt_idempotencyKey := None |}.

Definition busy_start : list Event :=
  [RegisterHandler "mail";
   AddJob "a" "mail" "one" no_options 0;
   AddJob "b" "mail" "two" urgent 1;
   AddJob "c" "mail" "three" no_options 2;
   AddJob "d" "fax" "four" no_options 3;
   AddJob "e" "mail" "five" delayed 4;
   CancelJob "c"].

Definition busy_rest : list Event :=
  [Tick 1000 [];
   Settle "b" (Rejected "refused") 1400;
   Settle "a" (Fulfilled "sent") 1500;
   CancelJob "a";
   Tick 2000 []; Tick 70000 [];
   Cleanup 200000000; Tick 200001000 []].

End JobQueue.


(* ===================================================================== *)
(** * The connection-pool middleware                                      *)
(* ===================================================================== *)

Module ConnectionPoolMiddleware.

(** [connectionPoolMiddleware(maxConnections)] returns a middleware that
    closes over a counter, a queue and four statistics.  It is entered when
    the middleware is called on a request, when a response it has passed on
    emits ['finish'] or ['close'] (both listeners are [releaseConnection]),
    and when the 30 s timer of a queued request fires.  The two closures
    called [releaseConnection] have the same body. *)

Record QueueItem := {
  res : nat;            (* the response object, numbered by arrival *)
  timestamp : Z
}.

Record Stats := {
  totalRequests : Z;
  queuedRequests : Z;
  timeouts : Z;
  peakActiveConnections : Z
}.

Record State := {
  maxConnections : Z;
  activeConnections : Z;
  connectionQueue : list QueueItem;
  connectionStats : Stats;
  listening : list nat;     (* the responses that carry the two listeners *)
  headersSent : list nat;   (* the responses whose headersSent is true *)
  nextRes : nat             (* number of requests seen so far *)
}.

(** The calls the middleware makes, in program order. *)
Inductive Action :=
| Next (r : nat)                                 (* next() for request r *)
| Callback (r : nat)                             (* queuedItem.callback() *)
| Release (r : nat)                              (* releaseConnection(), a listener of r *)
| Respond (r : nat) (status : Z) (error : string)  (* res.status(..).json(..) *)
| LogQueueGrowing.                               (* log('Connection pool queue growing') *)

Definition create (maxConnections : Z) : State :=
  {| maxConnections := maxConnections;
     activeConnections := 0;
     connectionQueue := [];
     connectionStats := {| totalRequests := 0; queuedRequests := 0; timeouts := 0;
                           peakActiveConnections := 0 |};
     listening := [];
     headersSent := [];
     nextRes := 0 |}.

(** ** Assignments *)

Definition set_active (s : State) (n : Z) : State :=
  {| maxConnections := maxConnections s; activeConnections := n;
     connectionQueue := connectionQueue s; connectionStats := connectionStats s;
     listening := listening s; headersSent := headersSent s; nextRes := nextRes s |}.

Definition set_queue (s : State) (q : list QueueItem) : State :=
  {| maxConnections := maxConnections s; activeConnections := activeConnections s;
     connectionQueue := q; connectionStats := connectionStats s;
     listening := listening s; headersSent := headersSent s; nextRes := nextRes s |}.

Definition set_stats (s : State) (st : Stats) : State :=
  {| maxConnections := maxConnections s; activeConnections := activeConnections s;
     connectionQueue := connectionQueue s; connectionStats := st;
     listening := listening s; headersSent := headersSent s; nextRes := nextRes s |}.

Definition set_listening (s : State) (l : list nat) : State :=
  {| maxConnections := maxConnections s; activeConnections := activeConnections s;
     connectionQueue := connectionQueue s; connectionStats := connectionStats s;
     listening := l; headersSent := headersSent s; nextRes := nextRes s |}.

Definition set_headersSent (s : State) (l : list nat) : State :=
  {| maxConnections := maxConnections s; activeConnections := activeConnections s;
     connectionQueue := connectionQueue s; connectionStats := connectionStats s;
     listening := listening s; headersSent := l; nextRes := nextRes s |}.

Definition set_nextRes (s : State) (n : nat) : State :=
  {| maxConnections := maxConnections s; activeConnections := activeConnections s;
     connectionQueue := connectionQueue s; connectionStats := connectionStats s;
     listening := listening s; headersSent := headersSent s; nextRes := n |}.

Definition add_totalRequests (st : Stats) (d : Z) : Stats :=
  {| totalRequests := totalRequests st + d; queuedRequests := queuedRequests st;
     timeouts := timeouts st; peakActiveConnections := peakActiveConnections st |}.

Definition add_queuedRequests (st : Stats) (d : Z) : Stats :=
  {| totalRequests := totalRequests st; queuedRequests := queuedRequests st + d;
     timeouts := timeouts st; peakActiveConnections := peakActiveConnections st |}.

Definition add_timeouts (st : Stats) (d : Z) : Stats :=
  {| totalRequests := totalRequests st; queuedRequests := queuedRequests st;
     timeouts := timeouts st + d; peakActiveConnections := peakActiveConnections st |}.

Definition set_peak (st : Stats) (n : Z) : Stats :=
  {| totalRequests := totalRequests st; queuedRequests := queuedRequests st;
     timeouts := timeouts st; peakActiveConnections := n |}.

(** [activeConnections++] followed by
    [peakActiveConnections = Math.max(peakActiveConnections, activeConnections)]. *)
Definition take_connection (s : State) : State :=
  let s1 := set_active s (activeConnections s + 1) in
  set_stats s1
    (set_peak (connectionStats s1)
       (Z.max (peakActiveConnections (connectionStats s1)) (activeConnections s1))).

(** [res.on('finish', releaseConnection); res.on('close', releaseConnection);
    next()] *)
Definition pass_on (s : State) (r : nat) : State * list Action :=
  (set_listening s (listening s ++ [r]), [Next r]).

Definition has_sent (s : State) (r : nat) : bool :=
  existsb (Nat.eqb r) (headersSent s).

(** [if (!res.headersSent) res.status(503).json({error})] *)
Definition answer_unless_sent (s : State) (r : nat) (error : string)
  : State * list Action :=
  if has_sent s r then (s, [])
  else (set_headersSent s (r :: headersSent s), [Respond r 503 error]).

(** [queueItem.callback()]: count the connection, register the listeners,
    call [next()]. *)
Definition callback (s : State) (r : nat) : State * list Action :=
  let '(s1, out) := pass_on (take_connection s) r in
  (s1, Callback r :: out).

(** [releaseConnection()] at time [now]. *)
Definition releaseConnection (s : State) (now : Z) : State * list Action :=
  let s1 := set_active s (activeConnections s - 1) in
  match connectionQueue s1 with
  | [] => (s1, [])
  | queuedItem :: rest =>
      let s2 := set_queue s1 rest in
      let s3 := set_stats s2 (add_queuedRequests (connectionStats s2) (-1)) in
      if now - timestamp queuedItem <? 30000 then
        callback (take_connection s3) (res queuedItem)
      else
        let s4 := set_stats s3 (add_timeouts (connectionStats s3) 1) in
        answer_unless_sent s4 (res queuedItem) "QUEUED_REQUEST_TIMEOUT"
  end.

(** [connectionQueue.findIndex(item => item === queueItem)] followed by
    [splice(index, 1)]. *)
Fixpoint remove_item (r : nat) (q : list QueueItem) : option (list QueueItem) :=
  match q with
  | [] => None
  | x :: q' =>
      if Nat.eqb (res x) r then Some q'
      else match remove_item r q' with
           | Some q'' => Some (x :: q'')
           | None => None
           end
  end.

(** The callback of the [setTimeout] armed when [r] was queued. *)
Definition queue_timeout (s : State) (r : nat) : State * list Action :=
  match remove_item r (connectionQueue s) with
  | None => (s, [])
  | Some q' =>
      let s1 := set_queue s q' in
      let s2 := set_stats s1 (add_timeouts (add_queuedRequests (connectionStats s1) (-1)) 1) in
      answer_unless_sent s2 r "CONNECTION_POOL_TIMEOUT"
  end.

(** The middleware itself, called on a new request at time [now]. *)
Definition middleware (s : State) (now : Z) : State * list Action :=
  let r := nextRes s in
  let s0 := set_nextRes s (S r) in
  let s1 := set_stats s0 (add_totalRequests (connectionStats s0) 1) in
  if activeConnections s1 <? maxConnections s1 then
    pass_on (take_connection s1) r
  else
    let queueItem := {| res := r; timestamp := now |} in
    let s2 := set_queue s1 (connectionQueue s1 ++ [queueItem]) in
    let s3 := set_stats s2 (add_queuedRequests (connectionStats s2) 1) in
    (s3, if Z.rem (queuedRequests (connectionStats s3)) 10 =? 0
         then [LogQueueGrowing] else []).

(** The listeners of [r], if this middleware has registered them. *)
Definition listener (s : State) (r : nat) (now : Z) : State * list Action :=
  if existsb (Nat.eqb r) (listening s) then
    let '(s1, out) := releaseConnection s now in (s1, Release r :: out)
  else (s, []).

(** ** The middleware as a transition system *)

Inductive Event :=
| Arrive (now : Z)             (* the middleware is called on a new request *)
| Finish (r : nat) (now : Z)   (* the response r emits 'finish' *)
| Close (r : nat) (now : Z)    (* the response r emits 'close' *)
| Timer (r : nat).             (* the timer armed when r was queued fires *)

(** A response that emits ['finish'] has sent its headers. *)
Definition step (s : State) (e : Event) : State * list Action :=
  match e with
  | Arrive now => middleware s now
  | Finish r now => listener (set_headersSent s (r :: headersSent s)) r now
  | Close r now => listener s r now
  | Timer r => queue_timeout s r
  end.

Fixpoint run (s : State) (events : list Event) : State * list Action :=
  match events with
  | [] => (s, [])
  | e :: events' =>
      let '(s1, out1) := step s e in
      let '(s2, out2) := run s1 events' in
      (s2, out1 ++ out2)
  end.

(** ** Reading a trace *)

(** The requests handed to their handlers, in order. *)
Fixpoint passed (out : list Action) : list nat :=
  match out with
  | [] => []
  | Next r :: out' => r :: passed out'
  | _ :: out' => passed out'
  end.

(** The requests the middleware answered itself, in order. *)
Fixpoint refused (out : list Action) : list nat :=
  match out with
  | [] => []
  | Respond r _ _ :: out' => r :: refused out'
  | _ :: out' => refused out'
  end.

(** How often a queued request was resumed and how often a listener ran. *)
Fixpoint callbacks (out : list Action) : Z :=
  match out with
  | [] => 0
  | Callback _ :: out' => 1 + callbacks out'
  | _ :: out' => callbacks out'
  end.

Fixpoint releases (out : list Action) : Z :=
  match out with
  | [] => 0
  | Release _ :: out' => 1 + releases out'
  | _ :: out' => releases out'
  end.

Definition released (r : nat) (out : list Action) : bool :=
  existsb (fun a => match a with Release r' => Nat.eqb r r' | _ => false end) out.

(** The requests handed to their handlers whose response has emitted
    neither ['finish'] nor ['close']. *)
Definition in_flight (out : list Action) : list nat :=
  filter (fun r => negb (released r out)) (passed out).

(** What the middleware keeps true of its queue and its listeners. *)
Definition tidy (s : State) (out : list Action) : Prop :=
  NoDup (map res (connectionQueue s)) /\
  (forall r, In r (map res (connectionQueue s)) ->
     (r < nextRes s)%nat /\ ~ In r (listening s)) /\
  listening s = passed out /\
  NoDup (listening s) /\
  (forall r, In r (listening s) -> (r < nextRes s)%nat) /\
  NoDup (refused out) /\
  (forall r, In r (refused out) ->
     (r < nextRes s)%nat /\ ~ In r (map res (connectionQueue s)) /\ ~ In r (listening s)).

(** ** Runs *)

(** One request whose response emits both events, then [n] arrivals. *)
Definition drain_then_fill (n : nat) : list Event :=
  [Arrive 0; Finish 0 10; Close 0 11] ++ repeat (Arrive 20) n.

(** A pool of one: a request is passed on, two queue up, the first response
    ends, a third arrival queues, a timer fires. *)
Definition pool_of_one_events : list Event :=
  [Arrive 0; Arrive 1; Arrive 2; Finish 0 100; Close 0 101; Arrive 200;
   Timer 2; Timer 3; Finish 1 40000; Close 1 40001].

End ConnectionPoolMiddleware.
(* ===================================================================== *)
(** * Properties of [transaction]                                         *)
(* ===================================================================== *)

Module PoolProofs.
Import ConnectionPool.

Ltac run_transaction :=
  unfold transaction, getConnection, pool_connect, client_query, run_callback,
    client_release, try_finally, try_catch, bind, emit, incr_totalErrors, lift,
    ret, throw; simpl.

(** X1.  When [pool.connect()] rejects, [getConnection] counts and logs the error
    and [transaction] rejects with it; no statement is run and nothing is
    released. *)
Lemma transaction_without_connection {T : Type} (w : World T) (p : Pool) (e : string) :
  connect_result w = Thrown e ->
  transaction w p =
    (Thrown e,
     {| totalErrors := totalErrors p + 1;
        trace := trace p ++ [Connect; Log "Failed to acquire database connection"] |}).
Proof.
  intros H. run_transaction. rewrite H. simpl.
  now rewrite <- app_assoc.
Qed.

(** C1 as the code has it.  Once the connection is acquired, [transaction]
    calls [release] exactly once, as its last action, on every exit path.
    When the [try] block exits with an error (BEGIN, the callback or COMMIT
    rejects), ROLLBACK is run before the release; the caller then gets that
    error if ROLLBACK fulfils, and the error of ROLLBACK if ROLLBACK itself
    rejects.  When nothing rejects, the caller gets the callback's value and
    no ROLLBACK is run. *)
Theorem transaction_release_and_rollback {T : Type} (w : World T) (p : Pool) :
  connect_result w = Returned tt ->
  exists t,
    trace (snd (transaction w p)) = trace p ++ Connect :: t ++ [Release] /\
    releases (Connect :: t ++ [Release]) = 1%nat /\
    fst (transaction w p) = expected_outcome w /\
    match body_error w with
    | Some e =>
        before (Run ROLLBACK) Release (Connect :: t ++ [Release]) /\
        (query_result w ROLLBACK = Returned tt -> fst (transaction w p) = Thrown e)
    | None => ~ In (Run ROLLBACK) t
    end.
Proof.
  intros Hc. unfold expected_outcome, body_error. run_transaction. rewrite Hc. simpl.
  destruct (query_result w BEGIN) as [[]|eb] eqn:Hb; simpl.
  - destruct (callback_result w) as [r|ef] eqn:Hf; simpl.
    + destruct (query_result w COMMIT) as [[]|ec] eqn:Hk; simpl.
      * exists [Run BEGIN; Callback; Run COMMIT]. simpl.
        repeat rewrite <- app_assoc. simpl. repeat split; try reflexivity.
        intros [H|[H|[H|[]]]]; discriminate H.
      * destruct (query_result w ROLLBACK) as [[]|er] eqn:Hr; simpl.
        -- exists [Run BEGIN; Callback; Run COMMIT; Run ROLLBACK;
                   Log "Database transaction rolled back"]. simpl.
           repeat rewrite <- app_assoc. simpl. repeat split; try reflexivity.
           exists [Connect; Run BEGIN; Callback; Run COMMIT],
             [Log "Database transaction rolled back"], []. reflexivity.
        -- exists [Run BEGIN; Callback; Run COMMIT; Run ROLLBACK]. simpl.
           repeat rewrite <- app_assoc. simpl. repeat split; try reflexivity.
           ++ exists [Connect; Run BEGIN; Callback; Run COMMIT], [], []. reflexivity.
           ++ intros H; discriminate H.
    + destruct (query_result w ROLLBACK) as [[]|er] eqn:Hr; simpl.
      * exists [Run BEGIN; Callback; Run ROLLBACK;
                Log "Database transaction rolled back"]. simpl.
        repeat rewrite <- app_assoc. simpl. repeat split; try reflexivity.
        exists [Connect; Run BEGIN; Callback],
          [Log "Database transaction rolled back"], []. reflexivity.
      * exists [Run BEGIN; Callback; Run ROLLBACK]. simpl.
        repeat rewrite <- app_assoc. simpl. repeat split; try reflexivity.
        -- exists [Connect; Run BEGIN; Callback], [], []. reflexivity.
        -- intros H; discriminate H.
  - destruct (query_result w ROLLBACK) as [[]|er] eqn:Hr; simpl.
    + exists [Run BEGIN; Run ROLLBACK; Log "Database transaction rolled back"]. simpl.
      repeat rewrite <- app_assoc. simpl. repeat split; try reflexivity.
      exists [Connect; Run BEGIN], [Log "Database transaction rolled back"], []. reflexivity.
    + exists [Run BEGIN; Run ROLLBACK]. simpl.
      repeat rewrite <- app_assoc. simpl. repeat split; try reflexivity.
      * exists [Connect; Run BEGIN], [], []. reflexivity.
      * intros H; discriminate H.
Qed.

Lemma transaction_release_and_rollback_witness :
  exists t,
    trace (snd (transaction broken_world fresh_pool)) =
      trace fresh_pool ++ Connect :: t ++ [Release] /\
    releases (Connect :: t ++ [Release]) = 1%nat /\
    fst (transaction broken_world fresh_pool) = expected_outcome broken_world /\
    match body_error broken_world with
    | Some e =>
        before (Run ROLLBACK) Release (Connect :: t ++ [Release]) /\
        (query_result broken_world ROLLBACK = Returned tt ->
         fst (transaction broken_world fresh_pool) = Thrown e)
    | None => ~ In (Run ROLLBACK) t
    end.
Proof.
  apply (transaction_release_and_rollback broken_world fresh_pool). reflexivity.
Defined.

(** C1 as stated fails where it promises that the callback's error reaches
    the caller: when ROLLBACK rejects too, the caller gets the error of
    ROLLBACK and the callback's error is lost. *)
Lemma transaction_rethrow_counterexample :
  ~ (forall (w : World unit) (e : string),
        connect_result w = Returned tt ->
        query_result w BEGIN = Returned tt ->
        callback_result w = Thrown e ->
        fst (transaction w fresh_pool) = Thrown e).
Proof.
  intros H.
  specialize (H broken_world "duplicate key" eq_refl eq_refl eq_refl).
  vm_compute in H. discriminate H.
Qed.

(** ** What [transaction] counts *)

Lemma transaction_without_connection_witness :
  transaction offline_world fresh_pool =
    (Thrown "timeout exceeded when trying to connect",
     {| totalErrors := totalErrors fresh_pool + 1;
        trace := trace fresh_pool
                 ++ [Connect; Log "Failed to acquire database connection"] |}).
Proof.
  apply (transaction_without_connection offline_world fresh_pool
           "timeout exceeded when trying to connect").
  reflexivity.
Defined.

(** X2.  Once the connection is there, [transaction] counts and logs a failure
    only after ROLLBACK has fulfilled: a transaction that succeeds counts
    nothing, a failed one whose ROLLBACK fulfils counts one error and logs
    the rollback, and a failed one whose ROLLBACK rejects counts and logs
    nothing. *)
Theorem transaction_counts_after_rollback {T : Type} (w : World T) (p : Pool) :
  connect_result w = Returned tt ->
  totalErrors (snd (transaction w p))
  = totalErrors p + (if rolled_back w then 1 else 0) /\
  exists t,
    trace (snd (transaction w p)) = trace p ++ t /\
    (In (Log "Database transaction rolled back") t <-> rolled_back w = true) /\
    ~ In (Log "Failed to acquire database connection") t.
Proof.
  intros Hc. unfold rolled_back, body_error. run_transaction. rewrite Hc. simpl.
  destruct (query_result w BEGIN) as [[]|eb]; simpl;
    [destruct (callback_result w) as [r|ef]; simpl;
     [destruct (query_result w COMMIT) as [[]|ec]; simpl|]|];
    try (destruct (query_result w ROLLBACK) as [[]|er]; simpl);
    (split; [lia|]);
    repeat rewrite <- app_assoc; simpl;
    (eexists; split; [reflexivity|]);
    (split; [split; [intros H|intros H; try discriminate H]|intros H]);
    simpl in *; intuition (try discriminate; auto).
Qed.

Lemma transaction_counts_after_rollback_witness :
  totalErrors (snd (transaction broken_world fresh_pool))
  = totalErrors fresh_pool + (if rolled_back broken_world then 1 else 0) /\
  exists t,
    trace (snd (transaction broken_world fresh_pool)) = trace fresh_pool ++ t /\
    (In (Log "Database transaction rolled back") t <-> rolled_back broken_world = true) /\
    ~ In (Log "Failed to acquire database connection") t.
Proof.
  apply (transaction_counts_after_rollback broken_world fresh_pool). reflexivity.
Defined.

End PoolProofs.

(* ===================================================================== *)
(** * Properties of the JavaScript helpers                                *)
(* ===================================================================== *)

Module JSProofs.

Lemma insert_by_perm {A : Type} (cmp : A -> A -> Z) (x : A) (l : list A) :
  Permutation (JS.insert_by cmp x l) (x :: l).
Proof.
  induction l as [|y l IH]; simpl.
  - apply Permutation_refl.
  - destruct (cmp x y <=? 0).
    + apply Permutation_refl.
    + apply perm_trans with (y :: x :: l).
      * now apply perm_skip.
      * apply perm_swap.
Qed.

(** Sorting rearranges and neither drops nor invents elements. *)
Lemma sort_perm {A : Type} (cmp : A -> A -> Z) (l : list A) :
  Permutation (JS.sort cmp l) l.
Proof.
  unfold JS.sort. induction l as [|x l IH]; simpl.
  - apply perm_nil.
  - apply perm_trans with (x :: fold_right (JS.insert_by cmp) [] l).
    + apply insert_by_perm.
    + now apply perm_skip.
Qed.

Lemma sort_push {A : Type} (cmp : A -> A -> Z) (l : list A) (x : A) :
  JS.sort cmp (l ++ [x]) = fold_right (JS.insert_by cmp) [x] l.
Proof. unfold JS.sort. now rewrite fold_right_app. Qed.

Lemma in_insert_by {A : Type} (cmp : A -> A -> Z) (x y : A) (l : list A) :
  In y (JS.insert_by cmp x l) <-> y = x \/ In y l.
Proof.
  split; intros H.
  - apply (Permutation_in _ (insert_by_perm cmp x l)) in H.
    destruct H as [H|H]; auto.
  - apply (Permutation_in _ (Permutation_sym (insert_by_perm cmp x l))).
    destruct H as [H|H]; [left; auto|right; auto].
Qed.

(** ** Sorting with a comparator that decides an order *)

Section Ascending.
Context {A : Type} (cmp : A -> A -> Z) (le : A -> A -> Prop).
Hypothesis le_of_cmp : forall x y, cmp x y <= 0 -> le x y.
Hypothesis le_of_not_cmp : forall x y, 0 < cmp x y -> le y x.
Hypothesis le_trans : forall x y z, le x y -> le y z -> le x z.

Lemma insert_by_ascending (x : A) (l : list A) :
  StronglySorted le l -> StronglySorted le (JS.insert_by cmp x l).
Proof.
  induction 1 as [|y l Hs IH Hall]; simpl.
  - constructor; constructor.
  - destruct (cmp x y <=? 0) eqn:E.
    + apply Z.leb_le, le_of_cmp in E.
      constructor; [constructor; assumption|].
      constructor; [exact E|].
      apply Forall_forall. intros z Hz.
      apply (le_trans x y z E). revert z Hz. now apply Forall_forall.
    + apply Z.leb_gt in E. constructor; [exact IH|].
      apply Forall_forall. intros z Hz. apply in_insert_by in Hz as [->|Hz].
      * apply le_of_not_cmp. exact E.
      * revert z Hz. now apply Forall_forall.
Qed.

Lemma sort_ascending (l : list A) : StronglySorted le (JS.sort cmp l).
Proof.
  unfold JS.sort. induction l as [|x l IH]; simpl.
  - constructor.
  - now apply insert_by_ascending.
Qed.

End Ascending.

(** [sort((a, b) => a - b)] puts numbers in ascending order. *)
Lemma sort_numbers (l : list Z) : StronglySorted Z.le (JS.sort (fun a b => a - b) l).
Proof. apply sort_ascending; intros; lia. Qed.

Lemma count_perm (f : Z -> bool) (l l' : list Z) :
  Permutation l l' -> List.length (filter f l) = List.length (filter f l').
Proof.
  induction 1 as [|x l l' _ IH|x y l|l l' l'' _ IH1 _ IH2]; simpl.
  - reflexivity.
  - destruct (f x); simpl; now rewrite IH.
  - destruct (f x), (f y); reflexivity.
  - now rewrite IH1.
Qed.

Lemma len_app_one {A : Type} (l : list A) (x : A) : JS.len (l ++ [x]) = JS.len l + 1.
Proof. unfold JS.len. rewrite length_app. simpl. lia. Qed.

Lemma len_sort {A : Type} (cmp : A -> A -> Z) (l : list A) : JS.len (JS.sort cmp l) = JS.len l.
Proof. unfold JS.len. now rewrite (Permutation_length (sort_perm cmp l)). Qed.

Lemma sum_shift (l : list Z) (a : Z) : fold_left Z.add l a = a + JS.sum l.
Proof.
  unfold JS.sum. revert a. induction l as [|x l IH]; intros a; simpl; [lia|].
  rewrite (IH (a + x)), (IH x). lia.
Qed.

Lemma sum_cons (x : Z) (l : list Z) : JS.sum (x :: l) = x + JS.sum l.
Proof. unfold JS.sum at 1. simpl. apply sum_shift. Qed.

Lemma sum_of_flags (l : list Z) :
  Forall (fun x => x = 0 \/ x = 1) l -> 0 <= JS.sum l <= JS.len l.
Proof.
  induction 1 as [|x l Hx _ IH].
  - unfold JS.sum, JS.len. simpl. lia.
  - rewrite sum_cons. unfold JS.len in *. simpl List.length. lia.
Qed.

Lemma sum_nonneg (l : list Z) : Forall (fun d => 0 <= d) l -> 0 <= JS.sum l.
Proof.
  induction 1 as [|x l Hx _ IH].
  - unfold JS.sum. simpl. lia.
  - rewrite sum_cons. lia.
Qed.


End JSProofs.

(* ===================================================================== *)
(** * Properties of the load balancer                                     *)
(* ===================================================================== *)

Module LoadBalancerProofs.
Import LoadBalancer.

(** ** Priorities *)

(** Two prefixes of one string: the shorter is a prefix of the longer. *)
Lemma prefix_of_prefix (a b p : string) :
  String.prefix a p = true -> String.prefix b p = true ->
  (String.length a <= String.length b)%nat -> String.prefix a b = true.
Proof.
  revert b p. induction a as [|c a IH]; intros [|c' b] [|d p] Ha Hb Hl;
    simpl in *; try reflexivity; try discriminate; try lia.
  destruct (Ascii.ascii_dec c d) as [Hcd|]; [|discriminate].
  destruct (Ascii.ascii_dec c' d) as [Hc'd|]; [|discriminate].
  subst. destruct (Ascii.ascii_dec d d); [|congruence].
  apply (IH b p); auto. lia.
Qed.

(** A match that no later key extends stays the best match. *)
Lemma best_match_keeps (path k : string) (v : Z) (rest : PriorityLevels) :
  startsWith path k = true ->
  no_later_extension k rest = true ->
  best_match path rest (Some (k, v)) = Some (k, v).
Proof.
  intros Hk. induction rest as [|[k2 v2] rest IH]; intros H; simpl in *.
  - reflexivity.
  - apply andb_true_iff in H as [H2 Hrest].
    destruct (String.eqb k2 "default") eqn:Hd; [now apply IH|].
    simpl in H2.
    destruct (startsWith path k2) eqn:Hm; simpl; [|now apply IH].
    destruct (String.length k <? String.length k2)%nat eqn:Hlt; [|now apply IH].
    exfalso. apply Nat.ltb_lt in Hlt.
    assert (String.prefix k k2 = true) as Hp
      by (apply (prefix_of_prefix k k2 path); auto; lia).
    rewrite Hp in H2. discriminate H2.
Qed.

Lemma best_match_first (path : string) (levels : PriorityLevels) :
  well_ordered levels = true ->
  option_map snd (best_match path levels None) = first_match path levels.
Proof.
  induction levels as [|[k v] rest IH]; intros H; simpl in *.
  - reflexivity.
  - apply andb_true_iff in H as [Hk Hrest].
    destruct (String.eqb k "default") eqn:Hd; [now apply IH|].
    simpl in Hk.
    destruct (startsWith path k) eqn:Hm; simpl; [|now apply IH].
    now rewrite best_match_keeps.
Qed.

(** The loop of [getRequestPriority] returns the priority of the first entry,
    in the order of the table, whose key matches. *)
Lemma first_match_split (path : string) (l1 l2 : PriorityLevels) (k : string) (v : Z) :
  String.eqb k "default" = false ->
  startsWith path k = true ->
  (forall k' v', In (k', v') l1 ->
     String.eqb k' "default" = false -> startsWith path k' = false) ->
  first_match path (l1 ++ (k, v) :: l2) = Some v.
Proof.
  intros Hd Hm. induction l1 as [|[k1 v1] l1 IH]; intros H; simpl.
  - now rewrite Hd, Hm.
  - destruct (String.eqb k1 "default") eqn:Hd1.
    + apply IH. intros k' v' Hin. apply (H k' v'). now right.
    + rewrite (H k1 v1 (or_introl eq_refl) Hd1).
      apply IH. intros k' v' Hin. apply (H k' v'). now right.
Qed.

Lemma first_match_none (path : string) (levels : PriorityLevels) :
  (forall k v, In (k, v) levels ->
     String.eqb k "default" = false -> startsWith path k = false) ->
  first_match path levels = None.
Proof.
  induction levels as [|[k v] rest IH]; intros H; simpl.
  - reflexivity.
  - destruct (String.eqb k "default") eqn:Hd.
    + apply IH. intros k' v' Hin. apply (H k' v'). now right.
    + rewrite (H k v (or_introl eq_refl) Hd).
      apply IH. intros k' v' Hin. apply (H k' v'). now right.
Qed.

Lemma ordered_table_longest (levels : PriorityLevels) (path : string) :
  well_ordered levels = true ->
  getRequestPriority levels path = longest_prefix_priority levels path.
Proof.
  intros H. unfold getRequestPriority, longest_prefix_priority.
  rewrite <- (best_match_first path levels H).
  destruct (best_match path levels None) as [[k v]|]; reflexivity.
Qed.

(** Two prefixes of one string: one of them is a prefix of the other. *)
Lemma prefixes_nest (a b p : string) :
  String.prefix a p = true -> String.prefix b p = true ->
  String.prefix a b = true \/ String.prefix b a = true.
Proof.
  intros Ha Hb. destruct (Nat.le_ge_cases (String.length a) (String.length b)) as [H|H].
  - left. now apply (prefix_of_prefix a b p).
  - right. now apply (prefix_of_prefix b a p).
Qed.

(** No key of the built-in table is a prefix of another, so at most one of
    them is a prefix of a given path. *)
Lemma default_levels_one_match (p k k' : string) (v v' : Z) :
  In (k, v) default_priorityLevels -> In (k', v') default_priorityLevels ->
  k <> "default" -> k' <> "default" ->
  startsWith p k = true -> startsWith p k' = true ->
  k = k' /\ v = v'.
Proof.
  intros Hk Hk' Hd Hd' Hm Hm'. unfold startsWith in *.
  destruct (prefixes_nest k k' p Hm Hm') as [H|H];
    simpl in Hk, Hk';
    repeat (destruct Hk as [Hk|Hk]; [injection Hk as <- <-|]); try contradiction;
    try (contradiction Hd; reflexivity);
    repeat (destruct Hk' as [Hk'|Hk']; [injection Hk' as <- <-|]); try contradiction;
    try (contradiction Hd'; reflexivity);
    try (split; reflexivity); vm_compute in H; discriminate H.
Qed.

(** The loop stops at an entry whose key matches, when there is one. *)
Lemma first_match_found (p : string) (levels : PriorityLevels) (k : string) (v : Z) :
  In (k, v) levels -> k <> "default" -> startsWith p k = true ->
  exists k1 v1,
    first_match p levels = Some v1 /\
    In (k1, v1) levels /\ k1 <> "default" /\ startsWith p k1 = true.
Proof.
  intros Hin Hd Hm. induction levels as [|[k0 v0] rest IH]; simpl in *; [contradiction|].
  destruct (String.eqb k0 "default") eqn:E0.
  - destruct Hin as [Hin|Hin].
    + injection Hin as -> ->. apply String.eqb_eq in E0. contradiction.
    + destruct (IH Hin) as (k1 & v1 & H1 & H2 & H3 & H4).
      exists k1, v1. auto.
  - apply String.eqb_neq in E0. destruct (startsWith p k0) eqn:M0.
    + exists k0, v0. auto.
    + destruct Hin as [Hin|Hin]; [injection Hin as -> ->; congruence|].
      destruct (IH Hin) as (k1 & v1 & H1 & H2 & H3 & H4).
      exists k1, v1. auto.
Qed.

(** C7.  The middleware is built with the table of the constructor, and with
    it every path gets the priority of the longest key that is a prefix of
    the path: the loop of [getRequestPriority] stops at the first key that
    matches, and in this table no key is a prefix of another, so the first
    match is the only one and hence the longest.  A path that no key matches
    gets the priority under ["default"], 1.  This is the priority the entry
    of a queued request carries. *)
Theorem getRequestPriority_longest_prefix (p : string) :
  getRequestPriority default_priorityLevels p
  = longest_prefix_priority default_priorityLevels p /\
  (forall k v,
      In (k, v) default_priorityLevels -> k <> "default" -> startsWith p k = true ->
      getRequestPriority default_priorityLevels p = Some v /\
      forall k' v',
        In (k', v') default_priorityLevels -> k' <> "default" ->
        startsWith p k' = true ->
        (String.length k' <= String.length k)%nat) /\
  ((forall k v,
       In (k, v) default_priorityLevels -> k <> "default" -> startsWith p k = false) ->
   getRequestPriority default_priorityLevels p = Some 1) /\
  (forall s r now s' out,
      priorityLevels (config s) = default_priorityLevels ->
      JS.len (requestQueue s) < maxQueueSize (config s) ->
      queueRequest s r p now = Some (s', out) ->
      exists v,
        getRequestPriority default_priorityLevels p = Some v /\
        In {| res := r; path := p; timestamp := now; priority := v |} (requestQueue s')).
Proof.
  split; [|split; [|split]].
  - apply ordered_table_longest. reflexivity.
  - intros k v Hin Hd Hm. split.
    + destruct (first_match_found p _ k v Hin Hd Hm) as (k1 & v1 & Hf & Hin1 & Hd1 & Hm1).
      destruct (default_levels_one_match p k k1 v v1 Hin Hin1 Hd Hd1 Hm Hm1) as [_ <-].
      unfold getRequestPriority. now rewrite Hf.
    + intros k' v' Hin' Hd' Hm'.
      destruct (default_levels_one_match p k k' v v' Hin Hin' Hd Hd' Hm Hm') as [<- _].
      lia.
  - intros Hnone. unfold getRequestPriority. rewrite first_match_none; [reflexivity|].
    intros k v Hin Hd. apply (Hnone k v Hin). now apply String.eqb_neq.
  - intros s r now s' out Hlevels Hroom Hq. unfold queueRequest in Hq.
    destruct (maxQueueSize (config s) <=? JS.len (requestQueue s)) eqn:E;
      [apply Z.leb_le in E; lia|].
    rewrite Hlevels in Hq.
    destruct (getRequestPriority default_priorityLevels p) as [v|]; [|discriminate].
    injection Hq as <- <-. exists v. split; [reflexivity|]. simpl.
    apply (Permutation_in _ (Permutation_sym (JSProofs.sort_perm _ _))).
    apply in_app_iff. right. now left.
Qed.

(** ** What each operation changes *)

Lemma run_invariant (P : State -> Prop) :
  (forall s e s' out, P s -> step s e = Some (s', out) -> P s') ->
  forall events s s' h, P s -> run s events = Some (s', h) -> P s'.
Proof.
  intros Hstep. induction events as [|e events IH]; intros s s' h HP Hrun; simpl in Hrun.
  - now inversion Hrun; subst.
  - destruct (step s e) as [[s1 out]|] eqn:He; [|discriminate].
    destruct (run s1 events) as [[s2 h2]|] eqn:Hr; [|discriminate].
    inversion Hrun; subst. eapply IH; [|exact Hr]. eapply Hstep; eauto.
Qed.

(** [processNextInQueue] answers the expired requests at the head of the
    queue and then admits the first one that is not expired, if the limit
    allows; it touches nothing else. *)
Lemma processNextInQueue_from_cases (q : list QueuedRequest) :
  forall s now s' out,
    requestQueue s = q ->
    processNextInQueue_from q s now = (s', out) ->
    config s' = config s /\
    responseTimeHistory s' = responseTimeHistory s /\
    errorRateHistory s' = errorRateHistory s /\
    lastAdaptiveCheck s' = lastAdaptiveCheck s /\
    nextRes s' = nextRes s /\
    exists skipped responses,
      Forall (expired (config s) now) skipped /\
      Forall is_timeout_response responses /\
      ((exists x rest,
          q = skipped ++ x :: rest /\
          ~ expired (config s) now x /\
          activeRequests s < limit s /\
          requestQueue s' = rest /\
          activeRequests s' = activeRequests s + 1 /\
          monitors s' = monitors s ++ [monitor_of x] /\
          out = responses ++ [Next (res x)])
       \/
       (exists rest,
          q = skipped ++ rest /\
          (rest = [] \/ limit s <= activeRequests s) /\
          requestQueue s' = rest /\
          activeRequests s' = activeRequests s /\
          monitors s' = monitors s /\
          out = responses)).
Proof.
  induction q as [|x q IH]; intros s now s' out Hq H; simpl in H.
  - inversion H; subst. repeat split; auto.
    exists [], []. repeat split; auto. right. exists []. repeat split; auto.
  - destruct (limit s <=? activeRequests s) eqn:Hfull.
    + inversion H; subst. repeat split; auto.
      exists [], []. repeat split; auto. right. exists (x :: q).
      apply Z.leb_le in Hfull. repeat split; auto.
    + apply Z.leb_gt in Hfull.
      destruct (requestTimeout (config s) <? now - timestamp x) eqn:Hexp.
      * apply Z.ltb_lt in Hexp.
        destruct (if has_sent (set_queue s q) (res x) then (set_queue s q, [])
                  else respond (set_queue s q) (res x) 408 "QUEUE_TIMEOUT")
          as [s2 out1] eqn:H1.
        destruct (processNextInQueue_from q s2 now) as [s3 out2] eqn:H2.
        inversion H; subst s' out. clear H.
        assert (config s2 = config s /\ responseTimeHistory s2 = responseTimeHistory s /\
                errorRateHistory s2 = errorRateHistory s /\
                lastAdaptiveCheck s2 = lastAdaptiveCheck s /\ nextRes s2 = nextRes s /\
                requestQueue s2 = q /\ activeRequests s2 = activeRequests s /\
                monitors s2 = monitors s /\ Forall is_timeout_response out1)
          as (Hc & Hrt & Her & Hla & Hnr & Hq2 & Ha & Hm & Ho).
        { destruct (has_sent (set_queue s q) (res x)); inversion H1; subst; simpl;
            repeat split; auto.
          constructor; [|constructor]. now exists (res x). }
        destruct (IH s2 now s3 out2 Hq2 H2)
          as (Hc3 & Hrt3 & Her3 & Hla3 & Hnr3 & skipped & responses & Hsk & Hrs & Hcase).
        repeat split; try congruence.
        exists (x :: skipped), (out1 ++ responses).
        split. { constructor; [exact Hexp|]. now rewrite <- Hc. }
        split. { apply Forall_app. now split. }
        unfold limit in *. rewrite Hc, Ha, Hm in Hcase.
        destruct Hcase as [(y & rest & E1 & E2 & E3 & E4 & E5 & E6 & E7)
                          |(rest & E1 & E2 & E4 & E5 & E6 & E7)].
        -- left. exists y, rest. rewrite E1, E7, app_assoc. repeat split; auto.
        -- right. exists rest. rewrite E1, E7. repeat split; auto.
      * apply Z.ltb_ge in Hexp.
        unfold processRequest in H. inversion H; subst; simpl. repeat split; auto.
        exists [], []. repeat split; auto. left. exists x, q.
        repeat split; auto. unfold expired. lia.
Qed.

Lemma checkAdaptiveThrottling_fields (s : State) (now : Z) :
  let s' := checkAdaptiveThrottling s now in
  activeRequests s' = activeRequests s /\ requestQueue s' = requestQueue s /\
  monitors s' = monitors s /\ headersSent s' = headersSent s /\ nextRes s' = nextRes s /\
  maxQueueSize (config s') = maxQueueSize (config s) /\
  requestTimeout (config s') = requestTimeout (config s) /\
  priorityLevels (config s') = priorityLevels (config s) /\
  enableAdaptiveThrottling (config s') = enableAdaptiveThrottling (config s) /\
  (limit s' = limit s \/ exists avg err p95, limit s' = adjust (limit s) avg err p95).
Proof.
  cbv zeta. unfold checkAdaptiveThrottling.
  destruct (now - lastAdaptiveCheck s <? 5000); [repeat split; auto|].
  destruct (JS.len (responseTimeHistory (set_lastAdaptiveCheck s now)) <? 5);
    [repeat split; auto|].
  repeat split; auto. right. unfold limit at 1. simpl. eauto.
Qed.

Lemma handleResponse_cases (s : State) (r : nat) (statusCode now : Z) s' out :
  handleResponse s r statusCode now = (s', out) ->
  (s' = s /\ out = [] /\
   (find_monitor r (monitors s) = None \/
    exists m, find_monitor r (monitors s) = Some m /\ responseHandled m = true))
  \/
  (exists m s4,
     find_monitor r (monitors s) = Some m /\ responseHandled m = false /\
     processNextInQueue (after_completion s r m statusCode now) now = (s4, out) /\
     s' = if enableAdaptiveThrottling (config s4)
          then checkAdaptiveThrottling s4 now else s4).
Proof.
  unfold handleResponse. intros H.
  destruct (find_monitor r (monitors s)) as [m|] eqn:Hm.
  - destruct (responseHandled m) eqn:Hh.
    + inversion H; subst. left. repeat split; eauto.
    + fold (after_completion s r m statusCode now) in H.
      destruct (processNextInQueue (after_completion s r m statusCode now) now)
        as [s4 out4] eqn:Hp.
      inversion H; subst. right. exists m, s4. repeat split; auto.
  - inversion H; subst. left. repeat split; auto.
Qed.

Lemma handleResponse_config (s : State) (r : nat) (statusCode now : Z) s' out :
  handleResponse s r statusCode now = (s', out) ->
  same_settings (config s) (config s') /\
  nextRes s' = nextRes s /\
  (limit s' = limit s \/ exists avg err p95, limit s' = adjust (limit s) avg err p95).
Proof.
  intros H. apply handleResponse_cases in H
    as [(-> & _ & _)|(m & s4 & Hm & Hh & Hp & ->)].
  - unfold same_settings. repeat split; auto.
  - unfold processNextInQueue in Hp.
    apply processNextInQueue_from_cases in Hp as (Hc & _ & _ & _ & Hn & _); [|reflexivity].
    simpl in Hc, Hn.
    destruct (enableAdaptiveThrottling (config s4)).
    + pose proof (checkAdaptiveThrottling_fields s4 now) as F. cbv zeta in F.
      destruct F as (_ & _ & _ & _ & F5 & F1 & F2 & F3 & F4 & FL).
      unfold same_settings, limit in *. rewrite Hc in *.
      repeat split; try congruence; try exact FL.
    + unfold same_settings, limit. rewrite Hc. repeat split; auto.
Qed.

Lemma step_config (s : State) (e : Event) s' out :
  step s e = Some (s', out) ->
  same_settings (config s) (config s') /\
  (limit s' = limit s \/ exists avg err p95, limit s' = adjust (limit s) avg err p95).
Proof.
  destruct e as [p now|r c now|r c now|r c now|r now]; simpl; intros H.
  - unfold middleware in H.
    destruct (limit (set_nextRes s (S (nextRes s)))
              <=? activeRequests (set_nextRes s (S (nextRes s)))).
    + unfold queueRequest in H.
      destruct (maxQueueSize (config (set_nextRes s (S (nextRes s))))
                <=? JS.len (requestQueue (set_nextRes s (S (nextRes s))))).
      * inversion H; subst. unfold same_settings. simpl. repeat split; auto.
      * destruct (getRequestPriority _ p); [|discriminate].
        inversion H; subst. unfold same_settings. simpl. repeat split; auto.
    + inversion H; subst. unfold same_settings. simpl. repeat split; auto.
  - destruct (handleResponse s r c now) as [s1 out1] eqn:Hh.
    inversion H; subst. apply handleResponse_config in Hh as (A & _ & B).
    unfold sent, limit in *. simpl. split; auto.
  - destruct (handleResponse s r c now) as [s1 out1] eqn:Hh.
    inversion H; subst. apply handleResponse_config in Hh as (A & _ & B).
    unfold sent, limit in *. simpl. split; auto.
  - destruct (handleResponse s r (if c =? 0 then 499 else c) now) as [s1 out1] eqn:Hh.
    inversion H; subst. apply handleResponse_config in Hh as (A & _ & B). split; auto.
  - unfold timeoutQueuedRequest in H.
    destruct (remove_first r (requestQueue s)) as [q'|].
    + destruct (has_sent (set_queue s q') r); inversion H; subst;
        unfold same_settings; simpl; repeat split; auto.
    + inversion H; subst. unfold same_settings. repeat split; auto.
Qed.

(** ** The two histories grow together *)

Lemma record_length (h1 h2 : list Z) (x y : Z) :
  List.length h1 = List.length h2 ->
  List.length (record h1 x) = List.length (record h2 y).
Proof.
  intros E. unfold record, JS.len. rewrite !length_app, E. simpl.
  destruct (100 <? Z.of_nat (List.length h2 + 1)).
  - destruct h1, h2; simpl in *; try discriminate; rewrite ?length_app; simpl; lia.
  - rewrite !length_app, E. reflexivity.
Qed.

Lemma checkAdaptiveThrottling_histories (s : State) (now : Z) :
  responseTimeHistory (checkAdaptiveThrottling s now) = responseTimeHistory s /\
  errorRateHistory (checkAdaptiveThrottling s now) = errorRateHistory s.
Proof.
  unfold checkAdaptiveThrottling.
  destruct (now - lastAdaptiveCheck s <? 5000); [auto|].
  destruct (JS.len (responseTimeHistory (set_lastAdaptiveCheck s now)) <? 5); auto.
Qed.

(** [errorRateHistory] is as long as [responseTimeHistory], so the error rate
    is never computed over an empty history when the average is not. *)
Lemma histories_aligned (cfg : Config) (t0 : Z) (events : list Event) s h :
  run (create cfg t0) events = Some (s, h) ->
  List.length (responseTimeHistory s) = List.length (errorRateHistory s).
Proof.
  apply (run_invariant
           (fun s => List.length (responseTimeHistory s) = List.length (errorRateHistory s)));
    [|reflexivity].
  clear. intros s e s' out HP Hstep.
  assert (forall r c now s1 out1,
             handleResponse s r c now = (s1, out1) ->
             List.length (responseTimeHistory s1) = List.length (errorRateHistory s1))
    as Hkey.
  { intros r c now s1 out1 Hh.
    apply handleResponse_cases in Hh as [(-> & _)|(m & s4 & _ & _ & Hp & ->)]; [exact HP|].
    unfold processNextInQueue in Hp.
    apply processNextInQueue_from_cases in Hp as (_ & Hrt & Her & _); [|reflexivity].
    simpl in Hrt, Her.
    assert (List.length (responseTimeHistory s4) = List.length (errorRateHistory s4)) as E
      by (rewrite Hrt, Her; now apply record_length).
    destruct (enableAdaptiveThrottling (config s4)); [|exact E].
    destruct (checkAdaptiveThrottling_histories s4 now) as [-> ->]. exact E. }
  destruct e as [p now|r c now|r c now|r c now|r now]; simpl in Hstep.
  - unfold middleware in Hstep.
    destruct (limit (set_nextRes s (S (nextRes s)))
              <=? activeRequests (set_nextRes s (S (nextRes s)))).
    + unfold queueRequest in Hstep.
      destruct (maxQueueSize (config (set_nextRes s (S (nextRes s))))
                <=? JS.len (requestQueue (set_nextRes s (S (nextRes s))))).
      * inversion Hstep; subst. exact HP.
      * destruct (getRequestPriority _ p); [|discriminate].
        inversion Hstep; subst. exact HP.
    + inversion Hstep; subst. exact HP.
  - destruct (handleResponse s r c now) as [s1 out1] eqn:Hh.
    inversion Hstep; subst. exact (Hkey _ _ _ _ _ Hh).
  - destruct (handleResponse s r c now) as [s1 out1] eqn:Hh.
    inversion Hstep; subst. exact (Hkey _ _ _ _ _ Hh).
  - destruct (handleResponse s r (if c =? 0 then 499 else c) now) as [s1 out1] eqn:Hh.
    inversion Hstep; subst. exact (Hkey _ _ _ _ _ Hh).
  - unfold timeoutQueuedRequest in Hstep.
    destruct (remove_first r (requestQueue s)) as [q'|].
    + destruct (has_sent (set_queue s q') r); inversion Hstep; subst; exact HP.
    + inversion Hstep; subst. exact HP.
Qed.

(** ** Every run is defined when the table has a default *)

Lemma getRequestPriority_defined (levels : PriorityLevels) (path : string) (d : Z) :
  lookup "default" levels = Some d -> exists pr, getRequestPriority levels path = Some pr.
Proof.
  intros H. unfold getRequestPriority. rewrite H.
  destruct (first_match path levels); eauto.
Qed.

Lemma step_defined (s : State) (e : Event) (d : Z) :
  lookup "default" (priorityLevels (config s)) = Some d ->
  exists s' out, step s e = Some (s', out).
Proof.
  intros H. destruct e as [p now|r c now|r c now|r c now|r now]; simpl.
  - unfold middleware.
    destruct (limit (set_nextRes s (S (nextRes s)))
              <=? activeRequests (set_nextRes s (S (nextRes s)))).
    + unfold queueRequest.
      destruct (maxQueueSize (config (set_nextRes s (S (nextRes s))))
                <=? JS.len (requestQueue (set_nextRes s (S (nextRes s))))).
      * unfold respond. eauto.
      * destruct (getRequestPriority_defined _ p d H) as [pr E].
        change (priorityLevels (config (set_nextRes s (S (nextRes s)))))
          with (priorityLevels (config s)).
        rewrite E. eauto.
    + unfold processRequest. eauto.
  - destruct (handleResponse s r c now). unfold sent. eauto.
  - destruct (handleResponse s r c now). unfold sent. eauto.
  - destruct (handleResponse s r (if c =? 0 then 499 else c) now). eauto.
  - destruct (timeoutQueuedRequest s r). eauto.
Qed.

Lemma run_defined (events : list Event) :
  forall (s : State) (d : Z),
    lookup "default" (priorityLevels (config s)) = Some d ->
    exists s' h, run s events = Some (s', h).
Proof.
  induction events as [|e events IH]; intros s d H; simpl; [eauto|].
  destruct (step_defined s e d H) as (s1 & out & He). rewrite He.
  destruct (step_config _ _ _ _ He) as ((_ & _ & Hp & _) & _).
  rewrite <- Hp in H. destruct (IH s1 d H) as (s2 & h & Hr). rewrite Hr. eauto.
Qed.

(** ** Closures and the history *)

Lemma in_flight_from_app (h1 h2 : list Obs) :
  forall acc, in_flight_from acc (h1 ++ h2) = in_flight_from (in_flight_from acc h1) h2.
Proof.
  induction h1 as [|o h1 IH]; intros acc; simpl; auto.
  destruct o as [e|[r|r c m]]; auto.
  destruct (finished_res e); auto.
Qed.

Lemma in_flight_from_responses (out : list Effect) (acc : list nat) :
  Forall is_timeout_response out -> in_flight_from acc (map Did out) = acc.
Proof.
  induction 1 as [|f out [r ->] _ IH]; simpl; auto.
Qed.

Lemma admitted_app (h1 h2 : list Obs) : admitted (h1 ++ h2) = admitted h1 ++ admitted h2.
Proof.
  induction h1 as [|o h1 IH]; simpl; auto.
  destruct o as [e|[r|r c m]]; simpl; auto. now rewrite IH.
Qed.

Lemma admitted_responses (out : list Effect) :
  Forall is_timeout_response out -> admitted (map Did out) = [].
Proof.
  induction 1 as [|f out [r ->] _ IH]; simpl; auto.
Qed.

Lemma not_next_in_responses (out : list Effect) (r : nat) :
  Forall is_timeout_response out -> ~ In (Next r) out.
Proof.
  intros H Hin. rewrite Forall_forall in H. destruct (H _ Hin) as [r' E]. discriminate E.
Qed.

Lemma unhandled_app (ms1 ms2 : list Monitor) :
  unhandled (ms1 ++ ms2) = unhandled ms1 ++ unhandled ms2.
Proof. unfold unhandled. now rewrite filter_app, map_app. Qed.

Lemma unhandled_incl (ms : list Monitor) (r : nat) :
  In r (unhandled ms) -> In r (map m_res ms).
Proof.
  unfold unhandled. rewrite !in_map_iff. intros (m & E & Hin).
  apply filter_In in Hin as [Hin _]. eauto.
Qed.

Lemma find_monitor_none (r : nat) (ms : list Monitor) :
  find_monitor r ms = None -> ~ In r (map m_res ms).
Proof.
  induction ms as [|m ms IH]; simpl; auto.
  destruct (Nat.eqb (m_res m) r) eqn:E; [discriminate|].
  apply Nat.eqb_neq in E. intros H [H1|H1]; [contradiction|]. now apply IH.
Qed.

Lemma mark_handled_res (r : nat) (ms : list Monitor) :
  map m_res (mark_handled r ms) = map m_res ms.
Proof.
  induction ms as [|m ms IH]; simpl; auto.
  destruct (Nat.eqb (m_res m) r); simpl; congruence.
Qed.

Lemma find_monitor_handled (r : nat) (ms : list Monitor) (m : Monitor) :
  NoDup (map m_res ms) -> find_monitor r ms = Some m -> responseHandled m = true ->
  ~ In r (unhandled ms).
Proof.
  induction ms as [|m0 ms IH]; simpl; [discriminate|].
  intros Hnd Hf Hh. inversion Hnd as [|? ? Hnot Hnd']; subst.
  destruct (Nat.eqb (m_res m0) r) eqn:E.
  - inversion Hf; subst m0. apply Nat.eqb_eq in E. subst r.
    unfold unhandled. simpl. rewrite Hh. simpl.
    intros Hin. apply Hnot. now apply unhandled_incl.
  - apply Nat.eqb_neq in E. unfold unhandled. simpl.
    destruct (negb (responseHandled m0)); simpl.
    + intros [H|H]; [contradiction|]. now apply (IH Hnd' Hf Hh).
    + now apply (IH Hnd' Hf Hh).
Qed.

Lemma unhandled_mark_handled (r : nat) (ms : list Monitor) (m : Monitor) :
  NoDup (map m_res ms) -> find_monitor r ms = Some m -> responseHandled m = false ->
  unhandled (mark_handled r ms) = remove Nat.eq_dec r (unhandled ms) /\
  In r (unhandled ms).
Proof.
  induction ms as [|m0 ms IH]; simpl; [discriminate|].
  intros Hnd Hf Hh. inversion Hnd as [|? ? Hnot Hnd']; subst.
  destruct (Nat.eqb (m_res m0) r) eqn:E.
  - inversion Hf; subst m0. apply Nat.eqb_eq in E. subst r.
    unfold unhandled. simpl. rewrite Hh. simpl.
    destruct (Nat.eq_dec (m_res m) (m_res m)); [|congruence].
    split; [|now left].
    symmetry. apply notin_remove. intros Hin. apply Hnot. now apply unhandled_incl.
  - apply Nat.eqb_neq in E. destruct (IH Hnd' Hf Hh) as [IH1 IH2].
    unfold unhandled in *. simpl.
    destruct (negb (responseHandled m0)); simpl.
    + destruct (Nat.eq_dec r (m_res m0)); [congruence|].
      split; [now f_equal|now right].
    + split; auto.
Qed.

Lemma remove_first_some (r : nat) (q q' : list QueuedRequest) :
  remove_first r q = Some q' ->
  exists l1 x l2, q = l1 ++ x :: l2 /\ q' = l1 ++ l2 /\ res x = r.
Proof.
  revert q'. induction q as [|y q IH]; simpl; intros q' H; [discriminate|].
  destruct (Nat.eqb (res y) r) eqn:E.
  - inversion H; subst. apply Nat.eqb_eq in E. now exists [], y, q'.
  - destruct (remove_first r q) as [q''|]; [|discriminate].
    inversion H; subst. destruct (IH q'' eq_refl) as (l1 & x & l2 & -> & -> & Hx).
    now exists (y :: l1), x, l2.
Qed.

(** ** The bookkeeping invariant *)

Lemma NoDup_unhandled (ms : list Monitor) :
  NoDup (map m_res ms) -> NoDup (unhandled ms).
Proof.
  unfold unhandled. induction ms as [|m ms IH]; simpl; intros H; [constructor|].
  inversion H as [|? ? Hnot Hnd]; subst.
  destruct (negb (responseHandled m)); simpl; auto.
  constructor; auto. intros Hin. apply Hnot. now apply (unhandled_incl ms).
Qed.

Lemma length_remove_NoDup (r : nat) (l : list nat) :
  NoDup l -> In r l -> S (List.length (remove Nat.eq_dec r l)) = List.length l.
Proof.
  induction l as [|x l IH]; simpl; intros Hnd Hin; [contradiction|].
  inversion Hnd as [|? ? Hnot Hnd']; subst.
  destruct (Nat.eq_dec r x) as [->|Hne].
  - now rewrite notin_remove.
  - destruct Hin as [E|Hin]; [congruence|]. simpl. f_equal. now apply IH.
Qed.

Lemma queue_split_NoDup (skipped rest : list QueuedRequest) (x : QueuedRequest) :
  NoDup (map res (skipped ++ x :: rest)) ->
  NoDup (map res rest) /\ ~ In (res x) (map res rest).
Proof.
  rewrite map_app. simpl. intros H. apply NoDup_app_remove_l in H.
  inversion H; subst. auto.
Qed.

Lemma create_consistent (cfg : Config) (t0 : Z) : consistent (create cfg t0).
Proof.
  unfold consistent, create. simpl. repeat split; try constructor; contradiction.
Qed.

Lemma after_completion_consistent (s : State) (r : nat) (m : Monitor) (c now : Z) :
  consistent s -> find_monitor r (monitors s) = Some m -> responseHandled m = false ->
  consistent (after_completion s r m c now) /\
  unhandled (monitors (after_completion s r m c now))
    = remove Nat.eq_dec r (unhandled (monitors s)) /\
  In r (unhandled (monitors s)).
Proof.
  intros (H1 & H2 & H3 & H4 & H5) Hm Hh.
  destruct (unhandled_mark_handled r (monitors s) m H1 Hm Hh) as [E Hin].
  split; [|split; [exact E|exact Hin]].
  unfold consistent, after_completion. simpl.
  rewrite mark_handled_res, E. repeat split; auto.
  - apply H4; auto.
  - apply H4; auto.
  - rewrite H5. pose proof (length_remove_NoDup r _ (NoDup_unhandled _ H1) Hin). lia.
Qed.

Lemma processNextInQueue_consistent (s : State) (now : Z) s' out :
  consistent s -> processNextInQueue s now = (s', out) ->
  consistent s' /\
  unhandled (monitors s') = in_flight_from (unhandled (monitors s)) (map Did out) /\
  map m_res (monitors s') = map m_res (monitors s) ++ admitted (map Did out).
Proof.
  intros (H1 & H2 & H3 & H4 & H5) H. unfold processNextInQueue in H.
  apply processNextInQueue_from_cases in H
    as (_ & _ & _ & _ & Hn & skipped & responses & _ & Hrs & Hcase); [|reflexivity].
  destruct Hcase as [(x & rest & Eq & _ & _ & Eq' & Ea & Em & Eo)
                    |(rest & Eq & _ & Eq' & Ea & Em & Eo)].
  - rewrite Eq in H2, H4. destruct (queue_split_NoDup _ _ _ H2) as [Hnd Hx].
    assert (In (res x) (map res (skipped ++ x :: rest))) as Hxin
      by (rewrite map_app, in_app_iff; right; now left).
    destruct (H4 _ Hxin) as [Hxlt Hxm].
    unfold consistent. rewrite Eq', Ea, Em, Hn, Eo.
    rewrite !map_app, unhandled_app, in_flight_from_app, admitted_app.
    rewrite (in_flight_from_responses responses), (admitted_responses responses)
      by exact Hrs.
    simpl.
    repeat split; auto.
    + apply NoDup_app; auto.
      * repeat constructor. intros [].
      * intros a Ha [<-|[]]. contradiction.
    + intros r Hr. apply in_app_iff in Hr as [Hr|[<-|[]]]; auto.
    + apply H4. rewrite map_app, in_app_iff. right. now right.
    + intros Hr. apply in_app_iff in Hr as [Hr|[<-|[]]]; [|contradiction].
      revert Hr. apply H4. rewrite map_app, in_app_iff. right. now right.
    + rewrite length_app, H5. simpl. lia.
  - rewrite Eq in H2, H4.
    unfold consistent. rewrite Eq', Ea, Em, Hn, Eo.
    rewrite (in_flight_from_responses responses), (admitted_responses responses)
      by exact Hrs.
    rewrite app_nil_r. repeat split; auto.
    + rewrite map_app in H2. now apply NoDup_app_remove_l in H2.
    + apply H4. rewrite map_app, in_app_iff. now right.
    + apply H4. rewrite map_app, in_app_iff. now right.
Qed.

Lemma checkAdaptiveThrottling_consistent (s : State) (now : Z) :
  consistent s -> consistent (checkAdaptiveThrottling s now).
Proof.
  pose proof (checkAdaptiveThrottling_fields s now) as F. cbv zeta in F.
  destruct F as (F1 & F2 & F3 & _ & F5 & _).
  unfold consistent. now rewrite F1, F2, F3, F5.
Qed.

(** Every signal of completion either finds a closure that has not seen a
    response, or changes nothing. *)
Lemma handleResponse_consistent (s : State) (r : nat) (c now : Z) s' out :
  consistent s -> handleResponse s r c now = (s', out) ->
  consistent s' /\
  unhandled (monitors s')
    = in_flight_from (remove Nat.eq_dec r (unhandled (monitors s))) (map Did out) /\
  map m_res (monitors s') = map m_res (monitors s) ++ admitted (map Did out).
Proof.
  intros Hc H. pose proof Hc as (H1 & _).
  apply handleResponse_cases in H as [(-> & -> & Hno)|(m & s4 & Hm & Hh & Hp & ->)].
  - simpl. rewrite app_nil_r. split; [exact Hc|]. split; [|reflexivity].
    symmetry. apply notin_remove.
    destruct Hno as [Hnone|(m & Hm & Hh)].
    + intros Hin. apply (find_monitor_none _ _ Hnone). now apply unhandled_incl.
    + now apply (find_monitor_handled r _ m).
  - destruct (after_completion_consistent s r m c now Hc Hm Hh) as (Hc3 & E3 & _).
    destruct (processNextInQueue_consistent _ _ _ _ Hc3 Hp) as (Hc4 & E4 & M4).
    assert (map m_res (monitors (after_completion s r m c now)) = map m_res (monitors s))
      as M3 by (unfold after_completion; simpl; apply mark_handled_res).
    rewrite E3 in E4. rewrite M3 in M4.
    destruct (enableAdaptiveThrottling (config s4)); [|auto].
    pose proof (checkAdaptiveThrottling_fields s4 now) as F. cbv zeta in F.
    destruct F as (_ & _ & F3 & _).
    rewrite F3. split; auto. now apply checkAdaptiveThrottling_consistent.
Qed.

Ltac split_consistent :=
  unfold consistent; simpl; split; [|split; [|split; [|split]]].

Lemma step_consistent (s : State) (e : Event) s' out :
  consistent s -> step s e = Some (s', out) ->
  consistent s' /\
  unhandled (monitors s') = in_flight_from (unhandled (monitors s)) (Got e :: map Did out) /\
  map m_res (monitors s') = map m_res (monitors s) ++ admitted (map Did out).
Proof.
  intros Hc H. pose proof Hc as (H1 & H2 & H3 & H4 & H5).
  destruct e as [p now|r c now|r c now|r c now|r now]; simpl in H |- *.
  - unfold middleware in H.
    destruct (limit (set_nextRes s (S (nextRes s)))
              <=? activeRequests (set_nextRes s (S (nextRes s)))).
    + unfold queueRequest in H.
      destruct (maxQueueSize (config (set_nextRes s (S (nextRes s))))
                <=? JS.len (requestQueue (set_nextRes s (S (nextRes s))))).
      * inversion H; subst. simpl. rewrite app_nil_r.
        split; [|split; reflexivity]. split_consistent; auto.
        -- intros r Hr. specialize (H3 r Hr). lia.
        -- intros r Hr. destruct (H4 r Hr). split; [lia|assumption].
      * destruct (getRequestPriority _ p) as [pr|]; [|discriminate].
        inversion H; subst. simpl. rewrite app_nil_r.
        split; [|split; reflexivity].
        set (x := {| res := nextRes s; path := p; timestamp := now; priority := pr |}).
        assert (Permutation (map res (JS.sort by_priority (requestQueue s ++ [x])))
                            (map res (requestQueue s) ++ [nextRes s])) as Hperm.
        { apply perm_trans with (map res (requestQueue s ++ [x])).
          - apply Permutation_map. apply JSProofs.sort_perm.
          - rewrite map_app. apply Permutation_refl. }
        split_consistent; auto.
        -- apply (Permutation_NoDup (Permutation_sym Hperm)).
           apply NoDup_app; auto.
           ++ repeat constructor. intros [].
           ++ intros a Ha [<-|[]]. destruct (H4 _ Ha). lia.
        -- intros r Hr. specialize (H3 r Hr). lia.
        -- intros r Hr. apply (Permutation_in _ Hperm) in Hr.
           apply in_app_iff in Hr as [Hr|[<-|[]]].
           ++ destruct (H4 _ Hr). split; [lia|assumption].
           ++ split; [lia|]. intros Hin. specialize (H3 _ Hin). lia.
    + inversion H; subst. simpl.
      rewrite map_app, unhandled_app. simpl.
      split; [|split; reflexivity].
      split_consistent; rewrite ?map_app, ?unhandled_app; simpl.
      * apply NoDup_app; auto.
        -- repeat constructor. intros [].
        -- intros a Ha [<-|[]]. specialize (H3 _ Ha). lia.
      * assumption.
      * intros r Hr. apply in_app_iff in Hr as [Hr|[<-|[]]]; [|lia].
        specialize (H3 _ Hr). lia.
      * intros r Hr. destruct (H4 _ Hr) as [Hlt Hnot]. split; [lia|].
        intros Hin. apply in_app_iff in Hin as [Hin|[<-|[]]]; [contradiction|lia].
      * rewrite length_app, H5. simpl. lia.
  - destruct (handleResponse s r c now) as [s1 out1] eqn:Hh.
    inversion H; subst. apply (handleResponse_consistent _ _ _ _ _ _ Hc) in Hh.
    exact Hh.
  - destruct (handleResponse s r c now) as [s1 out1] eqn:Hh.
    inversion H; subst. apply (handleResponse_consistent _ _ _ _ _ _ Hc) in Hh.
    exact Hh.
  - destruct (handleResponse s r (if c =? 0 then 499 else c) now) as [s1 out1] eqn:Hh.
    inversion H; subst. apply (handleResponse_consistent _ _ _ _ _ _ Hc) in Hh.
    exact Hh.
  - unfold timeoutQueuedRequest in H.
    destruct (remove_first r (requestQueue s)) as [q'|] eqn:Hq.
    + apply remove_first_some in Hq as (l1 & x & l2 & Eq & -> & Hx).
      assert (consistent (set_queue s (l1 ++ l2))) as Hc'.
      { rewrite Eq in H2, H4. split_consistent; auto.
        - rewrite map_app in *. simpl in H2. now apply NoDup_remove_1 in H2.
        - intros r' Hr. apply H4. rewrite map_app in *. simpl.
          apply in_app_iff in Hr as [|]; apply in_app_iff; [left|right; right]; auto. }
      destruct (has_sent (set_queue s (l1 ++ l2)) r); inversion H; subst; simpl;
        rewrite app_nil_r; (split; [exact Hc'|split; reflexivity]).
    + inversion H; subst. simpl. rewrite app_nil_r. split; [exact Hc|split; reflexivity].
Qed.

Lemma run_consistent (events : list Event) :
  forall s s' h,
    consistent s -> run s events = Some (s', h) ->
    consistent s' /\
    unhandled (monitors s') = in_flight_from (unhandled (monitors s)) h /\
    map m_res (monitors s') = map m_res (monitors s) ++ admitted h.
Proof.
  induction events as [|e events IH]; intros s s' h Hc Hrun; simpl in Hrun.
  - inversion Hrun; subst. simpl. rewrite app_nil_r. auto.
  - destruct (step s e) as [[s1 out]|] eqn:He; [|discriminate].
    destruct (run s1 events) as [[s2 h2]|] eqn:Hr; [|discriminate].
    inversion Hrun; subst.
    destruct (step_consistent _ _ _ _ Hc He) as (Hc1 & E1 & M1).
    destruct (IH _ _ _ Hc1 Hr) as (Hc2 & E2 & M2).
    split; [exact Hc2|]. split.
    + rewrite E2, E1.
      change (Got e :: map Did out ++ h2) with ((Got e :: map Did out) ++ h2).
      now rewrite in_flight_from_app.
    + rewrite M2, M1.
      change (Got e :: map Did out ++ h2) with ((Got e :: map Did out) ++ h2).
      rewrite admitted_app. simpl. now rewrite app_assoc.
Qed.

(** A signal of completion for a request in flight takes one off the count
    and at most one request leaves the queue for it; a signal for any other
    request changes nothing. *)
Lemma handleResponse_active (s : State) (r : nat) (c now : Z) s' out :
  consistent s -> handleResponse s r c now = (s', out) ->
  (In r (unhandled (monitors s)) /\
   activeRequests s' = activeRequests s - 1 + Z.of_nat (List.length (admitted (map Did out))))
  \/
  (~ In r (unhandled (monitors s)) /\ s' = s /\ out = []).
Proof.
  intros Hc H. pose proof Hc as (H1 & _).
  apply handleResponse_cases in H as [(-> & -> & Hno)|(m & s4 & Hm & Hh & Hp & ->)].
  - right. split; [|auto].
    destruct Hno as [Hnone|(m & Hm & Hh)].
    + intros Hin. apply (find_monitor_none _ _ Hnone). now apply unhandled_incl.
    + now apply (find_monitor_handled r _ m).
  - left. destruct (after_completion_consistent s r m c now Hc Hm Hh) as (_ & _ & Hin).
    split; [exact Hin|].
    assert (activeRequests s4
            = activeRequests s - 1 + Z.of_nat (List.length (admitted (map Did out)))) as E.
    { unfold processNextInQueue in Hp.
      apply processNextInQueue_from_cases in Hp
        as (_ & _ & _ & _ & _ & skipped & responses & _ & Hrs & Hcase); [|reflexivity].
      destruct Hcase as [(x & rest & _ & _ & _ & _ & Ea & _ & ->)
                        |(rest & _ & _ & _ & Ea & _ & ->)].
      - rewrite Ea, map_app, admitted_app, (admitted_responses responses) by exact Hrs.
        simpl. lia.
      - rewrite Ea, (admitted_responses responses) by exact Hrs. simpl. lia. }
    destruct (enableAdaptiveThrottling (config s4)); [|exact E].
    pose proof (checkAdaptiveThrottling_fields s4 now) as F. cbv zeta in F.
    destruct F as (F1 & _). now rewrite F1.
Qed.

(** C2.  After every run of the middleware [activeRequests] is the number of
    requests that were admitted and have not finished, where a request
    finishes at the first [res.send], [res.json] or ['close'] after its
    admission.  No request is admitted twice.  A signal for a request in
    flight takes exactly one off the count (and lets at most one queued
    request in); any further signal for it, and any signal for a request
    that is not in flight, leaves the count alone. *)
Theorem activeRequests_counts_in_flight
  (cfg : Config) (t0 : Z) (events : list Event) (s : State) (h : list Obs) :
  run (create cfg t0) events = Some (s, h) ->
  activeRequests s = Z.of_nat (List.length (in_flight h)) /\
  NoDup (admitted h) /\
  (forall e r s' out,
      finished_res e = Some r -> step s e = Some (s', out) ->
      (In r (in_flight h) ->
       activeRequests s'
       = activeRequests s - 1 + Z.of_nat (List.length (admitted (map Did out)))) /\
      (~ In r (in_flight h) -> activeRequests s' = activeRequests s /\ out = [])).
Proof.
  intros Hrun.
  destruct (run_consistent events _ _ _ (create_consistent cfg t0) Hrun) as (Hc & E & M).
  change (unhandled (monitors s) = in_flight h) in E.
  change (map m_res (monitors s) = admitted h) in M.
  pose proof Hc as (H1 & _ & _ & _ & H5).
  split; [now rewrite H5, E|]. split; [now rewrite <- M|].
  intros e r s' out Hf Hstep. rewrite <- E.
  assert (exists c now, handleResponse s r c now = (fst (handleResponse s r c now), out) /\
                        activeRequests s' = activeRequests (fst (handleResponse s r c now)))
    as (c & now & Hh & Ha).
  { destruct e as [p now|r0 c now|r0 c now|r0 c now|r0 now]; simpl in Hf; try discriminate;
      inversion Hf; subst r0; simpl in Hstep.
    - exists c, now. destruct (handleResponse s r c now) as [s1 out1].
      inversion Hstep; subst. auto.
    - exists c, now. destruct (handleResponse s r c now) as [s1 out1].
      inversion Hstep; subst. auto.
    - exists (if c =? 0 then 499 else c), now.
      destruct (handleResponse s r (if c =? 0 then 499 else c) now) as [s1 out1].
      inversion Hstep; subst. auto. }
  rewrite Ha.
  destruct (handleResponse_active _ _ _ _ _ _ Hc Hh) as [[Hin Hact]|(Hnot & Hs & ->)].
  - split; [auto|]. intros Hn. contradiction.
  - split; [intros Hin; contradiction|]. intros _. rewrite Hs. auto.
Qed.

Lemma activeRequests_counts_in_flight_witness :
  exists s h,
    run (create default_config 0) echo_events = Some (s, h) /\
    (activeRequests s = Z.of_nat (List.length (in_flight h)) /\
     NoDup (admitted h) /\
     (forall e r s' out,
         finished_res e = Some r -> step s e = Some (s', out) ->
         (In r (in_flight h) ->
          activeRequests s'
          = activeRequests s - 1 + Z.of_nat (List.length (admitted (map Did out)))) /\
         (~ In r (in_flight h) -> activeRequests s' = activeRequests s /\ out = []))).
Proof.
  eexists. eexists. split; [vm_compute; reflexivity|].
  apply (activeRequests_counts_in_flight default_config 0 echo_events).
  vm_compute. reflexivity.
Defined.

(** ** The order of the queue *)

Lemma queue_order_priority (a b : QueuedRequest) :
  queue_order a b -> priority b <= priority a.
Proof. unfold queue_order. intros [H|[H _]]; lia. Qed.

Lemma insert_by_sorted (y : QueuedRequest) (l : list QueuedRequest) :
  StronglySorted queue_order l ->
  (forall z, In z l -> queue_order y z \/ priority y < priority z) ->
  StronglySorted queue_order (JS.insert_by by_priority y l).
Proof.
  induction l as [|z l IH]; intros Hs Hy; simpl.
  - repeat constructor.
  - inversion Hs as [|? ? Hs' Hz]; subst. rewrite Forall_forall in Hz.
    unfold by_priority at 1.
    destruct (priority z - priority y <=? 0) eqn:E.
    + apply Z.leb_le in E. constructor; [exact Hs|].
      rewrite Forall_forall. intros w Hw.
      destruct (Hy w Hw) as [H|H]; [exact H|]. exfalso.
      destruct Hw as [<-|Hw]; [lia|].
      pose proof (queue_order_priority _ _ (Hz w Hw)). lia.
    + apply Z.leb_gt in E. constructor.
      * apply IH; [exact Hs'|]. intros w Hw. apply Hy. now right.
      * rewrite Forall_forall. intros w Hw.
        apply JSProofs.in_insert_by in Hw as [->|Hw]; [|now apply Hz].
        left. lia.
Qed.

(** Pushing a new arrival and sorting keeps the queue in serving order. *)
Lemma push_sorted (q : list QueuedRequest) (x : QueuedRequest) :
  StronglySorted queue_order q ->
  (forall y, In y q -> arrived_before y x) ->
  StronglySorted queue_order (JS.sort by_priority (q ++ [x])).
Proof.
  rewrite JSProofs.sort_push.
  induction q as [|y q IH]; intros Hs Hb; simpl.
  - repeat constructor.
  - inversion Hs as [|? ? Hs' Hy]; subst. rewrite Forall_forall in Hy.
    apply insert_by_sorted.
    + apply IH; [exact Hs'|]. intros z Hz. apply Hb. now right.
    + intros z Hz. rewrite <- JSProofs.sort_push in Hz.
      apply (Permutation_in _ (JSProofs.sort_perm by_priority (q ++ [x]))) in Hz.
      apply in_app_iff in Hz as [Hz|[<-|[]]].
      * left. now apply Hy.
      * specialize (Hb y (or_introl eq_refl)). unfold queue_order.
        destruct (Z.lt_trichotomy (priority y) (priority x)) as [H|[H|H]]; auto.
Qed.

Lemma sorted_app_tail (l1 l2 : list QueuedRequest) :
  StronglySorted queue_order (l1 ++ l2) -> StronglySorted queue_order l2.
Proof.
  induction l1 as [|a l1 IH]; simpl; auto. intros H. inversion H; subst. auto.
Qed.

Lemma sorted_remove (l1 l2 : list QueuedRequest) (x : QueuedRequest) :
  StronglySorted queue_order (l1 ++ x :: l2) -> StronglySorted queue_order (l1 ++ l2).
Proof.
  induction l1 as [|a l1 IH]; simpl; intros H; inversion H as [|? ? Hs Hf]; subst; auto.
  constructor; [now apply IH|].
  rewrite Forall_forall in *. intros w Hw. apply Hf.
  apply in_app_iff in Hw as [Hw|Hw]; apply in_app_iff; [left|right; right]; auto.
Qed.

Lemma create_ordered (cfg : Config) (t0 : Z) : ordered (create cfg t0) t0.
Proof. split; simpl; [constructor|contradiction]. Qed.

Lemma ordered_suffix (s s' : State) (t t' : Z) (skipped : list QueuedRequest) :
  ordered s t -> t <= t' -> nextRes s' = nextRes s ->
  requestQueue s = skipped ++ requestQueue s' -> ordered s' t'.
Proof.
  intros [Hs Hb] Ht Hn Eq. rewrite Eq in Hs, Hb. split.
  - now apply sorted_app_tail in Hs.
  - intros x Hx. rewrite Hn. destruct (Hb x) as [H1 H2];
      [apply in_app_iff; now right|]. split; [lia|exact H2].
Qed.

Lemma handleResponse_queue (s : State) (r : nat) (c now : Z) s' out :
  handleResponse s r c now = (s', out) ->
  nextRes s' = nextRes s /\
  exists skipped, requestQueue s = skipped ++ requestQueue s'.
Proof.
  intros H. apply handleResponse_cases in H as [(-> & _)|(m & s4 & _ & _ & Hp & ->)].
  - split; [reflexivity|]. now exists [].
  - unfold processNextInQueue in Hp.
    apply processNextInQueue_from_cases in Hp
      as (_ & _ & _ & _ & Hn & skipped & responses & _ & _ & Hcase); [|reflexivity].
    simpl in Hn, Hcase.
    assert (nextRes s4 = nextRes s /\
            exists skipped', requestQueue s = skipped' ++ requestQueue s4) as [Hn4 Hq4].
    { split; [exact Hn|].
      destruct Hcase as [(x & rest & Eq & _ & _ & Eq' & _)|(rest & Eq & _ & Eq' & _)].
      - exists (skipped ++ [x]). rewrite Eq, Eq', <- app_assoc. reflexivity.
      - exists skipped. now rewrite Eq, Eq'. }
    destruct (enableAdaptiveThrottling (config s4)); [|auto].
    pose proof (checkAdaptiveThrottling_fields s4 now) as F. cbv zeta in F.
    destruct F as (_ & F2 & _ & _ & F5 & _). now rewrite F2, F5.
Qed.

Lemma step_ordered (s : State) (e : Event) (t : Z) s' out :
  ordered s t -> t <= event_time e -> step s e = Some (s', out) ->
  ordered s' (event_time e).
Proof.
  intros Ho Ht H. pose proof Ho as [Hs Hb].
  destruct e as [p now|r c now|r c now|r c now|r now]; simpl in H, Ht |- *.
  - unfold middleware in H.
    destruct (limit (set_nextRes s (S (nextRes s)))
              <=? activeRequests (set_nextRes s (S (nextRes s)))).
    + unfold queueRequest in H.
      destruct (maxQueueSize (config (set_nextRes s (S (nextRes s))))
                <=? JS.len (requestQueue (set_nextRes s (S (nextRes s))))).
      * inversion H; subst. split; simpl; [exact Hs|].
        intros x Hx. destruct (Hb x Hx). split; lia.
      * destruct (getRequestPriority _ p) as [pr|]; [|discriminate].
        inversion H; subst. simpl.
        set (x := {| res := nextRes s; path := p; timestamp := now; priority := pr |}).
        split; simpl.
        -- apply push_sorted; [exact Hs|]. intros y Hy. destruct (Hb y Hy).
           unfold arrived_before. simpl. split; lia.
        -- intros y Hy.
           apply (Permutation_in _ (JSProofs.sort_perm by_priority _)) in Hy.
           apply in_app_iff in Hy as [Hy|[<-|[]]].
           ++ destruct (Hb y Hy). split; lia.
           ++ simpl. split; lia.
    + inversion H; subst. split; simpl; [exact Hs|].
      intros x Hx. destruct (Hb x Hx). split; lia.
  - destruct (handleResponse s r c now) as [s1 out1] eqn:Hh.
    inversion H; subst. apply handleResponse_queue in Hh as (Hn & skipped & Eq).
    apply (ordered_suffix s _ t now skipped); auto.
  - destruct (handleResponse s r c now) as [s1 out1] eqn:Hh.
    inversion H; subst. apply handleResponse_queue in Hh as (Hn & skipped & Eq).
    apply (ordered_suffix s _ t now skipped); auto.
  - destruct (handleResponse s r (if c =? 0 then 499 else c) now) as [s1 out1] eqn:Hh.
    inversion H; subst. apply handleResponse_queue in Hh as (Hn & skipped & Eq).
    apply (ordered_suffix s _ t now skipped); auto.
  - unfold timeoutQueuedRequest in H.
    destruct (remove_first r (requestQueue s)) as [q'|] eqn:Hq.
    + apply remove_first_some in Hq as (l1 & x & l2 & Eq & -> & Hx).
      assert (ordered (set_queue s (l1 ++ l2)) now) as Ho'.
      { rewrite Eq in Hs, Hb. split; simpl.
        - now apply sorted_remove in Hs.
        - intros y Hy. destruct (Hb y) as [H1 H2]; [|split; [lia|exact H2]].
          apply in_app_iff in Hy as [Hy|Hy]; apply in_app_iff; [left|right; right]; auto. }
      destruct (has_sent (set_queue s (l1 ++ l2)) r); inversion H; subst; exact Ho'.
    + inversion H; subst. destruct Ho as [Hs' Hb']. split; [exact Hs'|].
      intros x Hx. destruct (Hb' x Hx). split; [lia|assumption].
Qed.

Lemma run_ordered (events : list Event) :
  forall s t s' h,
    ordered s t -> chronological t events -> run s events = Some (s', h) ->
    exists t', ordered s' t'.
Proof.
  induction events as [|e events IH]; intros s t s' h Ho Hch Hrun; simpl in Hrun.
  - inversion Hrun; subst. eauto.
  - destruct (step s e) as [[s1 out]|] eqn:He; [|discriminate].
    destruct (run s1 events) as [[s2 h2]|] eqn:Hr; [|discriminate].
    inversion Hrun; subst. destruct Hch as [Ht Hch].
    apply (IH s1 (event_time e) s' h2); auto.
    now apply (step_ordered s e t s1 out).
Qed.

(** ** Leaving the queue *)

Lemma NoDup_map_inj {A B : Type} (f : A -> B) (l : list A) (x y : A) :
  NoDup (map f l) -> In x l -> In y l -> f x = f y -> x = y.
Proof.
  induction l as [|a l IH]; simpl; intros Hnd Hx Hy E; [contradiction|].
  inversion Hnd as [|? ? Hnot Hnd']; subst.
  destruct Hx as [->|Hx], Hy as [->|Hy]; auto.
  - exfalso. apply Hnot. rewrite E. now apply in_map.
  - exfalso. apply Hnot. rewrite <- E. now apply in_map.
Qed.

(** A request leaves the queue for the handler only in the step in which a
    request in flight finishes; the requests queued in front of it had
    expired and it had not. *)
Lemma step_dequeue (s : State) (e : Event) s' out (x : QueuedRequest) :
  consistent s -> step s e = Some (s', out) ->
  In x (requestQueue s) -> In (Next (res x)) out ->
  (exists r, finished_res e = Some r /\ In r (unhandled (monitors s))) /\
  exists skipped,
    requestQueue s = skipped ++ x :: requestQueue s' /\
    Forall (expired (config s) (event_time e)) skipped /\
    ~ expired (config s) (event_time e) x.
Proof.
  intros Hc H Hx Hout. pose proof Hc as (H1 & H2 & H3 & H4 & H5).
  assert (forall r c now s1,
             handleResponse s r c now = (s1, out) ->
             In r (unhandled (monitors s)) /\
             exists skipped,
               requestQueue s = skipped ++ x :: requestQueue s1 /\
               Forall (expired (config s) now) skipped /\
               ~ expired (config s) now x) as Hkey.
  { intros r c now s1 Hh.
    apply handleResponse_cases in Hh as [(_ & -> & _)|(m & s4 & Hm & Hh & Hp & ->)];
      [contradiction|].
    destruct (after_completion_consistent s r m c now Hc Hm Hh) as (_ & _ & Hin).
    split; [exact Hin|].
    unfold processNextInQueue in Hp.
    apply processNextInQueue_from_cases in Hp
      as (_ & _ & _ & _ & _ & skipped & responses & Hsk & Hrs & Hcase); [|reflexivity].
    simpl in Hsk, Hcase.
    destruct Hcase as [(y & rest & Eq & Hy & _ & Eq' & _ & _ & ->)
                      |(rest & _ & _ & _ & _ & _ & ->)].
    - apply in_app_iff in Hout as [Hout|[Hout|[]]];
        [now apply not_next_in_responses in Hout|].
      inversion Hout as [E].
      assert (y = x) as ->.
      { apply (NoDup_map_inj res (requestQueue s)); auto.
        rewrite Eq. apply in_app_iff. right. now left. }
      exists skipped. split; [|split; assumption].
      destruct (enableAdaptiveThrottling (config s4)); [|now rewrite Eq'].
      pose proof (checkAdaptiveThrottling_fields s4 now) as F. cbv zeta in F.
      destruct F as (_ & F2 & _). now rewrite F2, Eq'.
    - now apply not_next_in_responses in Hout. }
  destruct e as [p now|r c now|r c now|r c now|r now]; simpl in H |- *.
  - exfalso. unfold middleware in H.
    assert (In (res x) (map res (requestQueue s))) as Hrx by now apply in_map.
    destruct (H4 _ Hrx) as [Hlt _].
    destruct (limit (set_nextRes s (S (nextRes s)))
              <=? activeRequests (set_nextRes s (S (nextRes s)))).
    + unfold queueRequest in H.
      destruct (maxQueueSize (config (set_nextRes s (S (nextRes s))))
                <=? JS.len (requestQueue (set_nextRes s (S (nextRes s))))).
      * inversion H; subst. destruct Hout as [Hout|[]]. discriminate Hout.
      * destruct (getRequestPriority _ p); [|discriminate].
        inversion H; subst. contradiction.
    + inversion H; subst. destruct Hout as [Hout|[]]. inversion Hout. lia.
  - destruct (handleResponse s r c now) as [s1 out1] eqn:Hh.
    inversion H; subst. destruct (Hkey _ _ _ _ Hh) as [Hin Hsk]. split; eauto.
  - destruct (handleResponse s r c now) as [s1 out1] eqn:Hh.
    inversion H; subst. destruct (Hkey _ _ _ _ Hh) as [Hin Hsk]. split; eauto.
  - destruct (handleResponse s r (if c =? 0 then 499 else c) now) as [s1 out1] eqn:Hh.
    inversion H; subst. destruct (Hkey _ _ _ _ Hh) as [Hin Hsk]. split; eauto.
  - exfalso. unfold timeoutQueuedRequest in H.
    destruct (remove_first r (requestQueue s)) as [q'|].
    + destruct (has_sent (set_queue s q') r); inversion H; subst.
      * contradiction.
      * destruct Hout as [Hout|[]]. discriminate Hout.
    + inversion H; subst. contradiction.
Qed.

(** C5.  Along every run whose clock does not go backwards the queue is in
    serving order: priority descending and, within a priority, arrival
    ascending.  Whenever a request leaves the queue for its handler, the
    requests queued in front of it were expired ones, answered with a
    timeout, and every request still queued comes after it in serving order:
    none has a higher priority, and none of the same priority arrived
    earlier. *)
Theorem queue_serves_in_order
  (cfg : Config) (t0 : Z) (events : list Event) (s : State) (h : list Obs) :
  chronological t0 events ->
  run (create cfg t0) events = Some (s, h) ->
  StronglySorted queue_order (requestQueue s) /\
  (forall e s' out x,
      step s e = Some (s', out) -> In x (requestQueue s) -> In (Next (res x)) out ->
      exists skipped,
        requestQueue s = skipped ++ x :: requestQueue s' /\
        Forall (expired (config s) (event_time e)) skipped /\
        Forall (queue_order x) (requestQueue s') /\
        (forall y, In y (requestQueue s') ->
           priority y <= priority x /\
           (priority y = priority x -> arrived_before x y))).
Proof.
  intros Hch Hrun.
  destruct (run_consistent events _ _ _ (create_consistent cfg t0) Hrun) as (Hc & _).
  destruct (run_ordered events _ _ _ _ (create_ordered cfg t0) Hch Hrun) as (t & Hs & _).
  split; [exact Hs|].
  intros e s' out x Hstep Hx Hout.
  destruct (step_dequeue _ _ _ _ _ Hc Hstep Hx Hout) as (_ & skipped & Eq & Hsk & _).
  exists skipped. split; [exact Eq|]. split; [exact Hsk|].
  assert (Forall (queue_order x) (requestQueue s')) as Hall.
  { rewrite Eq in Hs. apply sorted_app_tail in Hs. now inversion Hs. }
  split; [exact Hall|].
  intros y Hy. rewrite Forall_forall in Hall. specialize (Hall y Hy).
  split; [now apply queue_order_priority|].
  intros E. destruct Hall as [Hlt|[_ Hb]]; [lia|exact Hb].
Qed.

Lemma queue_serves_in_order_witness :
  exists s h,
    chronological 0 queue_events /\
    run (create narrow_config 0) queue_events = Some (s, h) /\
    (StronglySorted queue_order (requestQueue s) /\
     (forall e s' out x,
         step s e = Some (s', out) -> In x (requestQueue s) -> In (Next (res x)) out ->
         exists skipped,
           requestQueue s = skipped ++ x :: requestQueue s' /\
           Forall (expired (config s) (event_time e)) skipped /\
           Forall (queue_order x) (requestQueue s') /\
           (forall y, In y (requestQueue s') ->
              priority y <= priority x /\
              (priority y = priority x -> arrived_before x y)))).
Proof.
  eexists. eexists.
  split; [simpl; repeat split; lia|]. split; [vm_compute; reflexivity|].
  eapply (queue_serves_in_order narrow_config 0 queue_events).
  - simpl. repeat split; lia.
  - vm_compute. reflexivity.
Defined.

(** A request leaves the queue in the step in which a request in flight
    finishes, or when its own timer fires. *)
Lemma step_leaves_queue (s : State) (e : Event) s' out (x : QueuedRequest) :
  consistent s -> step s e = Some (s', out) ->
  In x (requestQueue s) -> ~ In x (requestQueue s') ->
  (exists r, finished_res e = Some r /\ In r (unhandled (monitors s))) \/
  (exists now, e = Timer (res x) now).
Proof.
  intros Hc H Hx Hgone.
  assert (forall r c now s1,
             handleResponse s r c now = (s1, out) -> requestQueue s1 = requestQueue s' ->
             In r (unhandled (monitors s))) as Hkey.
  { intros r c now s1 Hh Eq.
    destruct (handleResponse_active _ _ _ _ _ _ Hc Hh) as [[Hin _]|(_ & -> & _)];
      [exact Hin|].
    exfalso. apply Hgone. now rewrite <- Eq. }
  destruct e as [p now|r c now|r c now|r c now|r now]; simpl in H |- *.
  - exfalso. apply Hgone. unfold middleware in H.
    destruct (limit (set_nextRes s (S (nextRes s)))
              <=? activeRequests (set_nextRes s (S (nextRes s)))).
    + unfold queueRequest in H.
      destruct (maxQueueSize (config (set_nextRes s (S (nextRes s))))
                <=? JS.len (requestQueue (set_nextRes s (S (nextRes s))))).
      * inversion H; subst. exact Hx.
      * destruct (getRequestPriority _ p); [|discriminate].
        inversion H; subst. simpl.
        apply (Permutation_in _ (Permutation_sym (JSProofs.sort_perm by_priority _))).
        apply in_app_iff. now left.
    + inversion H; subst. exact Hx.
  - destruct (handleResponse s r c now) as [s1 out1] eqn:Hh.
    inversion H; subst. left. exists r. split; [reflexivity|].
    now apply (Hkey r c now s1).
  - destruct (handleResponse s r c now) as [s1 out1] eqn:Hh.
    inversion H; subst. left. exists r. split; [reflexivity|].
    now apply (Hkey r c now s1).
  - destruct (handleResponse s r (if c =? 0 then 499 else c) now) as [s1 out1] eqn:Hh.
    inversion H; subst. left. exists r. split; [reflexivity|].
    now apply (Hkey r (if c =? 0 then 499 else c) now s').
  - right. exists now. unfold timeoutQueuedRequest in H.
    destruct (remove_first r (requestQueue s)) as [q'|] eqn:Hq.
    + apply remove_first_some in Hq as (l1 & y & l2 & Eq & -> & Hy).
      assert (requestQueue s' = l1 ++ l2) as Eq'
        by (destruct (has_sent (set_queue s (l1 ++ l2)) r); inversion H; subst; reflexivity).
      rewrite Eq in Hx. rewrite Eq' in Hgone.
      apply in_app_iff in Hx as [Hx|[Hx|Hx]].
      * exfalso. apply Hgone. apply in_app_iff. now left.
      * subst y. now rewrite Hy.
      * exfalso. apply Hgone. apply in_app_iff. now right.
    + inversion H; subst. contradiction.
Qed.

(** C9.  In every state a run can reach, a request that arrives while
    [activeRequests] is below the limit is handed to its handler at once and
    the queue is left as it is, whatever waits in it; a queued request is
    handed to its handler only in the step in which a request in flight
    signals its completion, and leaves the queue otherwise only when its own
    timer fires.  The default middleware reaches a state in which a request
    of the highest priority waits in the queue while the count is below the
    limit. *)
Theorem arrival_below_limit_skips_queue
  (cfg : Config) (t0 : Z) (events : list Event) (s : State) (h : list Obs) :
  run (create cfg t0) events = Some (s, h) ->
  (forall p now,
      activeRequests s < limit s ->
      exists s',
        step s (Arrive p now) = Some (s', [Next (nextRes s)]) /\
        requestQueue s' = requestQueue s /\
        activeRequests s' = activeRequests s + 1) /\
  (forall e s' out x,
      step s e = Some (s', out) -> In x (requestQueue s) -> In (Next (res x)) out ->
      exists r, finished_res e = Some r /\ In r (in_flight h)) /\
  (forall e s' out x,
      step s e = Some (s', out) -> In x (requestQueue s) -> ~ In x (requestQueue s') ->
      (exists r, finished_res e = Some r /\ In r (in_flight h)) \/
      (exists now, e = Timer (res x) now)) /\
  (exists s1 h1 x,
      run (create default_config 0) crowd_events = Some (s1, h1) /\
      requestQueue s1 = [x] /\ priority x = 10 /\ activeRequests s1 < limit s1).
Proof.
  intros Hrun.
  destruct (run_consistent events _ _ _ (create_consistent cfg t0) Hrun) as (Hc & E & _).
  change (unhandled (monitors s) = in_flight h) in E.
  split; [|split; [|split]].
  - intros p now Hlt. simpl. unfold middleware.
    change (limit (set_nextRes s (S (nextRes s)))) with (limit s).
    change (activeRequests (set_nextRes s (S (nextRes s)))) with (activeRequests s).
    destruct (limit s <=? activeRequests s) eqn:Hfull; [apply Z.leb_le in Hfull; lia|].
    eexists. split; [reflexivity|]. split; reflexivity.
  - intros e s' out x Hstep Hx Hout. rewrite <- E.
    destruct (step_dequeue _ _ _ _ _ Hc Hstep Hx Hout) as ((r & Hf & Hin) & _). eauto.
  - intros e s' out x Hstep Hx Hgone. rewrite <- E.
    now apply (step_leaves_queue s e s' out x).
  - eexists. eexists. eexists. split; [vm_compute; reflexivity|].
    split; [reflexivity|]. split; [reflexivity|]. vm_compute. reflexivity.
Qed.

Lemma arrival_below_limit_skips_queue_witness :
  exists s h,
    run (create default_config 0) crowd_events = Some (s, h) /\
    ((forall p now,
         activeRequests s < limit s ->
         exists s',
           step s (Arrive p now) = Some (s', [Next (nextRes s)]) /\
           requestQueue s' = requestQueue s /\
           activeRequests s' = activeRequests s + 1) /\
     (forall e s' out x,
         step s e = Some (s', out) -> In x (requestQueue s) -> In (Next (res x)) out ->
         exists r, finished_res e = Some r /\ In r (in_flight h)) /\
     (forall e s' out x,
         step s e = Some (s', out) -> In x (requestQueue s) -> ~ In x (requestQueue s') ->
         (exists r, finished_res e = Some r /\ In r (in_flight h)) \/
         (exists now, e = Timer (res x) now)) /\
     (exists s1 h1 x,
         run (create default_config 0) crowd_events = Some (s1, h1) /\
         requestQueue s1 = [x] /\ priority x = 10 /\ activeRequests s1 < limit s1)).
Proof.
  eexists. eexists. split; [vm_compute; reflexivity|].
  apply (arrival_below_limit_skips_queue default_config 0 crowd_events).
  vm_compute. reflexivity.
Defined.

(** ** The limit under adaptive throttling *)

Lemma adjust_within (limit : Z) (avg err : Q) (p95 : Z) :
  20 <= limit <= 500 -> 20 <= adjust limit avg err p95 <= 500.
Proof.
  intros H. unfold adjust.
  assert (0 <= limit * 3 / 10) by (apply Z.div_pos; lia).
  assert (0 <= limit * 2 / 10) by (apply Z.div_pos; lia).
  destruct (extreme_load avg err p95); [lia|].
  destruct (high_load avg err p95); [lia|].
  destruct (good_performance avg err p95); [lia|].
  destruct (excellent_performance avg err); lia.
Qed.

Lemma adjust_branches : branch_bounds.
Proof.
  intros limit avg err p95. unfold adjust. repeat split; intros.
  - now rewrite H.
  - now rewrite H, H0.
  - now rewrite H, H0, H1.
  - now rewrite H, H0, H1, H2.
Qed.

(** C6 as the code has it.  The bounds are constants of
    [checkAdaptiveThrottling] and there are four of them: the extreme-load
    reduction is floored at 20, the high-load reduction at 30, the
    good-performance increase is capped at 400 and the excellent-performance
    increase at 500.  A limit that starts between 20 and 500 (the default is
    200) stays between 20 and 500 through every run. *)
Theorem limit_stays_within_constants (cfg : Config) (t0 : Z) (events : list Event) s h :
  20 <= maxConcurrentRequests cfg <= 500 ->
  run (create cfg t0) events = Some (s, h) ->
  20 <= limit s <= 500 /\ branch_bounds.
Proof.
  intros Hcfg Hrun. split; [|exact adjust_branches].
  apply (run_invariant (fun s => 20 <= limit s <= 500)) with (3 := Hrun); [|exact Hcfg].
  intros s0 e s1 out HP Hstep. apply step_config in Hstep as (_ & [->|(a & b & c & ->)]).
  - exact HP.
  - now apply adjust_within.
Qed.

Lemma limit_stays_within_constants_witness :
  exists s h,
    run (create default_config 0) sink_events = Some (s, h) /\
    (20 <= limit s <= 500 /\ branch_bounds).
Proof.
  eexists. eexists. split; [vm_compute; reflexivity|].
  eapply (limit_stays_within_constants default_config 0 sink_events).
  - simpl. lia.
  - vm_compute. reflexivity.
Defined.

(** The default middleware meets all four bounds: excellent performance
    takes the limit past 400, to 410, and the next check under good
    performance brings it back to 400; extreme load takes it down to 20, and
    the next check under high load brings it up to 30. *)
Lemma limit_meets_each_bound :
  limit_after climb_events = Some 410 /\
  limit_after (climb_events ++ calm_events) = Some 400 /\
  limit_after sink_events = Some 20 /\
  limit_after (sink_events ++ recover_events) = Some 30.
Proof. repeat split; vm_compute; reflexivity. Qed.

(** C6 as stated fails: no single minimum floors every reduction and no
    single maximum caps every increase.  At a limit of 26 the extreme-load
    step gives 20 and the high-load step gives 30 (above where it started);
    at a limit of 395 the good-performance step stops at 400 while the
    excellent-performance step goes on to 410. *)
Lemma single_bounds_counterexample :
  adjust 26 (20000#1) (0#1) 0 = 20 /\
  adjust 26 (6000#1) (0#1) 0 = 30 /\
  adjust 395 (500#1) (0#1) 100 = 400 /\
  adjust 395 (500#1) (0#1) 4000 = 410 /\
  ~ exists lo hi, single_bounds lo hi.
Proof.
  repeat (split; [reflexivity|]).
  intros (lo & hi & H).
  destruct (H 26 (20000#1)%Q (0#1)%Q 0) as (Hx & _).
  destruct (H 26 (6000#1)%Q (0#1)%Q 0) as (_ & Hh & _).
  specialize (Hx eq_refl). specialize (Hh eq_refl eq_refl).
  vm_compute in Hx, Hh.
  change (20 = Z.max lo 19) in Hx. change (30 = Z.max lo 21) in Hh. lia.
Qed.

(* ===================================================================== *)
(** * Further properties of the middleware                              *)
(* ===================================================================== *)

Import JSProofs.

(** ** The size of the queue *)

Lemma step_queue_bound (s : State) (e : Event) s' out :
  JS.len (requestQueue s) <= Z.max 0 (maxQueueSize (config s)) ->
  step s e = Some (s', out) ->
  JS.len (requestQueue s') <= Z.max 0 (maxQueueSize (config s')).
Proof.
  intros Hb Hstep.
  destruct (step_config _ _ _ _ Hstep) as ((Hq & _) & _). rewrite Hq.
  assert (forall r c now s1 out1,
             handleResponse s r c now = (s1, out1) ->
             JS.len (requestQueue s1) <= JS.len (requestQueue s)) as Hkey.
  { intros r c now s1 out1 Hh.
    destruct (handleResponse_queue _ _ _ _ _ _ Hh) as (_ & skipped & E).
    rewrite E. unfold JS.len. rewrite length_app. lia. }
  destruct e as [p now|r c now|r c now|r c now|r now]; simpl in Hstep.
  - unfold middleware in Hstep.
    destruct (limit (set_nextRes s (S (nextRes s)))
              <=? activeRequests (set_nextRes s (S (nextRes s)))).
    + unfold queueRequest in Hstep. simpl in Hstep.
      destruct (maxQueueSize (config s) <=? JS.len (requestQueue s)) eqn:Hfull.
      * inversion Hstep; subst. exact Hb.
      * destruct (getRequestPriority (priorityLevels (config s)) p); [|discriminate].
        inversion Hstep; subst. simpl. rewrite len_sort, len_app_one.
        apply Z.leb_gt in Hfull. lia.
    + inversion Hstep; subst. exact Hb.
  - destruct (handleResponse s r c now) as [s1 out1] eqn:Hh.
    inversion Hstep; subst. simpl. specialize (Hkey _ _ _ _ _ Hh). lia.
  - destruct (handleResponse s r c now) as [s1 out1] eqn:Hh.
    inversion Hstep; subst. simpl. specialize (Hkey _ _ _ _ _ Hh). lia.
  - destruct (handleResponse s r (if c =? 0 then 499 else c) now) as [s1 out1] eqn:Hh.
    inversion Hstep; subst. specialize (Hkey _ _ _ _ _ Hh). lia.
  - unfold timeoutQueuedRequest in Hstep.
    destruct (remove_first r (requestQueue s)) as [q'|] eqn:Hrm.
    + destruct (remove_first_some _ _ _ Hrm) as (l1 & x & l2 & E1 & E2 & _).
      assert (JS.len q' <= JS.len (requestQueue s)) as Hle.
      { rewrite E1, E2. unfold JS.len. rewrite !length_app. simpl. lia. }
      destruct (has_sent (set_queue s q') r); inversion Hstep; subst; simpl; lia.
    + inversion Hstep; subst. exact Hb.
Qed.

Lemma run_settings (events : list Event) :
  forall s s' h, run s events = Some (s', h) -> same_settings (config s) (config s').
Proof.
  induction events as [|e events IH]; intros s s' h Hrun; simpl in Hrun.
  - inversion Hrun; subst. unfold same_settings. auto.
  - destruct (step s e) as [[s1 out]|] eqn:He; [|discriminate].
    destruct (run s1 events) as [[s2 h2]|] eqn:Hr; [|discriminate].
    inversion Hrun; subst.
    destruct (step_config _ _ _ _ He) as ((A1 & A2 & A3 & A4) & _).
    destruct (IH _ _ _ Hr) as (B1 & B2 & B3 & B4).
    unfold same_settings. repeat split; congruence.
Qed.

(** X3.  Over every run the queue holds at most [maxQueueSize] requests.  An
    arrival is answered 503 QUEUE_FULL exactly when no slot is free and the
    queue has reached [maxQueueSize]; the request is then neither queued nor
    counted as active, and nothing else happens. *)
Theorem queue_within_maxQueueSize
  (cfg : Config) (t0 : Z) (events : list Event) (s : State) (h : list Obs) :
  run (create cfg t0) events = Some (s, h) ->
  JS.len (requestQueue s) <= Z.max 0 (maxQueueSize cfg) /\
  (forall p now s' out,
      step s (Arrive p now) = Some (s', out) ->
      (In (Respond (nextRes s) 503 "QUEUE_FULL") out <->
       limit s <= activeRequests s /\ maxQueueSize cfg <= JS.len (requestQueue s)) /\
      (In (Respond (nextRes s) 503 "QUEUE_FULL") out ->
       out = [Respond (nextRes s) 503 "QUEUE_FULL"] /\
       requestQueue s' = requestQueue s /\ activeRequests s' = activeRequests s)).
Proof.
  intros Hrun.
  destruct (run_settings _ _ _ _ Hrun) as (Hq & _). simpl in Hq.
  split.
  - rewrite <- Hq.
    apply (run_invariant
             (fun s => JS.len (requestQueue s) <= Z.max 0 (maxQueueSize (config s)))
             step_queue_bound events (create cfg t0) s h); [|exact Hrun].
    simpl. unfold JS.len. simpl. lia.
  - intros p now s' out Hstep. simpl in Hstep. unfold middleware in Hstep.
    change (limit (set_nextRes s (S (nextRes s)))) with (limit s) in Hstep.
    simpl in Hstep. rewrite <- Hq.
    destruct (limit s <=? activeRequests s) eqn:Hcap.
    + unfold queueRequest in Hstep. simpl in Hstep.
      destruct (maxQueueSize (config s) <=? JS.len (requestQueue s)) eqn:Hfull.
      * inversion Hstep; subst. simpl.
        apply Z.leb_le in Hcap. apply Z.leb_le in Hfull. split.
        -- split; [intros _; split; assumption|intros _; now left].
        -- intros _. repeat split.
      * destruct (getRequestPriority (priorityLevels (config s)) p); [|discriminate].
        inversion Hstep; subst. simpl. apply Z.leb_gt in Hfull.
        split; [|contradiction]. split; [contradiction|]. intros [_ H]. lia.
    + inversion Hstep; subst. simpl. apply Z.leb_gt in Hcap.
      split.
      * split; [intros [H|[]]; discriminate H|intros [H _]; lia].
      * intros [H|[]]; discriminate H.
Qed.

(** ** The two histories *)

Lemma record_Forall (P : Z -> Prop) (h : list Z) (x : Z) :
  Forall P h -> P x -> Forall P (record h x).
Proof.
  intros Hh Hx. unfold record.
  assert (Forall P (h ++ [x])) as H by (apply Forall_app; auto).
  destruct (100 <? JS.len (h ++ [x])); [|exact H].
  destruct (h ++ [x]); simpl; [constructor|]. now inversion H.
Qed.
Lemma record_window (h : list Z) (x : Z) :
  (List.length h <= 100)%nat ->
  List.length (record h x) = Nat.min 100 (S (List.length h)).
Proof.
  intros Hh. unfold record.
  assert (List.length (h ++ [x]) = S (List.length h)) as Hl
      by (rewrite length_app; simpl; lia).
  destruct (100 <? JS.len (h ++ [x])) eqn:E; unfold JS.len in E.
  - apply Z.ltb_lt in E. destruct (h ++ [x]); cbn [List.length tl] in *; lia.
  - apply Z.ltb_ge in E. lia.
Qed.

Lemma find_monitor_in (r : nat) (ms : list Monitor) (m : Monitor) :
  find_monitor r ms = Some m -> In m ms /\ m_res m = r.
Proof.
  induction ms as [|m0 ms IH]; simpl; [discriminate|].
  destruct (Nat.eqb (m_res m0) r) eqn:E.
  - intros H. inversion H; subst. apply Nat.eqb_eq in E. auto.
  - intros H. destruct (IH H). auto.
Qed.

Lemma completions_mark_handled (r : nat) (ms : list Monitor) (m : Monitor) :
  find_monitor r ms = Some m -> responseHandled m = false ->
  List.length (filter responseHandled (mark_handled r ms))
  = S (List.length (filter responseHandled ms)).
Proof.
  induction ms as [|m0 ms IH]; simpl; [discriminate|].
  destruct (Nat.eqb (m_res m0) r).
  - intros H Hm. injection H as ->. simpl. now rewrite Hm.
  - intros H Hm. simpl. destruct (responseHandled m0); simpl; rewrite (IH H Hm); reflexivity.
Qed.

Lemma mark_handled_startTime (r : nat) (ms : list Monitor) (m : Monitor) :
  In m (mark_handled r ms) -> exists m0, In m0 ms /\ startTime m = startTime m0.
Proof.
  induction ms as [|m0 ms IH]; simpl; [contradiction|].
  destruct (Nat.eqb (m_res m0) r); simpl.
  - intros [E|H]; [exists m0; subst m; simpl; auto|exists m; auto].
  - intros [E|H]; [exists m0; subst m; auto|].
    destruct (IH H) as (m1 & H1 & H2). eauto.
Qed.

(** What a completion signal does to the histories, the closures and the
    queue: nothing, or one entry in each history, one closure marked, and a
    suffix of the queue left, its head possibly admitted. *)
Lemma handleResponse_records (s : State) (r : nat) (c now : Z) s' out :
  handleResponse s r c now = (s', out) ->
  (s' = s /\ out = [] /\ first_response s r c now = None) \/
  (exists m,
     find_monitor r (monitors s) = Some m /\ responseHandled m = false /\
     first_response s r c now
     = Some (now - startTime m, if 400 <=? c then 1 else 0) /\
     responseTimeHistory s' = record (responseTimeHistory s) (now - startTime m) /\
     errorRateHistory s' = record (errorRateHistory s) (if 400 <=? c then 1 else 0) /\
     (monitors s' = mark_handled r (monitors s) \/
      exists x, In x (requestQueue s) /\
                monitors s' = mark_handled r (monitors s) ++ [monitor_of x]) /\
     exists skipped, requestQueue s = skipped ++ requestQueue s').
Proof.
  intros Hh.
  destruct (handleResponse_queue _ _ _ _ _ _ Hh) as (_ & Hq).
  destruct (handleResponse_cases _ _ _ _ _ _ Hh)
    as [(-> & -> & Hwhy)|(m & s4 & Hf & Hm & Hp & ->)]; [left|right].
  { split; [reflexivity|]. split; [reflexivity|]. unfold first_response.
    destruct Hwhy as [->|(m & -> & ->)]; reflexivity. }
  exists m. split; [exact Hf|]. split; [exact Hm|].
  split; [unfold first_response; now rewrite Hf, Hm|].
  unfold processNextInQueue in Hp.
  destruct (processNextInQueue_from_cases _ _ _ _ _ eq_refl Hp)
    as (Hc & Hrt & Her & _ & _ & skipped & responses & _ & _ & Hcase).
  assert (responseTimeHistory
            (if enableAdaptiveThrottling (config s4)
             then checkAdaptiveThrottling s4 now else s4) = responseTimeHistory s4 /\
          errorRateHistory
            (if enableAdaptiveThrottling (config s4)
             then checkAdaptiveThrottling s4 now else s4) = errorRateHistory s4 /\
          monitors
            (if enableAdaptiveThrottling (config s4)
             then checkAdaptiveThrottling s4 now else s4) = monitors s4) as (E1 & E2 & E3).
  { destruct (enableAdaptiveThrottling (config s4)); [|auto].
    destruct (checkAdaptiveThrottling_histories s4 now) as [A B].
    destruct (checkAdaptiveThrottling_fields s4 now) as (_ & _ & C & _). auto. }
  rewrite E1, E2, E3, Hrt, Her. split; [reflexivity|]. split; [reflexivity|].
  split; [|exact Hq].
  destruct Hcase as [(x & rest & Eq & _ & _ & _ & _ & Em & _)|(rest & _ & _ & _ & _ & Em & _)].
  - right. exists x. split; [|exact Em].
    simpl in Eq. rewrite Eq. apply in_app_iff. right. now left.
  - left. exact Em.
Qed.

Lemma step_windowed (s : State) (e : Event) s' out :
  windowed s /\ List.length (responseTimeHistory s) = Nat.min 100 (completions s) ->
  step s e = Some (s', out) ->
  windowed s' /\ List.length (responseTimeHistory s') = Nat.min 100 (completions s').
Proof.
  intros ((Hl & Hb & Hf) & Hc) Hstep.
  assert (forall r c now s1 out1,
             handleResponse s r c now = (s1, out1) ->
             windowed s1 /\
             List.length (responseTimeHistory s1) = Nat.min 100 (completions s1)) as Hkey.
  { intros r c now s1 out1 Hh.
    destruct (handleResponse_records _ _ _ _ _ _ Hh)
      as [(-> & _)|(m & Hfm & Hm & _ & E1 & E2 & Hmon & _)]; [unfold windowed; auto|].
    assert (completions s1 = S (completions s)) as Hcount.
    { unfold completions.
      destruct Hmon as [->|(x & _ & ->)].
      - now apply (completions_mark_handled r _ m).
      - rewrite filter_app, length_app. simpl. rewrite Nat.add_0_r.
        now apply (completions_mark_handled r _ m). }
    unfold windowed. rewrite E1, E2, Hcount.
    rewrite !record_window by lia. split; [split; [|split]|].
    - lia.
    - lia.
    - apply record_Forall; [exact Hf|]. destruct (400 <=? c); auto.
    - lia. }
  destruct e as [p now|r c now|r c now|r c now|r now]; simpl in Hstep.
  - unfold middleware in Hstep.
    destruct (limit (set_nextRes s (S (nextRes s)))
              <=? activeRequests (set_nextRes s (S (nextRes s)))).
    + unfold queueRequest in Hstep. simpl in Hstep.
      destruct (maxQueueSize (config s) <=? JS.len (requestQueue s)).
      * inversion Hstep; subst. unfold windowed, completions. simpl. auto.
      * destruct (getRequestPriority (priorityLevels (config s)) p); [|discriminate].
        inversion Hstep; subst. unfold windowed, completions. simpl. auto.
    + inversion Hstep; subst. unfold windowed, completions in *. simpl.
      rewrite filter_app, length_app. simpl. rewrite Nat.add_0_r. auto.
  - destruct (handleResponse s r c now) as [s1 out1] eqn:Hh.
    inversion Hstep; subst. apply (Hkey _ _ _ _ _ Hh).
  - destruct (handleResponse s r c now) as [s1 out1] eqn:Hh.
    inversion Hstep; subst. apply (Hkey _ _ _ _ _ Hh).
  - destruct (handleResponse s r (if c =? 0 then 499 else c) now) as [s1 out1] eqn:Hh.
    inversion Hstep; subst. apply (Hkey _ _ _ _ _ Hh).
  - unfold timeoutQueuedRequest in Hstep.
    destruct (remove_first r (requestQueue s)) as [q'|].
    + destruct (has_sent (set_queue s q') r); inversion Hstep; subst;
        unfold windowed, completions; simpl; auto.
    + inversion Hstep; subst. unfold windowed. auto.
Qed.

Lemma run_windowed (cfg : Config) (t0 : Z) (events : list Event) s h :
  run (create cfg t0) events = Some (s, h) ->
  windowed s /\ List.length (responseTimeHistory s) = Nat.min 100 (completions s).
Proof.
  apply (run_invariant
           (fun s => windowed s /\
                     List.length (responseTimeHistory s) = Nat.min 100 (completions s))
           step_windowed).
  unfold windowed, completions. simpl. repeat split; auto. lia.
Qed.

(** Trimming after every entry leaves the last 100 entries. *)
Lemma record_last (l : list Z) (x : Z) :
  record (last_entries 100 l) x = last_entries 100 (l ++ [x]).
Proof.
  unfold record, last_entries, JS.len.
  rewrite !length_app, length_skipn. cbn [List.length].
  destruct (Nat.le_gt_cases (List.length l) 99) as [Hs|Hs].
  - replace (List.length l - 100)%nat with 0%nat by lia.
    replace (List.length l + 1 - 100)%nat with 0%nat by lia.
    cbn [skipn]. rewrite Nat.sub_0_r.
    destruct (100 <? Z.of_nat (List.length l + 1)) eqn:E; [|reflexivity].
    apply Z.ltb_lt in E. lia.
  - replace (List.length l + 1 - 100)%nat with (S (List.length l - 100)) by lia.
    destruct (100 <? Z.of_nat (List.length l - (List.length l - 100) + 1)) eqn:E;
      [|apply Z.ltb_ge in E; lia].
    rewrite (skipn_app (S (List.length l - 100)) l [x]).
    replace (S (List.length l - 100) - List.length l)%nat with 0%nat by lia.
    cbn [skipn].
    assert (List.length l - 100 < List.length l)%nat as Hk by lia.
    revert Hk. generalize (List.length l - 100)%nat. clear.
    induction l as [|y l IH]; intros k Hk; cbn [List.length] in Hk; [lia|].
    destruct k as [|k]; [reflexivity|].
    cbn [skipn]. apply IH. lia.
Qed.

(** One event records the response it brings, and nothing else. *)
Lemma step_recorded (s : State) (e : Event) s' out :
  step s e = Some (s', out) ->
  match recorded s e with
  | Some (t, f) =>
      responseTimeHistory s' = record (responseTimeHistory s) t /\
      errorRateHistory s' = record (errorRateHistory s) f /\
      completions s' = S (completions s)
  | None =>
      responseTimeHistory s' = responseTimeHistory s /\
      errorRateHistory s' = errorRateHistory s /\
      completions s' = completions s
  end.
Proof.
  intros Hstep.
  assert (forall r c now s1 out1,
             handleResponse s r c now = (s1, out1) ->
             match first_response s r c now with
             | Some (t, f) =>
                 responseTimeHistory s1 = record (responseTimeHistory s) t /\
                 errorRateHistory s1 = record (errorRateHistory s) f /\
                 completions s1 = S (completions s)
             | None =>
                 responseTimeHistory s1 = responseTimeHistory s /\
                 errorRateHistory s1 = errorRateHistory s /\
                 completions s1 = completions s
             end) as Hkey.
  { intros r c now s1 out1 Hh.
    destruct (handleResponse_records _ _ _ _ _ _ Hh)
      as [(-> & _ & ->)|(m & Hfm & Hm & -> & E1 & E2 & Hmon & _)]; [auto|].
    split; [exact E1|]. split; [exact E2|].
    unfold completions. destruct Hmon as [->|(x & _ & ->)].
    - now apply (completions_mark_handled r _ m).
    - rewrite filter_app, length_app. simpl. rewrite Nat.add_0_r.
      now apply (completions_mark_handled r _ m). }
  destruct e as [p now|r c now|r c now|r c now|r now]; simpl in Hstep |- *.
  - unfold middleware in Hstep.
    destruct (limit (set_nextRes s (S (nextRes s)))
              <=? activeRequests (set_nextRes s (S (nextRes s)))).
    + unfold queueRequest in Hstep. simpl in Hstep.
      destruct (maxQueueSize (config s) <=? JS.len (requestQueue s)).
      * inversion Hstep; subst. unfold completions. simpl. auto.
      * destruct (getRequestPriority (priorityLevels (config s)) p); [|discriminate].
        inversion Hstep; subst. unfold completions. simpl. auto.
    + inversion Hstep; subst. unfold completions. simpl.
      rewrite filter_app, length_app. simpl. rewrite Nat.add_0_r. auto.
  - destruct (handleResponse s r c now) as [s1 out1] eqn:Hh.
    inversion Hstep; subst. apply (Hkey _ _ _ _ _ Hh).
  - destruct (handleResponse s r c now) as [s1 out1] eqn:Hh.
    inversion Hstep; subst. apply (Hkey _ _ _ _ _ Hh).
  - destruct (handleResponse s r (if c =? 0 then 499 else c) now) as [s1 out1] eqn:Hh.
    inversion Hstep; subst. apply (Hkey _ _ _ _ _ Hh).
  - unfold timeoutQueuedRequest in Hstep.
    destruct (remove_first r (requestQueue s)) as [q'|].
    + destruct (has_sent (set_queue s q') r); inversion Hstep; subst;
        unfold completions; simpl; auto.
    + inversion Hstep; subst. auto.
Qed.

Lemma run_recordings (events : list Event) :
  forall s s' h prior,
    responseTimeHistory s = last_entries 100 (map fst prior) ->
    errorRateHistory s = last_entries 100 (map snd prior) ->
    completions s = List.length prior ->
    run s events = Some (s', h) ->
    responseTimeHistory s' = last_entries 100 (map fst (prior ++ recordings s events)) /\
    errorRateHistory s' = last_entries 100 (map snd (prior ++ recordings s events)) /\
    completions s' = List.length (prior ++ recordings s events).
Proof.
  induction events as [|e events IH]; intros s s' h prior Ht Hf Hc Hrun; simpl in Hrun.
  - inversion Hrun; subst. simpl. rewrite app_nil_r. auto.
  - destruct (step s e) as [[s1 out]|] eqn:He; [|discriminate].
    destruct (run s1 events) as [[s2 h2]|] eqn:Hr; [|discriminate].
    inversion Hrun; subst s2 h. clear Hrun.
    pose proof (step_recorded _ _ _ _ He) as Hrec.
    cbn [recordings]. rewrite He.
    destruct (recorded s e) as [[t f]|].
    + destruct Hrec as (E1 & E2 & E3).
      replace (prior ++ (t, f) :: recordings s1 events)
        with ((prior ++ [(t, f)]) ++ recordings s1 events)
        by (rewrite <- app_assoc; reflexivity).
      apply (IH s1 s' h2); [| | |exact Hr].
      * rewrite E1, Ht, map_app. apply record_last.
      * rewrite E2, Hf, map_app. apply record_last.
      * rewrite E3, Hc, length_app. simpl. lia.
    + destruct Hrec as (E1 & E2 & E3).
      apply (IH s1 s' h2); [congruence|congruence|congruence|exact Hr].
Qed.

(** X4.  Over every run the two histories hold the response times and the
    error flags of the last 100 responses recorded, oldest first: one entry
    each for the first response of every admitted request, the time counted
    from the [startTime] of its closure, the flag 1 for a status of 400 or
    more and 0 otherwise. *)
Theorem histories_hold_last_hundred
  (cfg : Config) (t0 : Z) (events : list Event) (s : State) (h : list Obs) :
  run (create cfg t0) events = Some (s, h) ->
  responseTimeHistory s
  = last_entries 100 (map fst (recordings (create cfg t0) events)) /\
  errorRateHistory s
  = last_entries 100 (map snd (recordings (create cfg t0) events)) /\
  completions s = List.length (recordings (create cfg t0) events) /\
  List.length (responseTimeHistory s) = Nat.min 100 (completions s) /\
  List.length (errorRateHistory s) = Nat.min 100 (completions s) /\
  Forall (fun x => x = 0 \/ x = 1) (errorRateHistory s).
Proof.
  intros Hrun. destruct (run_windowed _ _ _ _ _ Hrun) as ((Hl & Hb & Hf) & Hc).
  destruct (run_recordings events (create cfg t0) s h [] eq_refl eq_refl eq_refl Hrun)
    as (E1 & E2 & E3).
  split; [exact E1|]. split; [exact E2|]. split; [exact E3|].
  split; [exact Hc|]. split; [now rewrite <- Hl|exact Hf].
Qed.
(** ** The status report *)

Lemma mean_or_zero_nonneg (l : list Z) : 0 <= JS.sum l -> (0 <= mean_or_zero l)%Q.
Proof.
  intros H. unfold mean_or_zero, mean.
  destruct (0 <? JS.len l) eqn:E; [|apply Qle_refl].
  apply Z.ltb_lt in E.
  apply Qle_shift_div_l.
  - rewrite <- (Zlt_Qlt 0). exact E.
  - rewrite Qmult_0_l. rewrite <- (Zle_Qle 0). exact H.
Qed.

Lemma mean_or_zero_at_most_one (l : list Z) : JS.sum l <= JS.len l -> (mean_or_zero l <= 1)%Q.
Proof.
  intros H. unfold mean_or_zero, mean.
  destruct (0 <? JS.len l) eqn:E; [|discriminate].
  apply Z.ltb_lt in E.
  apply Qle_shift_div_r.
  - rewrite <- (Zlt_Qlt 0). exact E.
  - rewrite Qmult_1_l. rewrite <- Zle_Qle. exact H.
Qed.

Lemma step_timely (s : State) (e : Event) (t : Z) s' out :
  timely s t -> t <= event_time e -> step s e = Some (s', out) ->
  timely s' (event_time e).
Proof.
  intros (Hq & Hm & Hh) Ht Hstep.
  assert (forall r c now s1 out1,
             t <= now -> handleResponse s r c now = (s1, out1) -> timely s1 now) as Hkey.
  { intros r c now s1 out1 Hnow Hr.
    destruct (handleResponse_records _ _ _ _ _ _ Hr)
      as [(-> & _)|(m & Hfm & _ & _ & E1 & _ & Hmon & skipped & Eq)].
    - split; [|split; [|exact Hh]].
      + intros x Hx. specialize (Hq x Hx). lia.
      + intros m Hin. specialize (Hm m Hin). lia.
    - destruct (find_monitor_in _ _ _ Hfm) as [Hin _].
      assert (forall m', In m' (mark_handled r (monitors s)) -> startTime m' <= now) as Hold.
      { intros m' Hm'. destruct (mark_handled_startTime _ _ _ Hm') as (m0 & H0 & ->).
        specialize (Hm m0 H0). lia. }
      split; [|split].
      + intros x Hx. assert (In x (requestQueue s)) as Hx'
            by (rewrite Eq; apply in_app_iff; now right).
        specialize (Hq x Hx'). lia.
      + destruct Hmon as [->|(x & Hx & ->)]; [exact Hold|].
        intros m' Hm'. apply in_app_iff in Hm' as [Hm'|[<-|[]]]; [now apply Hold|].
        simpl. specialize (Hq x Hx). lia.
      + rewrite E1. apply record_Forall; [exact Hh|]. specialize (Hm m Hin). lia. }
  destruct e as [p now|r c now|r c now|r c now|r now]; simpl in Hstep, Ht |- *.
  - unfold middleware in Hstep.
    destruct (limit (set_nextRes s (S (nextRes s)))
              <=? activeRequests (set_nextRes s (S (nextRes s)))).
    + unfold queueRequest in Hstep. simpl in Hstep.
      destruct (maxQueueSize (config s) <=? JS.len (requestQueue s)).
      * inversion Hstep; subst. split; [|split; [|exact Hh]]; simpl.
        -- intros x Hx. specialize (Hq x Hx). lia.
        -- intros m Hin. specialize (Hm m Hin). lia.
      * destruct (getRequestPriority (priorityLevels (config s)) p); [|discriminate].
        inversion Hstep; subst. split; [|split; [|exact Hh]]; simpl.
        -- intros x Hx.
           apply (Permutation_in _ (sort_perm by_priority _)) in Hx.
           apply in_app_iff in Hx as [Hx|[<-|[]]]; [specialize (Hq x Hx); lia|simpl; lia].
        -- intros m Hin. specialize (Hm m Hin). lia.
    + inversion Hstep; subst. split; [|split; [|exact Hh]]; simpl.
      * intros x Hx. specialize (Hq x Hx). lia.
      * intros m Hin. apply in_app_iff in Hin as [Hin|[<-|[]]]; [|simpl; lia].
        specialize (Hm m Hin). lia.
  - destruct (handleResponse s r c now) as [s1 out1] eqn:Hr.
    inversion Hstep; subst. apply (Hkey _ _ _ _ _ Ht Hr).
  - destruct (handleResponse s r c now) as [s1 out1] eqn:Hr.
    inversion Hstep; subst. apply (Hkey _ _ _ _ _ Ht Hr).
  - destruct (handleResponse s r (if c =? 0 then 499 else c) now) as [s1 out1] eqn:Hr.
    inversion Hstep; subst. apply (Hkey _ _ _ _ _ Ht Hr).
  - unfold timeoutQueuedRequest in Hstep.
    assert (forall m, In m (monitors s) -> startTime m <= now) as Hm'
        by (intros m Hin; specialize (Hm m Hin); lia).
    destruct (remove_first r (requestQueue s)) as [q'|] eqn:Hrm.
    + destruct (remove_first_some _ _ _ Hrm) as (l1 & x & l2 & E1 & E2 & _).
      assert (forall y, In y q' -> timestamp y <= now) as Hq'.
      { intros y Hy. rewrite E2 in Hy. assert (In y (requestQueue s)) as Hy'.
        { rewrite E1. apply in_app_iff in Hy as [|]; apply in_app_iff;
            [left|right; right]; assumption. }
        specialize (Hq y Hy'). lia. }
      destruct (has_sent (set_queue s q') r); inversion Hstep; subst;
        (split; [exact Hq'|split; [exact Hm'|exact Hh]]).
    + inversion Hstep; subst. split; [|split; [exact Hm'|exact Hh]].
      intros x Hx. specialize (Hq x Hx). lia.
Qed.

Lemma run_timely (events : list Event) :
  forall s t s' h,
    timely s t -> chronological t events -> run s events = Some (s', h) ->
    exists t', timely s' t'.
Proof.
  induction events as [|e events IH]; intros s t s' h Ho Hch Hrun; simpl in Hrun.
  - inversion Hrun; subst. eauto.
  - destruct (step s e) as [[s1 out]|] eqn:He; [|discriminate].
    destruct (run s1 events) as [[s2 h2]|] eqn:Hr; [|discriminate].
    inversion Hrun; subst. destruct Hch as [Ht Hch].
    apply (IH s1 (event_time e) s' h2); auto.
    now apply (step_timely s e t s1 out).
Qed.

(** X5.  With a clock that does not run backwards, the figures of [getStatus]
    stay in range over every run: no count is negative, the queue length is
    within [maxQueueSize], the average response time is not negative, the
    error rate lies between 0 and 1, and the utilisation is a number exactly
    when the limit it is divided by is not 0. *)
Theorem getStatus_ranges
  (cfg : Config) (t0 : Z) (events : list Event) (s : State) (h : list Obs) :
  chronological t0 events ->
  run (create cfg t0) events = Some (s, h) ->
  0 <= status_activeRequests (getStatus s) /\
  0 <= status_queuedRequests (getStatus s) <= Z.max 0 (maxQueueSize cfg) /\
  status_maxQueueSize (getStatus s) = maxQueueSize cfg /\
  (0 <= status_avgResponseTime (getStatus s))%Q /\
  (0 <= status_errorRate (getStatus s) <= 1)%Q /\
  (status_utilizationPercent (getStatus s) = None <-> limit s = 0) /\
  (forall u, status_utilizationPercent (getStatus s) = Some u ->
             0 < limit s -> (0 <= u)%Q).
Proof.
  intros Hch Hrun. simpl.
  destruct (run_consistent _ _ _ _ (create_consistent cfg t0) Hrun)
    as ((_ & _ & _ & _ & Hact) & _).
  destruct (run_settings _ _ _ _ Hrun) as (Hq & _). simpl in Hq.
  assert (JS.len (requestQueue s) <= Z.max 0 (maxQueueSize (config s))) as Hbound.
  { apply (run_invariant
             (fun s => JS.len (requestQueue s) <= Z.max 0 (maxQueueSize (config s)))
             step_queue_bound events (create cfg t0) s h); [|exact Hrun].
    simpl. unfold JS.len. simpl. lia. }
  destruct (run_windowed _ _ _ _ _ Hrun) as ((_ & _ & Hflags) & _).
  destruct (run_timely events (create cfg t0) t0 s h) as (t' & _ & _ & Hpos); auto.
  { split; [|split]; simpl; [contradiction|contradiction|constructor]. }
  split; [lia|]. split; [unfold JS.len in *; lia|]. split; [exact Hq|].
  split; [apply mean_or_zero_nonneg, sum_nonneg, Hpos|].
  split; [split|].
  - apply mean_or_zero_nonneg. apply (sum_of_flags _ Hflags).
  - apply mean_or_zero_at_most_one. apply (sum_of_flags _ Hflags).
  - split.
    + destruct (limit s =? 0) eqn:E.
      * split; [intros _; now apply Z.eqb_eq|reflexivity].
      * split; [discriminate|]. apply Z.eqb_neq in E. contradiction.
    + intros u Hu Hlim. destruct (limit s =? 0); [discriminate|].
      injection Hu as <-.
      apply Qmult_le_0_compat; [|discriminate].
      apply Qle_shift_div_l.
      * rewrite <- (Zlt_Qlt 0). exact Hlim.
      * rewrite Qmult_0_l. rewrite <- (Zle_Qle 0). lia.
Qed.
(** ** Percentiles *)

(** In an ascending list the entry at position [i] has at least [i + 1]
    entries at or below it and at most [i] entries strictly below it. *)
Lemma rank_in_ascending (l : list Z) :
  StronglySorted Z.le l ->
  forall i, (i < List.length l)%nat ->
    (S i <= List.length (filter (fun x => (x <=? nth i l 0)%Z) l))%nat /\
    (List.length (filter (fun x => (x <? nth i l 0)%Z) l) <= i)%nat.
Proof.
  induction 1 as [|y l Hs IH Hall]; intros i Hi; simpl in Hi; [lia|].
  destruct i as [|i]; simpl.
  - rewrite Z.leb_refl, Z.ltb_irrefl. simpl. split; [lia|].
    assert (filter (fun x => x <? y) l = []) as ->; [|simpl; lia].
    clear -Hall. induction Hall as [|z l Hz _ IH]; simpl; [reflexivity|].
    destruct (z <? y) eqn:E; [apply Z.ltb_lt in E; lia|exact IH].
  - assert (y <= nth i l 0) as Hy.
    { assert (In (nth i l 0) l) as Hin by (apply nth_In; lia).
      revert Hin. generalize (nth i l 0). now apply Forall_forall. }
    destruct (IH i) as [H1 H2]; [lia|].
    apply Z.leb_le in Hy. rewrite Hy. simpl.
    split; [lia|]. destruct (y <? nth i l 0); simpl; lia.
Qed.

(** For the percentile the code asks for and up to 100 values, the index
    computed in doubles is the integer one, the ceiling of [95 * n / 100]
    less one. *)
Lemma percentile_index_95 (n : Z) :
  1 <= n <= 100 -> percentile_index 95 n = (95 * n + 99) / 100 - 1.
Proof.
  intros Hn.
  assert (forallb (fun k => percentile_index 95 (Z.of_nat k)
                            =? (95 * Z.of_nat k + 99) / 100 - 1) (seq 1 100) = true) as H
      by (vm_compute; reflexivity).
  rewrite forallb_forall in H. specialize (H (Z.to_nat n)).
  rewrite Z2Nat.id in H by lia. apply Z.eqb_eq. apply H. apply in_seq. lia.
Qed.

Lemma getPercentile_is_nth (values : list Z) :
  values <> [] -> JS.len values <= 100 ->
  let sorted := JS.sort (fun a b => a - b) values in
  let i := Z.to_nat ((95 * JS.len values + 99) / 100 - 1) in
  getPercentile values 95 = nth i sorted 0 /\
  (i < List.length sorted)%nat /\
  95 * JS.len values <= 100 * Z.of_nat (S i) /\
  100 * Z.of_nat i < 95 * JS.len values.
Proof.
  intros Hne Hcap. cbv zeta.
  assert (JS.len (JS.sort (fun a b => a - b) values) = JS.len values) as Hlen
      by (unfold JS.len; now rewrite (Permutation_length (sort_perm _ values))).
  assert (1 <= JS.len values) as Hn.
  { unfold JS.len. destruct values; [contradiction|]. simpl List.length. lia. }
  assert (95 * JS.len values + 99 = 100 * ((95 * JS.len values + 99) / 100)
                                    + (95 * JS.len values + 99) mod 100) as Hdiv
      by (apply Z.div_mod; lia).
  assert (0 <= (95 * JS.len values + 99) mod 100 < 100) as Hmod
      by (apply Z.mod_pos_bound; lia).
  assert (1 <= (95 * JS.len values + 99) / 100 <= JS.len values) as Hq by nia.
  unfold getPercentile. destruct values as [|v values]; [contradiction|].
  rewrite Hlen. rewrite percentile_index_95 by lia.
  rewrite Z.min_l by lia. rewrite Z.max_r by lia.
  split; [reflexivity|].
  unfold JS.len in *. rewrite (Permutation_length (sort_perm _ (v :: values))) in *.
  split; [lia|]. split; lia.
Qed.

(** X6.  For the percentile the code asks for, 95, and up to 100 values - the
    most a history holds - [getPercentile] is the nearest-rank percentile:
    the value it returns occurs in the list, at least 95 percent of the
    entries are at or below it, and fewer than 95 percent are strictly below
    it.  The rank is computed in doubles, so this does not hold of every
    percentile: of the values 1 to 100 the 7th percentile comes out as 8,
    with 7 percent of the entries strictly below it. *)
Theorem getPercentile_nearest_rank (values : list Z) :
  values <> [] -> JS.len values <= 100 ->
  (In (getPercentile values 95) values /\
   95 * JS.len values
   <= 100 * JS.len (filter (fun x => x <=? getPercentile values 95) values) /\
   100 * JS.len (filter (fun x => x <? getPercentile values 95) values)
   < 95 * JS.len values) /\
  (getPercentile one_to_hundred 7 = 8 /\
   100 * JS.len (filter (fun x => x <? getPercentile one_to_hundred 7) one_to_hundred)
   = 7 * JS.len one_to_hundred).
Proof.
  intros Hne Hcap. split; [|split; vm_compute; reflexivity].
  destruct (getPercentile_is_nth values Hne Hcap) as (-> & Hi & Hlo & Hhi).
  pose proof (sort_perm (fun a b => a - b) values) as Hperm.
  destruct (rank_in_ascending _ (sort_numbers values) _ Hi) as [H1 H2].
  split; [|split].
  - apply (Permutation_in _ Hperm). apply nth_In. exact Hi.
  - unfold JS.len at 2. rewrite <- (count_perm _ _ _ Hperm). lia.
  - unfold JS.len at 1. rewrite <- (count_perm _ _ _ Hperm). lia.
Qed.

Lemma getPercentile_nearest_rank_witness :
  (In (getPercentile [120; 80; 4000; 95; 60] 95) [120; 80; 4000; 95; 60] /\
   95 * JS.len [120; 80; 4000; 95; 60]
   <= 100 * JS.len (filter (fun x => x <=? getPercentile [120; 80; 4000; 95; 60] 95)
                           [120; 80; 4000; 95; 60]) /\
   100 * JS.len (filter (fun x => x <? getPercentile [120; 80; 4000; 95; 60] 95)
                        [120; 80; 4000; 95; 60])
   < 95 * JS.len [120; 80; 4000; 95; 60]) /\
  (getPercentile one_to_hundred 7 = 8 /\
   100 * JS.len (filter (fun x => x <? getPercentile one_to_hundred 7) one_to_hundred)
   = 7 * JS.len one_to_hundred).
Proof.
  apply (getPercentile_nearest_rank [120; 80; 4000; 95; 60]).
  - discriminate.
  - vm_compute. discriminate.
Defined.
(** ** Requests the middleware answers itself *)

Lemma answered_app (out1 out2 : list Effect) :
  answered (out1 ++ out2) = answered out1 ++ answered out2.
Proof.
  induction out1 as [|[r|r c e] out1 IH]; simpl; [reflexivity|exact IH|now rewrite IH].
Qed.

Lemma rejected_app (h1 h2 : list Obs) : rejected (h1 ++ h2) = rejected h1 ++ rejected h2.
Proof.
  induction h1 as [|[e|[r|r c e]] h1 IH]; simpl; try exact IH; [reflexivity|now rewrite IH].
Qed.

Lemma rejected_effects (out : list Effect) : rejected (map Did out) = answered out.
Proof.
  induction out as [|[r|r c e] out IH]; simpl; [reflexivity|exact IH|now rewrite IH].
Qed.

(** [settled] reads the request counter, the queue and the closures only. *)
Lemma settled_same (s s' : State) (rej : list nat) :
  settled s rej ->
  nextRes s' = nextRes s -> requestQueue s' = requestQueue s ->
  map m_res (monitors s') = map m_res (monitors s) ->
  settled s' rej.
Proof.
  intros [Hnd H] E1 E2 E3. split; [exact Hnd|].
  intros r Hr. rewrite E1, E2, E3. now apply H.
Qed.

(** A request taken off the queue and answered joins the settled ones. *)
Lemma settled_answer (s s' : State) (rej : list nat) (l1 l2 : list QueuedRequest)
  (x : QueuedRequest) :
  settled s rej ->
  requestQueue s = l1 ++ x :: l2 ->
  NoDup (map res (requestQueue s)) ->
  (forall r, In r (map res (requestQueue s)) ->
     (r < nextRes s)%nat /\ ~ In r (map m_res (monitors s))) ->
  nextRes s' = nextRes s -> requestQueue s' = l1 ++ l2 ->
  map m_res (monitors s') = map m_res (monitors s) ->
  settled s' (rej ++ [res x]) /\ settled s' rej.
Proof.
  intros [Hnd H] Eq Hq Hin E1 E2 E3.
  assert (In (res x) (map res (requestQueue s))) as Hx.
  { rewrite Eq, map_app. apply in_app_iff. right. now left. }
  assert (forall r, In r (map res (l1 ++ l2)) -> In r (map res (requestQueue s))) as Hsub.
  { intros r Hr. rewrite Eq. rewrite map_app in *. simpl.
    apply in_app_iff in Hr as [|]; apply in_app_iff; [left|right; right]; assumption. }
  assert (~ In (res x) (map res (l1 ++ l2))) as Hout.
  { rewrite Eq, map_app in Hq. simpl in Hq. apply NoDup_remove_2 in Hq.
    now rewrite map_app. }
  assert (settled s' rej) as Hs'.
  { split; [exact Hnd|]. intros r Hr. rewrite E1, E2, E3.
    destruct (H r Hr) as (A & B & C). split; [exact A|]. split; [|exact C].
    intros Hr'. apply B. now apply Hsub. }
  split; [|exact Hs'].
  split.
  - apply NoDup_app; [exact Hnd|repeat constructor; intros []|].
    intros r Hr [<-|[]]. destruct (H _ Hr) as (_ & B & _). now apply B.
  - intros r Hr. apply in_app_iff in Hr as [Hr|[<-|[]]]; [now apply Hs'|].
    rewrite E1, E2, E3. destruct (Hin _ Hx) as [A B]. auto.
Qed.

Lemma processNextInQueue_from_settled (q : list QueuedRequest) :
  forall s now s' out rej,
    requestQueue s = q ->
    NoDup (map res q) ->
    (forall r, In r (map res q) ->
       (r < nextRes s)%nat /\ ~ In r (map m_res (monitors s))) ->
    settled s rej ->
    processNextInQueue_from q s now = (s', out) ->
    settled s' (rej ++ answered out).
Proof.
  induction q as [|x rest IH]; intros s now s' out rej Eq Hq Hin Hs Hp; simpl in Hp.
  - inversion Hp; subst. simpl. now rewrite app_nil_r.
  - destruct (limit s <=? activeRequests s).
    { inversion Hp; subst. simpl. now rewrite app_nil_r. }
    assert (NoDup (map res rest)) as Hq' by (now inversion Hq).
    assert (forall r, In r (map res rest) ->
              (r < nextRes s)%nat /\ ~ In r (map m_res (monitors s))) as Hin'.
    { intros r Hr. apply Hin. now right. }
    rewrite <- Eq in Hq, Hin.
    destruct (requestTimeout (config s) <? now - timestamp x).
    + destruct (has_sent (set_queue s rest) (res x)).
      * destruct (processNextInQueue_from rest (set_queue s rest) now) as [s3 out2] eqn:Hrec.
        inversion Hp; subst s3 out. simpl.
        apply (IH (set_queue s rest) now s' out2 rej eq_refl Hq' Hin'); [|exact Hrec].
        apply (settled_answer s (set_queue s rest) rej [] rest x); auto.
      * unfold respond in Hp.
        destruct (processNextInQueue_from rest
                    (set_headersSent (set_queue s rest)
                       (res x :: headersSent (set_queue s rest))) now)
          as [s3 out2] eqn:Hrec.
        inversion Hp; subst s3 out. simpl.
        change (rej ++ res x :: answered out2) with (rej ++ [res x] ++ answered out2).
        rewrite app_assoc.
        apply (IH (set_headersSent (set_queue s rest)
                     (res x :: headersSent (set_queue s rest)))
                  now s' out2 (rej ++ [res x]) eq_refl Hq' Hin'); [|exact Hrec].
        apply (settled_answer s _ rej [] rest x); auto.
    + unfold processRequest in Hp. inversion Hp; subst. simpl. rewrite app_nil_r.
      destruct Hs as [Hnd H]. split; [exact Hnd|].
      intros r Hr. simpl. destruct (H r Hr) as (A & B & C). rewrite Eq in B.
      split; [exact A|]. split.
      * intros Hr'. apply B. now right.
      * rewrite map_app. simpl. intros Hr'.
        apply in_app_iff in Hr' as [Hr'|[<-|[]]]; [now apply C|].
        apply B. now left.
Qed.

Lemma handleResponse_settled (s : State) (r : nat) (c now : Z) s' out (rej : list nat) :
  consistent s -> settled s rej ->
  handleResponse s r c now = (s', out) ->
  settled s' (rej ++ answered out).
Proof.
  intros (_ & Hq & _ & Hin & _) Hs Hh.
  destruct (handleResponse_cases _ _ _ _ _ _ Hh)
    as [(-> & -> & _)|(m & s4 & Hf & Hm & Hp & ->)].
  - simpl. now rewrite app_nil_r.
  - unfold processNextInQueue in Hp.
    apply (processNextInQueue_from_settled _ _ _ _ _ rej eq_refl) in Hp.
    + destruct (enableAdaptiveThrottling (config s4)); [|exact Hp].
      destruct (checkAdaptiveThrottling_fields s4 now) as (_ & E2 & E3 & _ & E5 & _).
      apply (settled_same s4); auto. now rewrite E3.
    + exact Hq.
    + simpl. rewrite mark_handled_res. exact Hin.
    + apply (settled_same s); auto. simpl. apply mark_handled_res.
Qed.

Lemma step_settled (s : State) (e : Event) s' out (rej : list nat) :
  consistent s -> settled s rej ->
  step s e = Some (s', out) ->
  settled s' (rej ++ answered out).
Proof.
  intros Hc Hs Hstep.
  pose proof Hc as (_ & Hq & Hmon & Hin & _).
  destruct e as [p now|r c now|r c now|r c now|r now]; simpl in Hstep.
  - unfold middleware in Hstep.
    assert (~ In (nextRes s) rej) as Hfresh.
    { intros Hr. destruct Hs as [_ H]. destruct (H _ Hr) as (A & _). lia. }
    assert (~ In (nextRes s) (map res (requestQueue s))) as Hfq.
    { intros Hr. destruct (Hin _ Hr) as (A & _). lia. }
    assert (~ In (nextRes s) (map m_res (monitors s))) as Hfm.
    { intros Hr. specialize (Hmon _ Hr). lia. }
    assert (settled (set_nextRes s (S (nextRes s))) rej) as Hs0.
    { destruct Hs as [Hnd H]. split; [exact Hnd|]. intros r Hr. simpl.
      destruct (H r Hr) as (A & B & C). split; [lia|]. now split. }
    destruct (limit (set_nextRes s (S (nextRes s)))
              <=? activeRequests (set_nextRes s (S (nextRes s)))).
    + unfold queueRequest in Hstep. simpl in Hstep.
      destruct (maxQueueSize (config s) <=? JS.len (requestQueue s)).
      * inversion Hstep; subst. simpl. destruct Hs0 as [Hnd H]. split.
        -- apply NoDup_app; [exact Hnd|repeat constructor; intros []|].
           intros r Hr [<-|[]]. now apply Hfresh.
        -- intros r Hr. simpl. apply in_app_iff in Hr as [Hr|[<-|[]]]; [now apply H|].
           split; [lia|]. now split.
      * destruct (getRequestPriority (priorityLevels (config s)) p) as [pr|];
          [|discriminate].
        inversion Hstep; subst. simpl. rewrite app_nil_r.
        destruct Hs0 as [Hnd H]. split; [exact Hnd|]. intros r Hr. simpl.
        destruct (H r Hr) as (A & B & C). split; [exact A|]. split; [|exact C].
        intros Hr'.
        apply (Permutation_in _ (Permutation_map res (sort_perm by_priority _))) in Hr'.
        rewrite map_app in Hr'. simpl in Hr'.
        apply in_app_iff in Hr' as [Hr'|[<-|[]]]; [now apply B|now apply Hfresh].
    + inversion Hstep; subst. simpl. rewrite app_nil_r.
      destruct Hs0 as [Hnd H]. split; [exact Hnd|]. intros r Hr. simpl.
      destruct (H r Hr) as (A & B & C). split; [exact A|]. split; [exact B|].
      rewrite map_app. simpl. intros Hr'.
      apply in_app_iff in Hr' as [Hr'|[<-|[]]]; [now apply C|now apply Hfresh].
  - destruct (handleResponse s r c now) as [s1 out1] eqn:Hh.
    inversion Hstep; subst. simpl.
    apply (settled_same s1); auto. now apply (handleResponse_settled s r c now).
  - destruct (handleResponse s r c now) as [s1 out1] eqn:Hh.
    inversion Hstep; subst. simpl.
    apply (settled_same s1); auto. now apply (handleResponse_settled s r c now).
  - destruct (handleResponse s r (if c =? 0 then 499 else c) now) as [s1 out1] eqn:Hh.
    inversion Hstep; subst.
    now apply (handleResponse_settled s r (if c =? 0 then 499 else c) now).
  - unfold timeoutQueuedRequest in Hstep.
    destruct (remove_first r (requestQueue s)) as [q'|] eqn:Hrm.
    + destruct (remove_first_some _ _ _ Hrm) as (l1 & x & l2 & E1 & E2 & E3).
      destruct (has_sent (set_queue s q') r); inversion Hstep; subst; simpl.
      * rewrite app_nil_r. apply (settled_answer s _ rej l1 l2 x); auto.
      * apply (settled_answer s _ rej l1 l2 x); auto.
    + inversion Hstep; subst. simpl. now rewrite app_nil_r.
Qed.

Lemma run_settled (events : list Event) :
  forall s rej s' h,
    consistent s -> settled s rej -> run s events = Some (s', h) ->
    settled s' (rej ++ rejected h).
Proof.
  induction events as [|e events IH]; intros s rej s' h Hc Hs Hrun; simpl in Hrun.
  - inversion Hrun; subst. simpl. now rewrite app_nil_r.
  - destruct (step s e) as [[s1 out]|] eqn:He; [|discriminate].
    destruct (run s1 events) as [[s2 h2]|] eqn:Hr; [|discriminate].
    inversion Hrun; subst. simpl.
    rewrite rejected_app, rejected_effects, app_assoc.
    apply (IH s1); [|now apply (step_settled s e)|exact Hr].
    now destruct (step_consistent _ _ _ _ Hc He).
Qed.

(** X7.  Over every run, no request is both handed to its handler and answered
    by the middleware, none is answered by the middleware twice, and none is
    handed to its handler twice. *)
Theorem request_run_or_answered_once
  (cfg : Config) (t0 : Z) (events : list Event) (s : State) (h : list Obs) :
  run (create cfg t0) events = Some (s, h) ->
  NoDup (admitted h) /\
  NoDup (rejected h) /\
  (forall r, In r (rejected h) -> ~ In r (admitted h)) /\
  (forall r, In r (rejected h) -> ~ In r (map res (requestQueue s))) /\
  (forall r, In r (admitted h) \/ In r (rejected h) -> (r < nextRes s)%nat).
Proof.
  intros Hrun.
  destruct (run_consistent _ _ _ _ (create_consistent cfg t0) Hrun)
    as ((Hnd & _ & Hmon & _) & _ & Hadm).
  simpl in Hadm.
  assert (settled (create cfg t0) []) as H0.
  { split; [constructor|intros r []]. }
  destruct (run_settled _ _ _ _ _ (create_consistent cfg t0) H0 Hrun) as [Hrej H].
  simpl in Hrej, H. rewrite Hadm in *.
  split; [exact Hnd|]. split; [exact Hrej|]. split; [|split].
  - intros r Hr. now apply H.
  - intros r Hr. now apply H.
  - intros r [Hr|Hr]; [now apply Hmon|now apply H].
Qed.
(** ** When the limit moves *)

Lemma handleResponse_limit (s : State) (r : nat) (c now : Z) s' out :
  handleResponse s r c now = (s', out) ->
  limit s' <> limit s ->
  enableAdaptiveThrottling (config s) = true /\
  (exists m, find_monitor r (monitors s) = Some m /\ responseHandled m = false) /\
  5000 <= now - lastAdaptiveCheck s /\
  lastAdaptiveCheck s' = now /\
  5 <= JS.len (responseTimeHistory s') /\
  limit s' = adjust (limit s) (mean (responseTimeHistory s')) (mean (errorRateHistory s'))
                    (getPercentile (responseTimeHistory s') 95).
Proof.
  intros Hh Hne.
  destruct (handleResponse_cases _ _ _ _ _ _ Hh)
    as [(-> & _)|(m & s4 & Hf & Hm & Hp & ->)]; [contradiction|].
  unfold processNextInQueue in Hp.
  destruct (processNextInQueue_from_cases _ _ _ _ _ eq_refl Hp)
    as (Hc & Hrt & Her & Hlast & _).
  simpl in Hc, Hlast.
  assert (limit s4 = limit s) as Hlim by (unfold limit; now rewrite Hc).
  rewrite <- Hc.
  destruct (enableAdaptiveThrottling (config s4)); [|contradiction].
  split; [reflexivity|]. split; [eauto|].
  unfold checkAdaptiveThrottling in *.
  destruct (now - lastAdaptiveCheck s4 <? 5000) eqn:E1; [contradiction|].
  apply Z.ltb_ge in E1. rewrite Hlast in E1. split; [exact E1|].
  change (responseTimeHistory (set_lastAdaptiveCheck s4 now)) with (responseTimeHistory s4)
    in *.
  change (errorRateHistory (set_lastAdaptiveCheck s4 now)) with (errorRateHistory s4) in *.
  change (limit (set_lastAdaptiveCheck s4 now)) with (limit s4) in *.
  destruct (JS.len (responseTimeHistory s4) <? 5) eqn:E2; [contradiction|].
  apply Z.ltb_ge in E2. simpl. rewrite Hlim. auto.
Qed.

(** X8.  The limit moves only in the call that records a completion, with
    adaptive throttling on, at least 5 s after the previous check and with at
    least five samples; the new limit is computed from the histories that
    already hold the completion just recorded.  Arrivals and queue timers
    never move it. *)
Theorem limit_moves_only_at_checks (s : State) (e : Event) s' out :
  step s e = Some (s', out) ->
  limit s' <> limit s ->
  enableAdaptiveThrottling (config s) = true /\
  (exists r m, finished_res e = Some r /\
               find_monitor r (monitors s) = Some m /\ responseHandled m = false) /\
  5000 <= event_time e - lastAdaptiveCheck s /\
  lastAdaptiveCheck s' = event_time e /\
  5 <= JS.len (responseTimeHistory s') /\
  limit s' = adjust (limit s) (mean (responseTimeHistory s')) (mean (errorRateHistory s'))
                    (getPercentile (responseTimeHistory s') 95).
Proof.
  intros Hstep Hne.
  destruct e as [p now|r c now|r c now|r c now|r now]; simpl in Hstep |- *.
  - exfalso. apply Hne. unfold middleware in Hstep.
    destruct (limit (set_nextRes s (S (nextRes s)))
              <=? activeRequests (set_nextRes s (S (nextRes s)))).
    + unfold queueRequest in Hstep. simpl in Hstep.
      destruct (maxQueueSize (config s) <=? JS.len (requestQueue s)).
      * inversion Hstep; subst. reflexivity.
      * destruct (getRequestPriority (priorityLevels (config s)) p); [|discriminate].
        inversion Hstep; subst. reflexivity.
    + inversion Hstep; subst. reflexivity.
  - destruct (handleResponse s r c now) as [s1 out1] eqn:Hh.
    inversion Hstep; subst.
    destruct (handleResponse_limit _ _ _ _ _ _ Hh Hne) as (A & (m & B) & C & D & E & F).
    split; [exact A|]. split; [exists r, m; auto|]. auto.
  - destruct (handleResponse s r c now) as [s1 out1] eqn:Hh.
    inversion Hstep; subst.
    destruct (handleResponse_limit _ _ _ _ _ _ Hh Hne) as (A & (m & B) & C & D & E & F).
    split; [exact A|]. split; [exists r, m; auto|]. auto.
  - destruct (handleResponse s r (if c =? 0 then 499 else c) now) as [s1 out1] eqn:Hh.
    inversion Hstep; subst.
    destruct (handleResponse_limit _ _ _ _ _ _ Hh Hne) as (A & (m & B) & C & D & E & F).
    split; [exact A|]. split; [exists r, m; auto|]. auto.
  - exfalso. apply Hne. unfold timeoutQueuedRequest in Hstep.
    destruct (remove_first r (requestQueue s)) as [q'|].
    + destruct (has_sent (set_queue s q') r); inversion Hstep; subst; reflexivity.
    + inversion Hstep; subst. reflexivity.
Qed.

(** ** The order of the four conditions *)

Lemma Qlt_true (a b : Q) : LoadBalancer.Qlt a b = true <-> (a < b)%Q.
Proof.
  unfold LoadBalancer.Qlt. rewrite negb_true_iff. split.
  - intros H. apply Qnot_le_lt. intros Hle. apply Qle_bool_iff in Hle. congruence.
  - intros H. destruct (Qle_bool b a) eqn:E; [|reflexivity].
    apply Qle_bool_iff in E. exfalso. apply (Qlt_not_le _ _ H E).
Qed.

Lemma excellent_is_good (avg err : Q) (p95 : Z) :
  excellent_performance avg err = true -> p95 < 3000 ->
  good_performance avg err p95 = true.
Proof.
  unfold excellent_performance, good_performance. intros H Hp.
  apply andb_true_iff in H as [H1 H2].
  apply Qlt_true in H1, H2.
  apply andb_true_iff. split; [apply andb_true_iff; split|].
  - apply Qlt_true. apply (Qlt_trans _ _ _ H1). reflexivity.
  - apply Qlt_true. apply (Qlt_trans _ _ _ H2). reflexivity.
  - now apply Z.ltb_lt.
Qed.

(** X9.  [checkAdaptiveThrottling] tests good performance before excellent
    performance.  So whenever the excellent condition holds with a 95th
    percentile below 3000, the step is the good one (+10, capped at 400); the
    excellent step (+15, capped at 500) is taken only with a 95th percentile
    of 3000 or more; and a good check cuts a limit above 400 down to 400. *)
Theorem excellent_step_shadowed (limit : Z) (avg err : Q) (p95 : Z) :
  extreme_load avg err p95 = false ->
  high_load avg err p95 = false ->
  (excellent_performance avg err = true -> p95 < 3000 ->
   adjust limit avg err p95 = Z.min 400 (limit + 10)) /\
  (excellent_performance avg err = true ->
   adjust limit avg err p95 = Z.min 500 (limit + 15) -> 3000 <= p95) /\
  (good_performance avg err p95 = true -> 400 < limit ->
   adjust limit avg err p95 = 400).
Proof.
  intros He Hh. unfold adjust. rewrite He, Hh. split; [|split].
  - intros Hx Hp. rewrite (excellent_is_good _ _ _ Hx Hp). reflexivity.
  - intros Hx Ha.
    destruct (Z.lt_ge_cases p95 3000) as [Hp|Hp]; [|lia].
    rewrite (excellent_is_good _ _ _ Hx Hp) in Ha. lia.
  - intros Hg Hl. rewrite Hg. lia.
Qed.

Lemma excellent_step_shadowed_witness :
  (excellent_performance (500#1) (0#1) = true -> 100 < 3000 ->
   adjust 450 (500#1) (0#1) 100 = Z.min 400 (450 + 10)) /\
  (excellent_performance (500#1) (0#1) = true ->
   adjust 450 (500#1) (0#1) 100 = Z.min 500 (450 + 15) -> 3000 <= 100) /\
  (good_performance (500#1) (0#1) 100 = true -> 400 < 450 ->
   adjust 450 (500#1) (0#1) 100 = 400).
Proof.
  apply (excellent_step_shadowed 450 (500#1) (0#1) 100); reflexivity.
Defined.

(** ** Concrete runs *)

Lemma queue_within_maxQueueSize_witness :
  exists s h,
    run (create tight_config 0) overflow_events = Some (s, h) /\
    (JS.len (requestQueue s) <= Z.max 0 (maxQueueSize tight_config) /\
     (forall p now s' out,
         step s (Arrive p now) = Some (s', out) ->
         (In (Respond (nextRes s) 503 "QUEUE_FULL") out <->
          limit s <= activeRequests s /\
          maxQueueSize tight_config <= JS.len (requestQueue s)) /\
         (In (Respond (nextRes s) 503 "QUEUE_FULL") out ->
          out = [Respond (nextRes s) 503 "QUEUE_FULL"] /\
          requestQueue s' = requestQueue s /\ activeRequests s' = activeRequests s))).
Proof.
  eexists. eexists. split; [vm_compute; reflexivity|].
  eapply (queue_within_maxQueueSize tight_config 0 overflow_events).
  vm_compute. reflexivity.
Defined.

Lemma histories_hold_last_hundred_witness :
  exists s h,
    run (create tight_config 0) (burst 120) = Some (s, h) /\
    (responseTimeHistory s
     = last_entries 100 (map fst (recordings (create tight_config 0) (burst 120))) /\
     errorRateHistory s
     = last_entries 100 (map snd (recordings (create tight_config 0) (burst 120))) /\
     completions s = List.length (recordings (create tight_config 0) (burst 120)) /\
     List.length (responseTimeHistory s) = Nat.min 100 (completions s) /\
     List.length (errorRateHistory s) = Nat.min 100 (completions s) /\
     Forall (fun x => x = 0 \/ x = 1) (errorRateHistory s)).
Proof.
  eexists. eexists. split; [vm_compute; reflexivity|].
  eapply (histories_hold_last_hundred tight_config 0 (burst 120)).
  vm_compute. reflexivity.
Defined.

Lemma getStatus_ranges_witness :
  exists s h,
    chronological 0 overflow_events /\
    run (create tight_config 0) overflow_events = Some (s, h) /\
    (0 <= status_activeRequests (getStatus s) /\
     0 <= status_queuedRequests (getStatus s) <= Z.max 0 (maxQueueSize tight_config) /\
     status_maxQueueSize (getStatus s) = maxQueueSize tight_config /\
     (0 <= status_avgResponseTime (getStatus s))%Q /\
     (0 <= status_errorRate (getStatus s) <= 1)%Q /\
     (status_utilizationPercent (getStatus s) = None <-> limit s = 0) /\
     (forall u, status_utilizationPercent (getStatus s) = Some u ->
                0 < limit s -> (0 <= u)%Q)).
Proof.
  eexists. eexists.
  split; [simpl; repeat split; lia|]. split; [vm_compute; reflexivity|].
  eapply (getStatus_ranges tight_config 0 overflow_events).
  - simpl. repeat split; lia.
  - vm_compute. reflexivity.
Defined.

Lemma request_run_or_answered_once_witness :
  exists s h,
    run (create tight_config 0) overflow_events = Some (s, h) /\
    (NoDup (admitted h) /\
     NoDup (rejected h) /\
     (forall r, In r (rejected h) -> ~ In r (admitted h)) /\
     (forall r, In r (rejected h) -> ~ In r (map res (requestQueue s))) /\
     (forall r, In r (admitted h) \/ In r (rejected h) -> (r < nextRes s)%nat)).
Proof.
  eexists. eexists. split; [vm_compute; reflexivity|].
  eapply (request_run_or_answered_once tight_config 0 overflow_events).
  vm_compute. reflexivity.
Defined.

Lemma limit_moves_only_at_checks_witness :
  exists s' out,
    step before_first_check (Send 4 500 5000) = Some (s', out) /\
    limit s' <> limit before_first_check /\
    (enableAdaptiveThrottling (config before_first_check) = true /\
     (exists r m, finished_res (Send 4 500 5000) = Some r /\
                  find_monitor r (monitors before_first_check) = Some m /\
                  responseHandled m = false) /\
     5000 <= event_time (Send 4 500 5000) - lastAdaptiveCheck before_first_check /\
     lastAdaptiveCheck s' = event_time (Send 4 500 5000) /\
     5 <= JS.len (responseTimeHistory s') /\
     limit s' = adjust (limit before_first_check)
                       (mean (responseTimeHistory s')) (mean (errorRateHistory s'))
                       (getPercentile (responseTimeHistory s') 95)).
Proof.
  eexists. eexists. split; [vm_compute; reflexivity|].
  split; [vm_compute; discriminate|].
  eapply (limit_moves_only_at_checks before_first_check (Send 4 500 5000)).
  - vm_compute. reflexivity.
  - vm_compute. discriminate.
Defined.

End LoadBalancerProofs.

(* ===================================================================== *)
(** * Properties of the job queue                                         *)
(* ===================================================================== *)

Module JobQueueProofs.
Import JobQueue.

(** ** The map *)

Lemma get_set (k : string) (j : Job) (m : list (string * Job)) :
  get k (set k j m) = Some j.
Proof.
  induction m as [|[k' j'] m IH]; simpl.
  - now rewrite String.eqb_refl.
  - destruct (String.eqb k' k) eqn:E; simpl; now rewrite E.
Qed.

Lemma find_none_values_set (p : Job -> bool) (k : string) (j : Job) (m : list (string * Job)) :
  find p (values m) = None -> p j = true ->
  find p (values (set k j m)) = Some j.
Proof.
  unfold values. induction m as [|[k' j'] m IH]; simpl; intros Hn Hp.
  - now rewrite Hp.
  - destruct (p j') eqn:E; [discriminate|].
    destruct (String.eqb k' k); simpl.
    + now rewrite Hp.
    + rewrite E. now apply IH.
Qed.

Lemma find_modify_set (p : Job -> bool) (f : Job -> Job) (k : string) (j : Job)
  (m : list (string * Job)) :
  find p (values m) = None -> p (f j) = true ->
  find p (values (modify k f (set k j m))) = Some (f j).
Proof.
  unfold values. induction m as [|[k' j'] m IH]; simpl; intros Hn Hp.
  - rewrite String.eqb_refl. simpl. now rewrite Hp.
  - destruct (p j') eqn:E; [discriminate|].
    destruct (String.eqb k' k) eqn:Ek; simpl; rewrite Ek; simpl.
    + now rewrite Hp.
    + rewrite E. now apply IH.
Qed.

Lemma keys_modify (k : string) (f : Job -> Job) (m : list (string * Job)) :
  keys (modify k f m) = keys m.
Proof.
  unfold keys. induction m as [|[k' j'] m IH]; simpl; auto.
  destruct (String.eqb k' k); simpl; congruence.
Qed.

Lemma set_fresh (k : string) (j : Job) (m : list (string * Job)) :
  ~ In k (keys m) -> set k j m = m ++ [(k, j)].
Proof.
  unfold keys. induction m as [|[k' j'] m IH]; simpl; intros H; auto.
  destruct (String.eqb k' k) eqn:E.
  - apply String.eqb_eq in E. subst. exfalso. apply H. now left.
  - f_equal. apply IH. intros Hin. apply H. now right.
Qed.

Lemma keys_app {A : Type} (m1 m2 : list (string * A)) :
  keys (m1 ++ m2) = keys m1 ++ keys m2.
Proof. unfold keys. apply map_app. Qed.

Lemma in_keys {A : Type} (k : string) (a : A) (m : list (string * A)) :
  In (k, a) m -> In k (keys m).
Proof. intros H. unfold keys. apply in_map_iff. now exists (k, a). Qed.

Lemma keys_in {A : Type} (k : string) (m : list (string * A)) :
  In k (keys m) -> exists a, In (k, a) m.
Proof.
  unfold keys. intros H. apply in_map_iff in H as ([k' a] & E & H). simpl in E. subst. eauto.
Qed.

Lemma NoDup_keys_inj {A : Type} (k : string) (a b : A) (m : list (string * A)) :
  NoDup (keys m) -> In (k, a) m -> In (k, b) m -> a = b.
Proof.
  unfold keys. induction m as [|[k' c] m IH]; simpl; intros Hnd Ha Hb; [contradiction|].
  inversion Hnd as [|? ? Hnot Hnd']; subst.
  destruct Ha as [Ha|Ha], Hb as [Hb|Hb].
  - congruence.
  - inversion Ha; subst. exfalso. apply Hnot. now apply (in_keys k b).
  - inversion Hb; subst. exfalso. apply Hnot. now apply (in_keys k a).
  - now apply IH.
Qed.

Lemma get_in (k : string) (j : Job) (m : list (string * Job)) :
  get k m = Some j -> In (k, j) m.
Proof.
  induction m as [|[k' j'] m IH]; simpl; [discriminate|].
  destruct (String.eqb k' k) eqn:E.
  - apply String.eqb_eq in E. intros H. inversion H; subst. now left.
  - intros H. right. now apply IH.
Qed.

Lemma in_get (k : string) (j : Job) (m : list (string * Job)) :
  NoDup (keys m) -> In (k, j) m -> get k m = Some j.
Proof.
  intros Hnd Hin. destruct (get k m) as [j'|] eqn:E.
  - apply get_in in E. f_equal. now apply (NoDup_keys_inj k j' j m).
  - exfalso. clear Hnd. induction m as [|[k' j'] m IH]; simpl in *; [contradiction|].
    destruct (String.eqb k' k) eqn:E'; [discriminate|].
    destruct Hin as [Hin|Hin]; [|now apply IH].
    inversion Hin; subst. now rewrite String.eqb_refl in E'.
Qed.

(** With distinct keys, [modify] rewrites the entry of its key and leaves the
    others. *)
Lemma in_modify (k : string) (f : Job -> Job) (m : list (string * Job)) k' j' :
  NoDup (keys m) ->
  (In (k', j') (modify k f m) <->
   (k' <> k /\ In (k', j') m) \/ (k' = k /\ exists j, In (k, j) m /\ j' = f j)).
Proof.
  unfold keys. induction m as [|[k0 j0] m IH]; simpl; intros Hnd.
  - split; [contradiction|]. intros [[_ []]|[_ (j & [] & _)]].
  - inversion Hnd as [|? ? Hnot Hnd']; subst.
    destruct (String.eqb k0 k) eqn:E.
    + apply String.eqb_eq in E. subst k0. simpl. split.
      * intros [H|H].
        -- inversion H; subst. right. split; auto. exists j0. auto.
        -- left. split; [|now right]. intros ->. apply Hnot.
           now apply (in_keys k j').
      * intros [[Hne [H|H]]|[-> (j & [H|H] & ->)]].
        -- inversion H; subst. congruence.
        -- now right.
        -- inversion H; subst. now left.
        -- exfalso. apply Hnot. now apply (in_keys k j).
    + apply String.eqb_neq in E. simpl. rewrite (IH Hnd'). split.
      * intros [H|[[Hne H]|[-> (j & H & ->)]]].
        -- inversion H; subst. left. split; auto.
        -- left. auto.
        -- right. split; auto. exists j. auto.
      * intros [[Hne [H|H]]|[-> (j & [H|H] & ->)]].
        -- now left.
        -- right. left. auto.
        -- inversion H; subst. congruence.
        -- right. right. split; auto. exists j. auto.
Qed.

Lemma mem_in (x : string) (l : list string) : mem x l = true <-> In x l.
Proof.
  unfold mem. rewrite existsb_exists. split.
  - intros (y & Hy & E). apply String.eqb_eq in E. now subst.
  - intros H. exists x. split; auto. apply String.eqb_refl.
Qed.

Lemma add_fresh (x : string) (l : list string) : ~ In x l -> add x l = l ++ [x].
Proof.
  intros H. unfold add. destruct (mem x l) eqn:E; auto.
  apply mem_in in E. contradiction.
Qed.

Lemma delete_absent (x : string) (l : list string) : ~ In x l -> delete x l = l.
Proof.
  unfold delete. induction l as [|y l IH]; simpl; intros H; auto.
  destruct (String.eqb x y) eqn:E.
  - apply String.eqb_eq in E. subst. exfalso. apply H. now left.
  - simpl. f_equal. apply IH. intros Hin. apply H. now right.
Qed.

Lemma delete_snoc (x : string) (l : list string) : ~ In x l -> delete x (l ++ [x]) = l.
Proof.
  intros H. unfold delete. rewrite filter_app. simpl. rewrite String.eqb_refl. simpl.
  rewrite app_nil_r. now apply delete_absent.
Qed.

Lemma keys_drop_call (k : string) (a : list (string * Z)) :
  NoDup (keys a) -> keys (drop_call k a) = delete k (keys a).
Proof.
  unfold keys. induction a as [|[k' t] a IH]; simpl; intros Hnd; auto.
  inversion Hnd as [|? ? Hnot Hnd']; subst. rewrite String.eqb_sym.
  destruct (String.eqb k k') eqn:E; simpl.
  - apply String.eqb_eq in E. subst. symmetry. now apply delete_absent.
  - f_equal. now apply IH.
Qed.

Lemma in_delete (x y : string) (l : list string) :
  In y (delete x l) <-> In y l /\ y <> x.
Proof.
  unfold delete. rewrite filter_In. split; intros [H1 H2]; split; auto.
  - intros ->. now rewrite String.eqb_refl in H2.
  - destruct (String.eqb x y) eqn:E; auto. apply String.eqb_eq in E. congruence.
Qed.

Lemma NoDup_delete (x : string) (l : list string) : NoDup l -> NoDup (delete x l).
Proof. unfold delete. apply NoDup_filter. Qed.

Lemma startTime_of_in (k : string) (a : list (string * Z)) :
  (exists t, startTime_of k a = Some t) <-> In k (keys a).
Proof.
  unfold keys. induction a as [|[k' t'] a IH]; simpl.
  - split; [intros [t H]; discriminate|contradiction].
  - destruct (String.eqb k' k) eqn:E.
    + apply String.eqb_eq in E. subst. split; eauto.
    + apply String.eqb_neq in E. rewrite IH. split; auto.
      intros [H|H]; [contradiction|auto].
Qed.

Lemma truthy_key (key : string) : key <> EmptyString -> JS.truthy (Some key) = true.
Proof. destruct key; [congruence|reflexivity]. Qed.

(** ** The bookkeeping invariant *)

Lemma invocations_none (k : string) (out : list Effect) :
  ~ In (Invoke k) out -> invocations k out = 0%nat.
Proof.
  unfold invocations. induction out as [|[k'] out IH]; simpl; intros H; auto.
  destruct (String.eqb k' k) eqn:E.
  - apply String.eqb_eq in E. subst. exfalso. apply H. now left.
  - apply IH. intros Hin. apply H. now right.
Qed.

Lemma invocations_app (k : string) (l1 l2 : list Effect) :
  invocations k (l1 ++ l2) = (invocations k l1 + invocations k l2)%nat.
Proof. unfold invocations. now rewrite filter_app, length_app. Qed.

Lemma in_values (j : Job) (m : list (string * Job)) :
  In j (values m) <-> exists k, In (k, j) m.
Proof.
  unfold values. rewrite in_map_iff. split.
  - intros ([k j'] & E & H). simpl in E. subst. eauto.
  - intros (k & H). exists (k, j). auto.
Qed.

Lemma attempts_allowed_pos (j : Job) : 1 <= attempts_allowed j.
Proof. unfold attempts_allowed. lia. Qed.

Lemma job_ok_frame (s s' : State) (out out' : list Effect) (k : string) (j : Job) :
  job_ok s out k j ->
  (In k (keys (awaiting s')) <-> In k (keys (awaiting s))) ->
  invocations k out' = invocations k out ->
  job_ok s' out' k j.
Proof.
  unfold job_ok. intros (H1 & H2 & H3 & H4 & H5) Ha Hi.
  rewrite Ha, Hi. auto.
Qed.

Lemma well_formed_added (s : State) (out : list Effect) (added added' : list string) :
  well_formed s out added -> incl added added' -> well_formed s out added'.
Proof.
  intros (H1 & H2 & H3 & H4 & H5 & H6 & H7 & H8) Hincl.
  unfold well_formed.
  split; [|split; [|split; [|split; [|split; [|split; [|split]]]]]]; auto.
Qed.

Lemma create_well_formed (cfg : QueueConfig) : well_formed (create cfg) [] [].
Proof.
  unfold well_formed, create. simpl.
  split; [constructor|]. split; [constructor|]. split; [reflexivity|].
  split; [intros k []|]. split; [intros k []|]. split; [intros k []|].
  split; [intros k j []|]. intros key j1 j2 _ [].
Qed.

Lemma registerHandler_well_formed (s : State) (t : string) out added :
  well_formed s out added -> well_formed (registerHandler s t) out added.
Proof. intros H. exact H. Qed.

Lemma addJob_well_formed (s : State) (jobId t d : string) (options : Options) (now : Z)
  out added :
  well_formed s out added -> ~ In jobId added ->
  well_formed (fst (addJob s jobId t d options now)) out (added ++ [jobId]).
Proof.
  intros Hwf Hfresh. pose proof Hwf as (H1 & H2 & H3 & H4 & H5 & H6 & H7 & H8).
  unfold addJob.
  destruct (if JS.truthy (opt_idempotencyKey options)
            then find (live_with_key (opt_idempotencyKey options)) (values (jobs s))
            else None) as [existing|] eqn:Hex; simpl.
  - apply (well_formed_added s out added); auto. apply incl_appl, incl_refl.
  - assert (~ In jobId (keys (jobs s))) as Hk by (intros Hin; apply Hfresh; auto).
    rewrite (set_fresh _ _ _ Hk).
    set (job := new_job (config s) jobId t d options now).
    unfold well_formed. simpl. rewrite keys_app. simpl.
    split; [|split; [|split; [|split; [|split; [|split; [|split]]]]]].
    + apply NoDup_app; auto.
      * repeat constructor. intros [].
      * intros a Ha [<-|[]]. contradiction.
    + assumption.
    + assumption.
    + intros k Hin. apply in_app_iff. left. auto.
    + intros k Hin. apply in_app_iff in Hin as [Hin|Hin]; apply in_app_iff; auto.
    + intros k Hin. apply in_app_iff. left. auto.
    + intros k j Hin. apply in_app_iff in Hin as [Hin|[Hin|[]]].
      * apply (job_ok_frame s _ out out); auto. reflexivity.
      * inversion Hin; subst k j. unfold job_ok. simpl.
        split; [reflexivity|]. split.
        { split; [discriminate|]. intros Hin'. exfalso. apply Hfresh. auto. }
        split.
        { rewrite invocations_none; [reflexivity|]. intros Hin'. apply Hfresh. auto. }
        split; [lia|]. pose proof (attempts_allowed_pos job). lia.
    + intros key j1 j2 Hkey Hj1 Hj2 Hl1 Hl2.
      unfold values in Hj1, Hj2. rewrite map_app in Hj1, Hj2. simpl in Hj1, Hj2.
      fold (values (jobs s)) in Hj1, Hj2.
      assert (forall j, In j (values (jobs s)) -> live_with_key (Some key) j = true ->
                        live_with_key (Some key) job = true -> False) as Hnew.
      { intros j Hj Hl Hlj. unfold live_with_key in Hlj. simpl in Hlj.
        apply andb_true_iff in Hlj as [Hk' _].
        destruct (opt_idempotencyKey options) as [key'|] eqn:Ho; [|discriminate].
        simpl in Hk'. apply String.eqb_eq in Hk'. subst key'.
        rewrite (truthy_key key Hkey) in Hex.
        apply (find_none _ _ Hex) in Hj. congruence. }
      apply in_app_iff in Hj1 as [Hj1|[E1|[]]], Hj2 as [Hj2|[E2|[]]].
      * now apply (H8 key).
      * exfalso. rewrite <- E2 in Hl2. exact (Hnew j1 Hj1 Hl1 Hl2).
      * exfalso. rewrite <- E1 in Hl1. exact (Hnew j2 Hj2 Hl2 Hl1).
      * congruence.
Qed.

Lemma cancelJob_well_formed (s : State) (jobId : string) out added :
  well_formed s out added -> well_formed (fst (cancelJob s jobId)) out added.
Proof.
  intros Hwf. pose proof Hwf as (H1 & H2 & H3 & H4 & H5 & H6 & H7 & H8).
  unfold cancelJob. destruct (get jobId (jobs s)) as [job|] eqn:Hg; [|exact Hwf].
  destruct (status_eqb (status job) Pending) eqn:Hst; [|exact Hwf]. simpl.
  assert (status job = Pending) as Hp by (destruct (status job); try discriminate; auto).
  apply get_in in Hg.
  unfold well_formed. simpl. rewrite keys_modify.
  split; [|split; [|split; [|split; [|split; [|split; [|split]]]]]]; auto.
  - intros k j Hin. apply (in_modify _ _ _ _ _ H1) in Hin
      as [[Hne Hin]|[-> (j0 & Hin & ->)]].
    + apply (job_ok_frame s _ out out); auto. reflexivity.
    + assert (j0 = job) as -> by (apply (NoDup_keys_inj jobId j0 job (jobs s)); auto).
      destruct (H7 _ _ Hg) as (J1 & J2 & J3 & J4 & J5).
      unfold job_ok, uncounted in *. rewrite Hp in *. simpl.
      split; [assumption|]. split.
      { split; [discriminate|]. intros Hin'. apply J2 in Hin'. discriminate. }
      split; [assumption|]. split; assumption.
  - intros key j1 j2 Hkey Hj1 Hj2 Hl1 Hl2.
    assert (forall j, In j (values (modify jobId (with_status Cancelled) (jobs s))) ->
                      live_with_key (Some key) j = true -> In j (values (jobs s))) as Hold.
    { intros j Hj Hl. apply in_values in Hj as (k & Hj).
      apply (in_modify _ _ _ _ _ H1) in Hj as [[Hne Hin]|[-> (j0 & Hin & ->)]].
      - apply in_values. eauto.
      - unfold live_with_key in Hl. simpl in Hl. rewrite andb_false_r in Hl.
        discriminate. }
    apply (H8 key); auto.
Qed.

Lemma settled_job_ok (s s' : State) (out : list Effect) (k : string) (j : Job)
  (o : Settlement) (start now : Z) :
  job_ok s out k j -> status j = Running -> ~ In k (keys (awaiting s')) ->
  let g := match o with
           | Fulfilled v => on_success start now v
           | Rejected message => on_failure (retryDelayMs (config s)) now message
           end in
  job_ok s' out k (g j) /\ idempotencyKey (g j) = idempotencyKey j /\
  status (g j) <> Cancelled.
Proof.
  unfold job_ok, uncounted, attempts_allowed. intros (J1 & J2 & J3 & J4 & J5) Hr Hk.
  rewrite Hr in *. destruct o as [v|message]; cbv zeta.
  - unfold on_success. simpl. repeat split; auto; try discriminate.
    intros H. contradiction.
  - unfold on_failure. simpl.
    destruct (retryCount j + 1 <? maxRetries j) eqn:E; simpl.
    + apply Z.ltb_lt in E. repeat split; auto; try discriminate; try lia.
      intros H. contradiction.
    + apply Z.ltb_ge in E. repeat split; auto; try discriminate; try lia.
      * intros H. contradiction.
      * right. split; [lia|]. eauto.
Qed.

Lemma settle_well_formed (s : State) (jobId : string) (o : Settlement) (now : Z) out added :
  well_formed s out added -> well_formed (settle s jobId o now) out added.
Proof.
  intros Hwf. pose proof Hwf as (H1 & H2 & H3 & H4 & H5 & H6 & H7 & H8).
  unfold settle. destruct (startTime_of jobId (awaiting s)) as [start|] eqn:Hs; [|exact Hwf].
  assert (In jobId (keys (awaiting s))) as Hin by (apply startTime_of_in; eauto).
  destruct (keys_in _ _ (H4 _ Hin)) as [job Hjob].
  pose proof (H7 _ _ Hjob) as Hok.
  assert (status job = Running) as Hrun by (destruct Hok as (_ & Hiff & _); now apply Hiff).
  set (g := match o with
            | Fulfilled v => on_success start now v
            | Rejected message => on_failure (retryDelayMs (config s)) now message
            end).
  assert (jobs (settle_state s jobId o start now) = modify jobId g (jobs s) /\
          awaiting (settle_state s jobId o start now) = drop_call jobId (awaiting s) /\
          running (settle_state s jobId o start now) = delete jobId (running s))
    as (Ej & Ea & Er) by (unfold settle_state; destruct o; simpl; auto).
  fold (settle_state s jobId o start now).
  set (s' := settle_state s jobId o start now) in *.
  assert (keys (awaiting s') = delete jobId (keys (awaiting s))) as Eka
    by (rewrite Ea; now apply keys_drop_call).
  assert (~ In jobId (keys (awaiting s'))) as Hnot
    by (rewrite Eka, in_delete; intros [_ Hne]; congruence).
  destruct (settled_job_ok s s' out jobId job o start now Hok Hrun Hnot)
    as (Hok' & Hkey' & Hlive'). fold g in Hok', Hkey', Hlive'.
  unfold well_formed. rewrite Ej, Er, Eka, keys_modify, H3.
  split; [|split; [|split; [|split; [|split; [|split; [|split]]]]]]; auto.
  - now apply NoDup_delete.
  - intros k Hk. apply in_delete in Hk as [Hk _]. auto.
  - intros k j Hkj. apply (in_modify _ _ _ _ _ H1) in Hkj
      as [[Hne Hkj]|[-> (j0 & Hkj & ->)]].
    + apply (job_ok_frame s _ out out); auto.
      rewrite Eka, in_delete. split; [now intros [? _]|]. intros ?. split; auto.
    + assert (j0 = job) as -> by (apply (NoDup_keys_inj jobId j0 job (jobs s)); auto).
      exact Hok'.
  - intros key j1 j2 Hkey Hj1 Hj2 Hl1 Hl2.
    assert (forall j, In j (values (modify jobId g (jobs s))) ->
                      live_with_key (Some key) j = true ->
                      exists k j0, In (k, j0) (jobs s) /\
                                   live_with_key (Some key) j0 = true /\
                                   ((k <> jobId /\ j = j0) \/ (k = jobId /\ j = g j0)))
      as Hold.
    { intros j Hj Hl. apply in_values in Hj as (k & Hj).
      apply (in_modify _ _ _ _ _ H1) in Hj as [[Hne Hj]|[-> (j0 & Hj & ->)]].
      - exists k, j. auto.
      - exists jobId, j0. split; [auto|]. split; [|auto].
        assert (j0 = job) as -> by (apply (NoDup_keys_inj jobId j0 job (jobs s)); auto).
        unfold live_with_key in *. rewrite Hkey' in Hl.
        apply andb_true_iff in Hl as [Hl _]. rewrite Hl, Hrun. reflexivity. }
    destruct (Hold j1 Hj1 Hl1) as (k1 & a1 & Ha1 & La1 & C1).
    destruct (Hold j2 Hj2 Hl2) as (k2 & a2 & Ha2 & La2 & C2).
    assert (a1 = a2) as Ea12.
    { apply (H8 key); auto; apply in_values; eauto. }
    subst a2.
    assert (k1 = k2) as Ek12.
    { destruct (H7 _ _ Ha1) as (I1 & _). destruct (H7 _ _ Ha2) as (I2 & _). congruence. }
    subst k2.
    destruct C1 as [[N1 ->]|[-> ->]], C2 as [[N2 ->]|[E2 ->]]; congruence.
Qed.

Lemma in_filter_keys (p : string * Job -> bool) (m : list (string * Job)) (k : string) :
  In k (keys (filter p m)) -> In k (keys m).
Proof.
  intros H. apply keys_in in H as [j H]. apply filter_In in H as [H _].
  now apply (in_keys k j).
Qed.

Lemma NoDup_keys_filter (p : string * Job -> bool) (m : list (string * Job)) :
  NoDup (keys m) -> NoDup (keys (filter p m)).
Proof.
  unfold keys. induction m as [|[k j] m IH]; simpl; intros H; [constructor|].
  inversion H as [|? ? Hnot Hnd]; subst.
  destruct (p (k, j)); simpl; auto.
  constructor; auto. intros Hin. apply Hnot. now apply (in_filter_keys p m).
Qed.

Ltac split_wf :=
  split; [|split; [|split; [|split; [|split; [|split; [|split]]]]]].

Lemma cleanup_well_formed (s : State) (now : Z) out added :
  well_formed s out added -> well_formed (cleanup s now) out added.
Proof.
  intros (H1 & H2 & H3 & H4 & H5 & H6 & H7 & H8).
  unfold cleanup, well_formed. simpl. split_wf.
  - now apply NoDup_keys_filter.
  - assumption.
  - assumption.
  - intros k Hk. destruct (keys_in _ _ (H4 _ Hk)) as [j Hj].
    apply (in_keys k j). apply filter_In. split; [exact Hj|].
    destruct (H7 _ _ Hj) as (_ & Hiff & _). apply Hiff in Hk. now rewrite Hk.
  - intros k Hk. apply H5. now apply in_filter_keys in Hk.
  - assumption.
  - intros k j Hkj. apply filter_In in Hkj as [Hkj _].
    apply (job_ok_frame s _ out out); auto. reflexivity.
  - intros key j1 j2 Hkey Hj1 Hj2. apply (H8 key j1 j2 Hkey).
    + apply in_values in Hj1 as [k Hj1]. apply filter_In in Hj1 as [Hj1 _].
      apply in_values. eauto.
    + apply in_values in Hj2 as [k Hj2]. apply filter_In in Hj2 as [Hj2 _].
      apply in_values. eauto.
Qed.

Lemma modify_modify (k : string) (f g : Job -> Job) (m : list (string * Job)) :
  modify k g (modify k f m) = modify k (fun j => g (f j)) m.
Proof.
  induction m as [|[k' j'] m IH]; simpl; auto.
  destruct (String.eqb k' k) eqn:E; simpl; rewrite E; congruence.
Qed.

(** Rewriting one job in a way that makes no job live leaves at most one
    live job for each key. *)
Lemma live_unique_modify (m : list (string * Job)) (k : string) (g : Job -> Job) :
  NoDup (keys m) ->
  (forall k' j, In (k', j) m -> id j = k') ->
  (forall key j1 j2,
      key <> EmptyString -> In j1 (values m) -> In j2 (values m) ->
      live_with_key (Some key) j1 = true -> live_with_key (Some key) j2 = true ->
      j1 = j2) ->
  (forall j key, In (k, j) m -> live_with_key (Some key) (g j) = true ->
                 live_with_key (Some key) j = true) ->
  forall key j1 j2,
    key <> EmptyString ->
    In j1 (values (modify k g m)) -> In j2 (values (modify k g m)) ->
    live_with_key (Some key) j1 = true -> live_with_key (Some key) j2 = true ->
    j1 = j2.
Proof.
  intros Hnd Hid Huniq Hg key j1 j2 Hkey Hj1 Hj2 Hl1 Hl2.
  assert (forall j, In j (values (modify k g m)) ->
                    live_with_key (Some key) j = true ->
                    exists k' j0, In (k', j0) m /\
                                  live_with_key (Some key) j0 = true /\
                                  ((k' <> k /\ j = j0) \/ (k' = k /\ j = g j0)))
    as Hold.
  { intros j Hj Hl. apply in_values in Hj as (k' & Hj).
    apply (in_modify _ _ _ _ _ Hnd) in Hj as [[Hne Hj]|[-> (j0 & Hj & ->)]].
    - exists k', j. auto.
    - exists k, j0. split; [auto|]. split; [|auto]. now apply Hg. }
  destruct (Hold j1 Hj1 Hl1) as (k1 & a1 & Ha1 & La1 & C1).
  destruct (Hold j2 Hj2 Hl2) as (k2 & a2 & Ha2 & La2 & C2).
  assert (a1 = a2) as Ea12 by (apply (Huniq key); auto; apply in_values; eauto).
  subst a2.
  assert (k1 = k2) as Ek12 by (rewrite <- (Hid _ _ Ha1), <- (Hid _ _ Ha2); reflexivity).
  subst k2.
  destruct C1 as [[N1 ->]|[-> ->]], C2 as [[N2 ->]|[E2 ->]]; congruence.
Qed.

Lemma invocations_one (k k' : string) :
  invocations k' [Invoke k] = if String.eqb k k' then 1%nat else 0%nat.
Proof. unfold invocations. simpl. now destruct (String.eqb k k'). Qed.

Lemma startTime_of_absent (k : string) (a : list (string * Z)) :
  ~ In k (keys a) -> startTime_of k a = None.
Proof.
  intros H. destruct (startTime_of k a) as [t|] eqn:E; [|reflexivity].
  contradiction H. apply startTime_of_in. eauto.
Qed.

Lemma startTime_of_snoc (k : string) (t : Z) (a : list (string * Z)) :
  ~ In k (keys a) -> startTime_of k (a ++ [(k, t)]) = Some t.
Proof.
  unfold keys. induction a as [|[k' t'] a IH]; simpl; intros H.
  - now rewrite String.eqb_refl.
  - destruct (String.eqb k' k) eqn:E.
    + apply String.eqb_eq in E. contradiction H. now left.
    + apply IH. intros Hin. apply H. now right.
Qed.

Lemma drop_call_snoc (k : string) (t : Z) (a : list (string * Z)) :
  ~ In k (keys a) -> drop_call k (a ++ [(k, t)]) = a.
Proof.
  unfold keys. induction a as [|[k' t'] a IH]; simpl; intros H.
  - now rewrite String.eqb_refl.
  - destruct (String.eqb k' k) eqn:E.
    + apply String.eqb_eq in E. contradiction H. now left.
    + f_equal. apply IH. intros Hin. apply H. now right.
Qed.

(** A handler that throws before it returns leaves the queue as a handler
    that returns a promise which rejects at once. *)
Lemma processJob_thrown (s : State) (job : Job) (now : Z) (message : string) :
  ~ In (id job) (keys (awaiting s)) ->
  processJob s job now (Some message)
  = (settle (fst (processJob s job now None)) (id job) (Rejected message) now,
     snd (processJob s job now None)).
Proof.
  intros Hna. unfold processJob.
  destruct (maxConcurrency (config s) <=? JS.len (running s)).
  { simpl. unfold settle. now rewrite (startTime_of_absent _ _ Hna). }
  simpl. destruct (mem (type job) (handlers s)); simpl.
  - unfold settle. simpl. rewrite (startTime_of_snoc _ _ _ Hna).
    unfold settle_state. simpl. rewrite (drop_call_snoc _ _ _ Hna). reflexivity.
  - unfold settle. simpl. now rewrite (startTime_of_absent _ _ Hna).
Qed.

Lemma settle_jobs_other (s : State) (k : string) (o : Settlement) (now : Z)
  (k' : string) (j : Job) :
  NoDup (keys (jobs s)) -> k' <> k ->
  (In (k', j) (jobs (settle s k o now)) <-> In (k', j) (jobs s)).
Proof.
  intros Hnd Hne. unfold settle.
  destruct (startTime_of k (awaiting s)) as [start|]; [|reflexivity].
  unfold settle_state. destruct o; simpl; rewrite (in_modify _ _ _ _ _ Hnd); split;
    try (intros [[_ H]|[E _]]; [exact H|congruence]); intros H; left; auto.
Qed.

(** Starting a job that is pending, when its handler returns. *)
Lemma processJob_awaits_well_formed (s : State) (job : Job) (now : Z) out added s' out' :
  well_formed s out added ->
  In (id job, job) (jobs s) -> status job = Pending ->
  processJob s job now None = (s', out') ->
  well_formed s' (out ++ out') added /\
  (forall k j, k <> id job -> (In (k, j) (jobs s') <-> In (k, j) (jobs s))).
Proof.
  intros Hwf Hjob Hp H. pose proof Hwf as (H1 & H2 & H3 & H4 & H5 & H6 & H7 & H8).
  set (k := id job) in *.
  pose proof (H7 _ _ Hjob) as Hok.
  assert (~ In k (keys (awaiting s))) as Hna.
  { destruct Hok as (_ & Hiff & _). intros Hin. apply Hiff in Hin. congruence. }
  assert (forall k' j, In (k', j) (jobs s) -> id j = k') as Hids
    by (intros k' j Hin; now destruct (H7 _ _ Hin)).
  unfold processJob in H. fold k in H.
  destruct (maxConcurrency (config s) <=? JS.len (running s)).
  { inversion H; subst. rewrite app_nil_r. split; [exact Hwf|]. reflexivity. }
  simpl in H.
  destruct (mem (type job) (handlers s)).
  - inversion H; subst s' out'. clear H. simpl. split.
    + unfold well_formed. simpl. rewrite keys_modify, keys_app, H3. simpl.
      rewrite (add_fresh _ _ Hna). split_wf.
      * assumption.
      * apply NoDup_app; auto.
        -- repeat constructor. intros [].
        -- intros a Ha [<-|[]]. contradiction.
      * reflexivity.
      * intros k' Hk'. apply in_app_iff in Hk' as [Hk'|[<-|[]]]; auto.
        now apply (in_keys k job).
      * assumption.
      * intros k' Hk'. apply in_app_iff in Hk' as [Hk'|[Hk'|[]]]; auto.
        inversion Hk'; subst k'. apply H5. now apply (in_keys k job).
      * intros k' j Hkj. apply (in_modify _ _ _ _ _ H1) in Hkj
          as [[Hne Hkj]|[-> (j0 & Hkj & ->)]].
        -- apply (job_ok_frame s _ out); auto.
           ++ simpl. rewrite keys_app, in_app_iff. simpl.
              split; [intros [?|[?|[]]]; [auto|congruence]|auto].
           ++ rewrite invocations_app, invocations_one.
              destruct (String.eqb k k') eqn:E; [|lia].
              apply String.eqb_eq in E. congruence.
        -- assert (j0 = job) as -> by (apply (NoDup_keys_inj k j0 job (jobs s)); auto).
           destruct Hok as (J1 & J2 & J3 & J4 & J5).
           unfold job_ok, uncounted, attempts_allowed in *. rewrite Hp in *. simpl.
           split; [assumption|]. split.
           { split; [|reflexivity]. intros _. rewrite keys_app, in_app_iff. right. now left. }
           split.
           { rewrite invocations_app, invocations_one, String.eqb_refl. lia. }
           split; assumption.
      * apply live_unique_modify; auto.
        intros j key Hin Hl. unfold live_with_key in *. simpl in Hl.
        apply andb_true_iff in Hl as [Hl _]. rewrite Hl.
        assert (j = job) as -> by (apply (NoDup_keys_inj k j job (jobs s)); auto).
        now rewrite Hp.
    + intros k' j Hne. rewrite (in_modify _ _ _ _ _ H1). split.
      * intros [[_ Hin]|[E _]]; [exact Hin|congruence].
      * intros Hin. left. auto.
  - inversion H; subst s' out'. clear H. simpl. rewrite app_nil_r.
    rewrite modify_modify.
    set (g := fun j => with_error (NoHandler (type job))
                         (with_status Failed (with_status Running j))).
    split.
    + unfold well_formed. simpl. rewrite keys_modify, H3.
      rewrite (add_fresh _ _ Hna), (delete_snoc _ _ Hna). split_wf.
      * assumption.
      * assumption.
      * reflexivity.
      * assumption.
      * assumption.
      * assumption.
      * intros k' j Hkj. apply (in_modify _ _ _ _ _ H1) in Hkj
          as [[Hne Hkj]|[-> (j0 & Hkj & ->)]].
        -- apply (job_ok_frame s _ out out); auto. reflexivity.
        -- assert (j0 = job) as -> by (apply (NoDup_keys_inj k j0 job (jobs s)); auto).
           destruct Hok as (J1 & J2 & J3 & J4 & J5).
           unfold job_ok, uncounted, attempts_allowed in *. rewrite Hp in *. simpl.
           split; [assumption|]. split.
           { split; [discriminate|]. intros Hin. contradiction. }
           split; [assumption|]. split; [assumption|]. left. eauto.
      * apply live_unique_modify; auto.
        intros j key Hin Hl. unfold live_with_key in *. simpl in Hl.
        apply andb_true_iff in Hl as [Hl _]. rewrite Hl.
        assert (j = job) as -> by (apply (NoDup_keys_inj k j job (jobs s)); auto).
        now rewrite Hp.
    + intros k' j Hne. rewrite (in_modify _ _ _ _ _ H1). split.
      * intros [[_ Hin]|[E _]]; [exact Hin|congruence].
      * intros Hin. left. auto.
Qed.

(** Starting a job that is pending, whatever its handler does. *)
Lemma processJob_well_formed (s : State) (job : Job) (now : Z) (thrown : option string)
  out added s' out' :
  well_formed s out added ->
  In (id job, job) (jobs s) -> status job = Pending ->
  processJob s job now thrown = (s', out') ->
  well_formed s' (out ++ out') added /\
  (forall k j, k <> id job -> (In (k, j) (jobs s') <-> In (k, j) (jobs s))).
Proof.
  intros Hwf Hjob Hp H. destruct thrown as [message|];
    [|now apply (processJob_awaits_well_formed s job now out added)].
  assert (~ In (id job) (keys (awaiting s))) as Hna.
  { destruct Hwf as (_ & _ & _ & _ & _ & _ & H7 & _).
    destruct (H7 _ _ Hjob) as (_ & Hiff & _). intros Hin. apply Hiff in Hin. congruence. }
  rewrite (processJob_thrown _ _ _ _ Hna) in H.
  destruct (processJob s job now None) as [s1 out1] eqn:Hawait. simpl in H.
  injection H as <- <-.
  destruct (processJob_awaits_well_formed s job now out added s1 out1 Hwf Hjob Hp Hawait)
    as [Hwf1 Hframe].
  split; [now apply settle_well_formed|].
  intros k j Hne. rewrite <- (Hframe k j Hne).
  apply settle_jobs_other; [|exact Hne]. now destruct Hwf1.
Qed.

Lemma start_jobs_well_formed (now : Z) (throwing : list (string * string))
  (added : list string) (l : list Job) :
  forall s out s' out',
    well_formed s out added ->
    (forall job, In job l -> In (id job, job) (jobs s) /\ status job = Pending) ->
    NoDup (map id l) ->
    start_jobs l s now throwing = (s', out') ->
    well_formed s' (out ++ out') added.
Proof.
  induction l as [|job l IH]; intros s out s' out' Hwf Hl Hnd H; simpl in H.
  - inversion H; subst. now rewrite app_nil_r.
  - inversion Hnd as [|? ? Hnot Hnd']; subst.
    destruct (maxConcurrency (config s) <=? JS.len (running s)).
    { inversion H; subst. now rewrite app_nil_r. }
    destruct (mem (id job) (running s)).
    { apply (IH s out); auto. intros j Hj. apply Hl. now right. }
    destruct (processJob s job now (thrown_by (id job) throwing)) as [s1 out1] eqn:Hp.
    destruct (start_jobs l s1 now throwing) as [s2 out2] eqn:Hs.
    inversion H; subst s' out'. clear H.
    destruct (Hl job (or_introl eq_refl)) as [Hin Hst].
    destruct (processJob_well_formed s job now _ out added s1 out1 Hwf Hin Hst Hp)
      as [Hwf1 Hframe].
    rewrite app_assoc. apply (IH s1 (out ++ out1)); auto.
    intros j Hj. destruct (Hl j (or_intror Hj)) as [Hjin Hjst]. split; [|exact Hjst].
    apply Hframe; [|exact Hjin].
    intros E. apply Hnot. rewrite <- E. now apply in_map.
Qed.

Lemma map_id_values (m : list (string * Job)) :
  (forall k j, In (k, j) m -> id j = k) -> map id (values m) = keys m.
Proof.
  unfold values, keys. induction m as [|[k j] m IH]; simpl; intros H; auto.
  rewrite (H k j (or_introl eq_refl)). f_equal. apply IH.
  intros k' j' Hin. apply H. now right.
Qed.

(** A selection of jobs with distinct ids has distinct ids. *)
Lemma distinct_ids_filter (due : Job -> bool) (snapshot : list Job) :
  NoDup (map id snapshot) -> NoDup (map id (filter due snapshot)).
Proof.
  induction snapshot as [|job rest IH]; simpl; intros Hd.
  - constructor.
  - apply NoDup_cons_iff in Hd as [Hnew Hrest].
    destruct (due job); simpl; [|now apply IH].
    apply NoDup_cons; [|now apply IH].
    intros Hin. apply Hnew. apply in_map_iff in Hin as (other & E & Hin).
    apply filter_In in Hin as [Hin _]. apply in_map_iff. now exists other.
Qed.

Lemma processJobs_well_formed (s : State) (now : Z) (throwing : list (string * string))
  out added s' out' :
  well_formed s out added -> processJobs s now throwing = (s', out') ->
  well_formed s' (out ++ out') added.
Proof.
  intros Hwf H. pose proof Hwf as (H1 & _ & _ & _ & _ & _ & H7 & _).
  unfold processJobs in H.
  destruct (maxConcurrency (config s) <=? JS.len (running s)).
  { inversion H; subst. now rewrite app_nil_r. }
  assert (forall k j, In (k, j) (jobs s) -> id j = k) as Hids
    by (intros k j Hin; now destruct (H7 _ _ Hin)).
  pose proof (JSProofs.sort_perm by_priority_then_age (filter (due now) (values (jobs s))))
    as Hperm.
  apply (start_jobs_well_formed now throwing added
           (JS.sort by_priority_then_age (filter (due now) (values (jobs s))))
           s out s' out' Hwf); [| |exact H].
  - intros job Hin. apply (Permutation_in _ Hperm) in Hin.
    apply filter_In in Hin as [Hin Hd]. apply andb_true_iff in Hd as [Hd _].
    apply in_values in Hin as [k Hin]. rewrite (Hids _ _ Hin). split; [exact Hin|].
    destruct (status job); try discriminate; reflexivity.
  - apply (Permutation_NoDup (Permutation_map id (Permutation_sym Hperm))).
    apply distinct_ids_filter. now rewrite (map_id_values _ Hids).
Qed.

Lemma step_well_formed (s : State) (e : Event) out added s' out' :
  well_formed s out added ->
  (forall k, In k (event_ids e) -> ~ In k added) ->
  step s e = (s', out') ->
  well_formed s' (out ++ out') (added ++ event_ids e).
Proof.
  intros Hwf Hfresh H.
  destruct e as [t|jobId t d options now|jobId|now throwing|jobId o now|now];
    simpl in H |- *;
    try (inversion H; subst s' out'; clear H; rewrite ?app_nil_r).
  - exact Hwf.
  - apply addJob_well_formed; auto. apply Hfresh. now left.
  - now apply cancelJob_well_formed.
  - rewrite app_nil_r. now apply (processJobs_well_formed s now throwing).
  - now apply settle_well_formed.
  - now apply cleanup_well_formed.
Qed.

Lemma added_ids_cons (e : Event) (events : list Event) :
  added_ids (e :: events) = event_ids e ++ added_ids events.
Proof. destruct e; reflexivity. Qed.

Lemma run_well_formed (events : list Event) :
  forall s out added s' out',
    well_formed s out added ->
    NoDup (added ++ added_ids events) ->
    run s events = (s', out') ->
    well_formed s' (out ++ out') (added ++ added_ids events).
Proof.
  induction events as [|e events IH]; intros s out added s' out' Hwf Hnd H.
  - simpl in H. inversion H; subst. simpl. now rewrite !app_nil_r.
  - simpl in H. destruct (step s e) as [s1 out1] eqn:He.
    destruct (run s1 events) as [s2 out2] eqn:Hr. inversion H; subst s' out'. clear H.
    rewrite added_ids_cons in *. rewrite !app_assoc. rewrite app_assoc in Hnd.
    apply (IH s1 (out ++ out1) (added ++ event_ids e) s2 out2); auto.
    apply (step_well_formed s e out added s1 out1 Hwf); auto.
    intros k Hk Hin. apply NoDup_app_remove_r in Hnd.
    revert k Hin Hk. clear -Hnd. induction added as [|a added IH]; simpl; [contradiction|].
    intros k [->|Hin] Hk.
    + inversion Hnd; subst. apply H1. apply in_app_iff. now right.
    + inversion Hnd; subst. now apply (IH H2 k).
Qed.

(** What every run of the queue keeps true, with distinct generated ids. *)
Lemma reachable_well_formed (cfg : QueueConfig) (events : list Event) s out :
  NoDup (added_ids events) ->
  run (create cfg) events = (s, out) ->
  well_formed s out (added_ids events).
Proof.
  intros Hnd H.
  apply (run_well_formed events (create cfg) [] [] s out (create_well_formed cfg)); auto.
Qed.

(** ** Zero-valued options *)

(** C10 as the code has it.  [addJob] reads [priority] and [maxRetries]
    through [||], so an explicit 0 gives way to the default: priority 0
    becomes 5 and maxRetries 0 becomes the queue's configured value.  The
    options cannot ask for maxRetries 0: the job has it exactly when the
    configured value is 0 and the option is absent or 0.  A job that is
    never retried can be asked for all the same: with a maxRetries of 1, or
    of 1 or less, the first failure already makes the job failed. *)
Theorem addJob_zero_options
  (s : State) (jobId t d : string) (options : Options) (now : Z) :
  let job := new_job (config s) jobId t d options now in
  (JS.truthy (opt_idempotencyKey options) = false ->
   addJob s jobId t d options now = (set_jobs s (set jobId job (jobs s)), jobId) /\
   getJob (fst (addJob s jobId t d options now)) jobId = Some job) /\
  (opt_priority options = Some 0 -> priority job = 5) /\
  (opt_maxRetries options = Some 0 -> maxRetries job = config_maxRetries (config s)) /\
  (maxRetries job = 0 <->
   (opt_maxRetries options = None \/ opt_maxRetries options = Some 0) /\
   config_maxRetries (config s) = 0) /\
  (opt_maxRetries options = Some 1 ->
   forall delay stop message,
     status (on_failure delay stop message (with_status Running job)) = Failed) /\
  (maxRetries job <= 1 ->
   forall delay stop message,
     status (on_failure delay stop message (with_status Running job)) = Failed).
Proof.
  cbv zeta. split; [|split; [|split; [|split; [|split]]]].
  - intros H. split.
    + unfold addJob. now rewrite H.
    + unfold addJob. rewrite H. simpl. unfold getJob. simpl. apply get_set.
  - intros H. simpl. now rewrite H.
  - intros H. simpl. now rewrite H.
  - simpl. unfold JS.or_default.
    destruct (opt_maxRetries options) as [n|].
    + destruct (n =? 0) eqn:E.
      * apply Z.eqb_eq in E. subst n. split; [auto|]. now intros [_ H].
      * apply Z.eqb_neq in E. split; [contradiction|].
        intros [[H|H] _]; [discriminate|]. congruence.
    + split; [auto|]. now intros [_ H].
  - intros H delay stop message. unfold on_failure. simpl. now rewrite H.
  - intros H delay stop message. unfold on_failure.
    cbn [retryCount maxRetries with_retryCount with_status new_job].
    destruct (0 + 1 <? JS.or_default (opt_maxRetries options) (config_maxRetries (config s)))
      eqn:E; [|reflexivity].
    apply Z.ltb_lt in E. simpl in H. lia.
Qed.

Lemma addJob_zero_options_witness :
  let s := create no_retries_config in
  let job := new_job (config s) "job_1" "email" "hello" zero_options 0 in
  (JS.truthy (opt_idempotencyKey zero_options) = false ->
   addJob s "job_1" "email" "hello" zero_options 0
     = (set_jobs s (set "job_1" job (jobs s)), "job_1") /\
   getJob (fst (addJob s "job_1" "email" "hello" zero_options 0)) "job_1" = Some job) /\
  (opt_priority zero_options = Some 0 -> priority job = 5) /\
  (opt_maxRetries zero_options = Some 0 ->
   maxRetries job = config_maxRetries (config s)) /\
  (maxRetries job = 0 <->
   (opt_maxRetries zero_options = None \/ opt_maxRetries zero_options = Some 0) /\
   config_maxRetries (config s) = 0) /\
  (opt_maxRetries zero_options = Some 1 ->
   forall delay stop message,
     status (on_failure delay stop message (with_status Running job)) = Failed) /\
  (maxRetries job <= 1 ->
   forall delay stop message,
     status (on_failure delay stop message (with_status Running job)) = Failed).
Proof.
  exact (addJob_zero_options (create no_retries_config) "job_1" "email" "hello"
           zero_options 0).
Defined.

(** C10 as stated fails in its conclusion: [maxRetries: 1] asks for a job
    that is never retried.  Its handler is called once, the failure makes the
    job failed, and no later tick calls the handler again. *)
Lemma never_retried_counterexample :
  (let '(s, out) := run (create default_queue_config) one_failure in
   option_map status (getJob s "job_1") = Some Failed /\
   invocations "job_1" out = 1%nat /\ retries "job_1" out = 0%nat) /\
  ~ (forall options delay stop message,
       status (on_failure delay stop message
                 (with_status Running
                    (new_job default_queue_config "job_1" "email" "hello" options 0)))
       = Pending).
Proof.
  split; [vm_compute; auto|].
  intros H. specialize (H (with_maxRetries 1) 60000 1500 "boom").
  vm_compute in H. discriminate H.
Qed.

(** ** Idempotency keys *)

Lemma live_with_key_status (key : option string) (j : Job) (st : Status) :
  live_with_key key j = true -> st <> Cancelled ->
  live_with_key key (with_status st j) = true.
Proof.
  unfold live_with_key. simpl. intros H Hst.
  apply andb_true_iff in H as [H _]. rewrite H. simpl.
  destruct st; auto; congruence.
Qed.

(** The lookup of [addJob], in any state. *)
Lemma addJob_lookup
  (s : State) (jobId t d key : string) (options : Options) (now : Z) :
  key <> EmptyString ->
  opt_idempotencyKey options = Some key ->
  (forall existing,
      find (live_with_key (Some key)) (values (jobs s)) = Some existing ->
      addJob s jobId t d options now = (s, id existing) /\
      status existing <> Cancelled /\ idempotencyKey existing = Some key) /\
  (find (live_with_key (Some key)) (values (jobs s)) = None ->
   let s1 := set_jobs s (set jobId (new_job (config s) jobId t d options now) (jobs s)) in
   addJob s jobId t d options now = (s1, jobId) /\
   forall st jobId2 t2 d2 options2 now2,
     st <> Cancelled -> opt_idempotencyKey options2 = Some key ->
     let s2 := set_jobs s1 (modify jobId (with_status st) (jobs s1)) in
     addJob s2 jobId2 t2 d2 options2 now2 = (s2, jobId)).
Proof.
  intros Hkey Ho. pose proof (truthy_key key Hkey) as Ht. split.
  - intros existing Hf. unfold addJob. rewrite Ho, Ht, Hf. split; [reflexivity|].
    apply find_some in Hf as [_ Hl]. unfold live_with_key in Hl.
    apply andb_true_iff in Hl as [Hk Hs]. split.
    + intros E. rewrite E in Hs. discriminate Hs.
    + unfold key_eqb in Hk. destruct (idempotencyKey existing) as [k'|]; [|discriminate].
      apply String.eqb_eq in Hk. now subst.
  - intros Hf. cbv zeta. split.
    + unfold addJob. now rewrite Ho, Ht, Hf.
    + intros st jobId2 t2 d2 options2 now2 Hst Ho2. unfold addJob. rewrite Ho2, Ht.
      simpl.
      rewrite (find_modify_set (live_with_key (Some key)) (with_status st) jobId
                 (new_job (config s) jobId t d options now) (jobs s) Hf).
      * reflexivity.
      * apply live_with_key_status; [|exact Hst].
        unfold live_with_key. simpl. rewrite Ho. simpl. now rewrite String.eqb_refl.
Qed.

Lemma find_exists {A : Type} (p : A -> bool) (l : list A) (x : A) :
  In x l -> p x = true -> exists y, find p l = Some y.
Proof.
  induction l as [|a l IH]; simpl; intros Hin Hp; [contradiction|].
  destruct (p a) eqn:E; [eauto|].
  destruct Hin as [->|Hin]; [congruence|]. now apply IH.
Qed.

(** C4 as the code has it.  Along every run in which the generated ids are
    distinct, and for every non-empty key: while a job with the key is in
    the map with a status other than cancelled - pending, running, completed
    or failed alike - [addJob] with that key returns the id of that job and
    changes nothing.  When no such job is in the map, [addJob] stores a new
    job under the generated id and returns that id. *)
Theorem addJob_idempotency (cfg : QueueConfig) :
  (forall events s out k j key jobId t d options now,
      NoDup (added_ids events) ->
      run (create cfg) events = (s, out) ->
      getJob s k = Some j ->
      idempotencyKey j = Some key -> key <> EmptyString -> status j <> Cancelled ->
      opt_idempotencyKey options = Some key ->
      addJob s jobId t d options now = (s, k)) /\
  (forall s key jobId t d options now,
      key <> EmptyString ->
      opt_idempotencyKey options = Some key ->
      find (live_with_key (Some key)) (values (jobs s)) = None ->
      addJob s jobId t d options now
      = (set_jobs s (set jobId (new_job (config s) jobId t d options now) (jobs s)),
         jobId) /\
      getJob (fst (addJob s jobId t d options now)) jobId
      = Some (new_job (config s) jobId t d options now)).
Proof.
  split.
  - intros events s out k j key jobId t d options now Hnd Hrun Hget Hk Hkey Hst Ho.
    pose proof (reachable_well_formed cfg events s out Hnd Hrun)
      as (H1 & _ & _ & _ & _ & _ & H7 & H8).
    apply get_in in Hget. destruct (H7 _ _ Hget) as (Hid & _).
    assert (In j (values (jobs s))) as Hv by (apply in_values; eauto).
    assert (live_with_key (Some key) j = true) as Hl.
    { unfold live_with_key. rewrite Hk. simpl. rewrite String.eqb_refl. simpl.
      destruct (status j); auto; congruence. }
    destruct (find_exists _ _ j Hv Hl) as [existing Hf].
    destruct (addJob_lookup s jobId t d key options now Hkey Ho) as [Hsome _].
    destruct (Hsome existing Hf) as (Ha & _).
    pose proof (find_some _ _ Hf) as [Hev Hel].
    rewrite (H8 key existing j Hkey Hev Hv Hel Hl) in Ha. now rewrite Hid in Ha.
  - intros s key jobId t d options now Hkey Ho Hf.
    destruct (addJob_lookup s jobId t d key options now Hkey Ho) as [_ Hnone].
    destruct (Hnone Hf) as [Ha _]. split; [exact Ha|].
    rewrite Ha. unfold getJob. simpl. apply get_set.
Qed.

Lemma addJob_idempotency_witness :
  let s := fst (run (create default_queue_config) completed_under_key) in
  option_map status (getJob s "job_1") = Some Completed /\
  addJob s "job_2" "email" "again" (with_key "order-17") 5000 = (s, "job_1").
Proof.
  cbv zeta. split; [reflexivity|].
  eapply (proj1 (addJob_idempotency default_queue_config)
            completed_under_key _
            (snd (run (create default_queue_config) completed_under_key))
            "job_1" _ "order-17").
  - vm_compute. repeat constructor. intros [].
  - vm_compute. reflexivity.
  - vm_compute. reflexivity.
  - reflexivity.
  - discriminate.
  - discriminate.
  - reflexivity.
Defined.

(** C4 as stated fails in its second half: after the first job has
    completed, a call with its key still returns the id of that job and
    creates no job. *)
Lemma completed_key_counterexample :
  (let s := fst (run (create default_queue_config) completed_under_key) in
   option_map status (getJob s "job_1") = Some Completed /\
   addJob s "job_2" "email" "again" (with_key "order-17") 5000 = (s, "job_1") /\
   getJob (fst (addJob s "job_2" "email" "again" (with_key "order-17") 5000)) "job_2"
     = None) /\
  ~ (forall s key existing jobId t d now,
       find (live_with_key (Some key)) (values (jobs s)) = Some existing ->
       status existing = Completed ->
       snd (addJob s jobId t d (with_key key) now) = jobId).
Proof.
  split; [vm_compute; auto|].
  intros H.
  specialize (H (fst (run (create default_queue_config) completed_under_key))
                "order-17"
                (on_success 1000 1200 "sent"
                   (with_status Running
                      (new_job default_queue_config "job_1" "email" "hello"
                         (with_key "order-17") 0)))
                "job_2" "email" "again" 5000 eq_refl eq_refl).
  vm_compute in H. discriminate H.
Qed.

(** ** Retries *)


(** [processJob] calls the handler of its job, or no handler at all. *)
Lemma processJob_out (s : State) (job : Job) (now : Z) (thrown : option string) :
  snd (processJob s job now thrown) = [] \/
  snd (processJob s job now thrown) = [Invoke (id job)].
Proof.
  unfold processJob.
  destruct (maxConcurrency (config s) <=? JS.len (running s)); [now left|]. simpl.
  destruct (mem (type job) (handlers s)); [|now left].
  destruct thrown; now right.
Qed.

(** A tick calls the handlers of jobs that are pending and due, and of no
    others. *)
Lemma start_jobs_invokes (l : list Job) :
  forall s now throwing k,
    In (Invoke k) (snd (start_jobs l s now throwing)) -> exists job, In job l /\ id job = k.
Proof.
  induction l as [|job l IH]; intros s now throwing k H; simpl in H; [contradiction|].
  destruct (maxConcurrency (config s) <=? JS.len (running s)); [contradiction|].
  destruct (mem (id job) (running s)).
  - destruct (IH _ _ _ _ H) as (j & Hj & E). exists j. split; [now right|exact E].
  - pose proof (processJob_out s job now (thrown_by (id job) throwing)) as Ho.
    destruct (processJob s job now (thrown_by (id job) throwing)) as [s1 out1].
    destruct (start_jobs l s1 now throwing) as [s2 out2] eqn:Hs. simpl in H, Ho.
    apply in_app_iff in H as [H|H].
    + exists job. split; [now left|].
      destruct Ho as [->| ->]; [contradiction|].
      destruct H as [H|[]]. now inversion H.
    + assert (In (Invoke k) (snd (start_jobs l s1 now throwing))) as H' by now rewrite Hs.
      destruct (IH _ _ _ _ H') as (j & Hj & E). exists j. split; [now right|exact E].
Qed.

Lemma date_le_le (a b : Z) : JS.date_le a b = true -> a <= b.
Proof.
  unfold JS.date_le. intros H. apply andb_true_iff in H as [_ H]. now apply Z.leb_le.
Qed.

Lemma due_spec (now : Z) (job : Job) :
  due now job = true <-> status job = Pending /\ JS.date_le (nextRunAt job) now = true.
Proof.
  unfold due. rewrite andb_true_iff.
  split; intros [H1 H2]; split; auto.
  - destruct (status job); simpl in H1; congruence.
  - rewrite H1. reflexivity.
Qed.

Lemma processJobs_invokes_pending (s : State) (now : Z) (throwing : list (string * string))
  (k : string) :
  In (Invoke k) (snd (processJobs s now throwing)) ->
  exists job, In job (values (jobs s)) /\ id job = k /\
              status job = Pending /\ nextRunAt job <= now.
Proof.
  unfold processJobs.
  destruct (maxConcurrency (config s) <=? JS.len (running s)); [contradiction|].
  intros H. apply start_jobs_invokes in H as (job & Hin & E).
  apply (Permutation_in _ (JSProofs.sort_perm _ _)) in Hin.
  apply filter_In in Hin as [Hin Hp]. apply due_spec in Hp as [Hs Hd].
  exists job. repeat split; auto. now apply date_le_le.
Qed.







(* ===================================================================== *)
(** * Further properties of the job queue                                 *)
(* ===================================================================== *)

Import JSProofs.

(** ** The configuration never changes *)

Lemma processJob_config (s : State) (job : Job) (now : Z) (thrown : option string) :
  config (fst (processJob s job now thrown)) = config s /\
  handlers (fst (processJob s job now thrown)) = handlers s.
Proof.
  unfold processJob.
  destruct (maxConcurrency (config s) <=? JS.len (running s)); [auto|]. simpl.
  destruct (mem (type job) (handlers s)); [destruct thrown|]; auto.
Qed.

Lemma start_jobs_config (l : list Job) :
  forall s now throwing,
    config (fst (start_jobs l s now throwing)) = config s /\
    handlers (fst (start_jobs l s now throwing)) = handlers s.
Proof.
  induction l as [|job rest IH]; intros s now throwing; simpl; [auto|].
  destruct (maxConcurrency (config s) <=? JS.len (running s)); [auto|].
  destruct (mem (id job) (running s)); [apply IH|].
  destruct (processJob_config s job now (thrown_by (id job) throwing)) as [E1 E2].
  destruct (processJob s job now (thrown_by (id job) throwing)) as [s1 out1].
  simpl in E1, E2.
  destruct (IH s1 now throwing) as [E3 E4].
  destruct (start_jobs rest s1 now throwing) as [s2 out2]. simpl in *. split; congruence.
Qed.

Lemma step_keeps_config (s : State) (e : Event) : config (fst (step s e)) = config s.
Proof.
  destruct e as [t|jobId t d options now|jobId|now throwing|jobId o now|now]; simpl.
  - reflexivity.
  - unfold addJob.
    destruct (if JS.truthy (opt_idempotencyKey options)
              then find (live_with_key (opt_idempotencyKey options)) (values (jobs s))
              else None); reflexivity.
  - unfold cancelJob. destruct (get jobId (jobs s)) as [job|]; [|reflexivity].
    destruct (status_eqb (status job) Pending); reflexivity.
  - unfold processJobs.
    destruct (maxConcurrency (config s) <=? JS.len (running s)); [reflexivity|].
    apply start_jobs_config.
  - unfold settle. destruct (startTime_of jobId (awaiting s)); [|reflexivity].
    unfold settle_state. destruct o; reflexivity.
  - reflexivity.
Qed.

Lemma run_keeps_config (events : list Event) :
  forall s, config (fst (run s events)) = config s.
Proof.
  induction events as [|e events IH]; intros s; simpl; [reflexivity|].
  pose proof (step_keeps_config s e) as E. destruct (step s e) as [s1 out1]. simpl in E.
  specialize (IH s1). destruct (run s1 events) as [s2 out2]. simpl in *. congruence.
Qed.

(** ** Concurrency *)

Lemma len_delete (x : string) (l : list string) : JS.len (delete x l) <= JS.len l.
Proof.
  unfold JS.len, delete. apply inj_le. apply filter_length_le.
Qed.

Lemma len_add (x : string) (l : list string) : JS.len (add x l) <= JS.len l + 1.
Proof.
  unfold JS.len, add. destruct (mem x l); [lia|]. rewrite length_app. simpl. lia.
Qed.

Lemma processJob_running (s : State) (job : Job) (now : Z) (thrown : option string) :
  JS.len (running s) <= Z.max 0 (maxConcurrency (config s)) ->
  JS.len (running (fst (processJob s job now thrown)))
  <= Z.max 0 (maxConcurrency (config s)).
Proof.
  intros H. unfold processJob.
  destruct (maxConcurrency (config s) <=? JS.len (running s)) eqn:E; [exact H|].
  apply Z.leb_gt in E. simpl.
  pose proof (len_add (id job) (running s)) as Ha.
  pose proof (len_delete (id job) (add (id job) (running s))).
  destruct (mem (type job) (handlers s)); [destruct thrown|]; simpl; lia.
Qed.

Lemma start_jobs_running (l : list Job) :
  forall s now throwing,
    JS.len (running s) <= Z.max 0 (maxConcurrency (config s)) ->
    JS.len (running (fst (start_jobs l s now throwing)))
    <= Z.max 0 (maxConcurrency (config s)).
Proof.
  induction l as [|job rest IH]; intros s now throwing H; simpl; [exact H|].
  destruct (maxConcurrency (config s) <=? JS.len (running s)); [exact H|].
  destruct (mem (id job) (running s)); [now apply IH|].
  pose proof (processJob_running s job now (thrown_by (id job) throwing) H) as H1.
  destruct (processJob_config s job now (thrown_by (id job) throwing)) as [E1 _].
  destruct (processJob s job now (thrown_by (id job) throwing)) as [s1 out1]. simpl in *.
  rewrite <- E1 in H1. specialize (IH s1 now throwing H1).
  destruct (start_jobs rest s1 now throwing) as [s2 out2]. simpl in *. now rewrite <- E1.
Qed.

Lemma step_running (s : State) (e : Event) :
  JS.len (running s) <= Z.max 0 (maxConcurrency (config s)) ->
  JS.len (running (fst (step s e))) <= Z.max 0 (maxConcurrency (config s)).
Proof.
  intros H.
  destruct e as [t|jobId t d options now|jobId|now throwing|jobId o now|now]; simpl.
  - exact H.
  - unfold addJob.
    destruct (if JS.truthy (opt_idempotencyKey options)
              then find (live_with_key (opt_idempotencyKey options)) (values (jobs s))
              else None); exact H.
  - unfold cancelJob. destruct (get jobId (jobs s)) as [job|]; [|exact H].
    destruct (status_eqb (status job) Pending); exact H.
  - unfold processJobs.
    destruct (maxConcurrency (config s) <=? JS.len (running s)); [exact H|].
    now apply start_jobs_running.
  - unfold settle. destruct (startTime_of jobId (awaiting s)); [|exact H].
    unfold settle_state.
    pose proof (len_delete jobId (running s)). destruct o; simpl; lia.
  - exact H.
Qed.

Lemma run_running (events : list Event) :
  forall s,
    JS.len (running s) <= Z.max 0 (maxConcurrency (config s)) ->
    JS.len (running (fst (run s events))) <= Z.max 0 (maxConcurrency (config s)).
Proof.
  induction events as [|e events IH]; intros s H; simpl; [exact H|].
  pose proof (step_running s e H) as H1. pose proof (step_keeps_config s e) as E.
  destruct (step s e) as [s1 out1]. simpl in *.
  rewrite <- E in H1. specialize (IH s1 H1).
  destruct (run s1 events) as [s2 out2]. simpl in *. now rewrite <- E.
Qed.
(** ** Which handlers a tick calls *)

Lemma by_priority_then_age_le (a b : Job) : by_priority_then_age a b <= 0 -> job_order a b.
Proof.
  unfold by_priority_then_age, job_order.
  destruct (priority a =? priority b) eqn:E; simpl; intros H.
  - apply Z.eqb_eq in E. right. lia.
  - apply Z.eqb_neq in E. left. lia.
Qed.

Lemma by_priority_then_age_gt (a b : Job) : 0 < by_priority_then_age a b -> job_order b a.
Proof.
  unfold by_priority_then_age, job_order.
  destruct (priority a =? priority b) eqn:E; simpl; intros H.
  - apply Z.eqb_eq in E. right. lia.
  - apply Z.eqb_neq in E. left. lia.
Qed.

Lemma job_order_trans (a b c : Job) : job_order a b -> job_order b c -> job_order a c.
Proof. unfold job_order. lia. Qed.

Lemma job_order_filter (f : Job -> bool) (l : list Job) :
  StronglySorted job_order l -> StronglySorted job_order (filter f l).
Proof.
  induction 1 as [|job l Hs IH Hall]; simpl; [constructor|].
  destruct (f job); [|exact IH].
  constructor; [exact IH|].
  apply Forall_forall. intros x Hx. apply filter_In in Hx as [Hx _].
  revert x Hx. now apply Forall_forall.
Qed.

Lemma ready_sorted (s : State) (now : Z) : StronglySorted job_order (ready s now).
Proof.
  unfold ready. apply job_order_filter.
  apply (sort_ascending by_priority_then_age job_order).
  - exact by_priority_then_age_le.
  - exact by_priority_then_age_gt.
  - exact job_order_trans.
Qed.

(** The loop of [processJobs] over jobs none of which is running. *)
Lemma start_jobs_exact (l : list Job) :
  forall s now throwing s' out,
    NoDup (map id l) ->
    (forall job, In job l -> ~ In (id job) (running s)) ->
    start_jobs l s now throwing = (s', out) ->
    out = map (fun job => Invoke (id job))
              (called (free_slots s) throwing
                      (filter (fun job => mem (type job) (handlers s)) l)).
Proof.
  induction l as [|job rest IH]; intros s now throwing s' out Hnd Hrun H; simpl in H.
  - inversion H; subst. reflexivity.
  - unfold free_slots.
    destruct (maxConcurrency (config s) <=? JS.len (running s)) eqn:E.
    { apply Z.leb_le in E. inversion H; subst s' out.
      replace (Z.to_nat (maxConcurrency (config s) - JS.len (running s))) with 0%nat by lia.
      simpl. now destruct (filter _ _) as [|? ?]; destruct (mem (type job) (handlers s)). }
    assert (~ In (id job) (running s)) as Hj by (apply Hrun; now left).
    assert (mem (id job) (running s) = false) as Hm.
    { destruct (mem (id job) (running s)) eqn:M; [|reflexivity].
      apply mem_in in M. contradiction. }
    rewrite Hm in H. unfold processJob in H.
    rewrite E in H. apply Z.leb_gt in E. simpl in H.
    inversion Hnd as [|? ? Hfresh Hnd']; subst.
    assert (exists n, Z.to_nat (maxConcurrency (config s) - JS.len (running s)) = S n
                      /\ Z.to_nat (maxConcurrency (config s)
                                   - JS.len (running s ++ [id job])) = n)
      as (n & Hn & Hn').
    { exists (Z.to_nat (maxConcurrency (config s) - JS.len (running s ++ [id job]))).
      unfold JS.len in *. rewrite length_app. simpl. split; lia. }
    simpl. destruct (mem (type job) (handlers s)) eqn:Hh.
    + destruct (thrown_by (id job) throwing) as [message|] eqn:Ht.
      * match type of H with
        | (let '(s2, out2) := start_jobs rest ?s1 now throwing in _) = _ =>
            destruct (start_jobs rest s1 now throwing) as [s2 out2] eqn:Hrec
        end.
        inversion H; subst s2 out. clear H.
        apply IH in Hrec; [|exact Hnd'|].
        -- simpl in Hrec. rewrite Hrec. unfold free_slots. simpl.
           rewrite (add_fresh _ _ Hj), (delete_snoc _ _ Hj). rewrite Hn.
           cbn [called map]. unfold returns. rewrite Ht. reflexivity.
        -- intros job' Hin. simpl. rewrite (add_fresh _ _ Hj), (delete_snoc _ _ Hj).
           apply Hrun. now right.
      * match type of H with
        | (let '(s2, out2) := start_jobs rest ?s1 now throwing in _) = _ =>
            destruct (start_jobs rest s1 now throwing) as [s2 out2] eqn:Hrec
        end.
        inversion H; subst s2 out. clear H.
        apply IH in Hrec; [|exact Hnd'|].
        -- simpl in Hrec. rewrite Hrec. unfold free_slots. simpl.
           rewrite (add_fresh _ _ Hj). rewrite Hn, Hn'.
           cbn [called map]. unfold returns. rewrite Ht. reflexivity.
        -- intros job' Hin. simpl. rewrite (add_fresh _ _ Hj).
           intros Hr. apply in_app_iff in Hr as [Hr|[Hr|[]]].
           ++ apply (Hrun job'); [now right|exact Hr].
           ++ apply Hfresh. rewrite Hr. now apply in_map.
    + match type of H with
      | (let '(s2, out2) := start_jobs rest ?s1 now throwing in _) = _ =>
          destruct (start_jobs rest s1 now throwing) as [s2 out2] eqn:Hrec
      end.
      inversion H; subst s2 out. clear H.
      apply IH in Hrec; [|exact Hnd'|].
      * simpl in Hrec. rewrite Hrec. unfold free_slots. simpl.
        rewrite (add_fresh _ _ Hj), (delete_snoc _ _ Hj). reflexivity.
      * intros job' Hin. simpl. rewrite (add_fresh _ _ Hj), (delete_snoc _ _ Hj).
        apply Hrun. now right.
Qed.

Lemma well_formed_pending (s : State) (out : list Effect) (added : list string) (job : Job) :
  well_formed s out added ->
  In job (values (jobs s)) -> status job = Pending ->
  getJob s (id job) = Some job /\ ~ In (id job) (running s).
Proof.
  intros (H1 & _ & H3 & _ & _ & _ & H7 & _) Hin Hp.
  apply in_values in Hin as (k & Hin).
  destruct (H7 _ _ Hin) as (Hid & Hiff & _). subst k.
  split; [now apply in_get|].
  rewrite H3. intros Hr. apply Hiff in Hr. congruence.
Qed.

Lemma processJobs_exact (s : State) (now : Z) (throwing : list (string * string))
  out added :
  well_formed s out added ->
  snd (processJobs s now throwing)
  = map (fun job => Invoke (id job)) (called (free_slots s) throwing (ready s now)).
Proof.
  intros Hwf. unfold processJobs.
  destruct (maxConcurrency (config s) <=? JS.len (running s)) eqn:E.
  - apply Z.leb_le in E. unfold free_slots.
    replace (Z.to_nat (maxConcurrency (config s) - JS.len (running s))) with 0%nat by lia.
    simpl. now destruct (ready s now).
  - destruct (start_jobs (JS.sort by_priority_then_age (filter (due now) (values (jobs s))))
                s now throwing) as [s' out'] eqn:H.
    simpl. apply start_jobs_exact in H; [exact H| |].
    + pose proof Hwf as (H1 & _ & _ & _ & _ & _ & H7 & _).
      apply (Permutation_NoDup
               (Permutation_map id
                  (Permutation_sym (sort_perm by_priority_then_age _)))).
      apply distinct_ids_filter. rewrite map_id_values; [exact H1|].
      intros k j Hin. now destruct (H7 _ _ Hin).
    + intros job Hin.
      apply (Permutation_in _ (sort_perm by_priority_then_age _)) in Hin.
      apply filter_In in Hin as [Hin Hd]. apply due_spec in Hd as [Hp _].
      now destruct (well_formed_pending _ _ _ _ Hwf Hin Hp).
Qed.

(** What [called] selects: a prefix of the ready jobs that holds no more
    returning handlers than there are slots, and exactly as many when it
    leaves a job out. *)
Lemma called_prefix (throwing : list (string * string)) (l : list Job) :
  forall slots,
    exists skipped,
      l = called slots throwing l ++ skipped /\
      (List.length (filter (returns throwing) (called slots throwing l)) <= slots)%nat /\
      (skipped <> [] ->
       List.length (filter (returns throwing) (called slots throwing l)) = slots).
Proof.
  induction l as [|job rest IH]; intros slots; simpl.
  - exists []. split; [reflexivity|]. split; [lia|]. congruence.
  - destruct slots as [|n].
    + exists (job :: rest). split; [reflexivity|]. split; [simpl; lia|]. reflexivity.
    + destruct (returns throwing job) eqn:R.
      * destruct (IH n) as (skipped & E & Hle & Hfull). exists skipped.
        split; [simpl; now rewrite <- E|]. simpl. rewrite R. simpl.
        split; [lia|]. intros Hs. now rewrite (Hfull Hs).
      * destruct (IH (S n)) as (skipped & E & Hle & Hfull). exists skipped.
        split; [simpl; now rewrite <- E|]. simpl. rewrite R.
        split; [exact Hle|exact Hfull].
Qed.

Lemma called_all_return (throwing : list (string * string)) (l : list Job) :
  (forall job, In job l -> returns throwing job = true) ->
  forall slots, called slots throwing l = firstn slots l.
Proof.
  induction l as [|job rest IH]; intros Hall slots; simpl.
  - now rewrite firstn_nil.
  - destruct slots as [|n]; [reflexivity|].
    rewrite (Hall job (or_introl eq_refl)). simpl. f_equal.
    apply IH. intros j Hj. apply Hall. now right.
Qed.

(** X11.  In every state the queue reaches, a tick goes through the ready
    jobs in order - higher priority first, older first within a priority -
    and calls their handlers as long as a slot is free.  A handler that
    returns keeps its slot, one that throws before it returns frees it at
    once: the handlers called are those of a prefix of the ready jobs that
    holds at most free-slot-many returning handlers, and exactly that many if
    a ready job is left out; when no handler throws they are the first
    free-slot-many.  The ready jobs are the pending jobs with a handler whose
    [nextRunAt] is a valid date not after the time of the tick. *)
Theorem tick_starts_ready_jobs_in_order
  (cfg : QueueConfig) (events : list Event) (s : State) (out : list Effect)
  (now : Z) (throwing : list (string * string)) :
  NoDup (added_ids events) ->
  run (create cfg) events = (s, out) ->
  snd (processJobs s now throwing)
  = map (fun job => Invoke (id job)) (called (free_slots s) throwing (ready s now)) /\
  (exists skipped,
      ready s now = called (free_slots s) throwing (ready s now) ++ skipped /\
      (List.length (filter (returns throwing)
                      (called (free_slots s) throwing (ready s now)))
       <= free_slots s)%nat /\
      (skipped <> [] ->
       List.length (filter (returns throwing)
                      (called (free_slots s) throwing (ready s now)))
       = free_slots s)) /\
  ((forall job, In job (ready s now) -> returns throwing job = true) ->
   called (free_slots s) throwing (ready s now) = firstn (free_slots s) (ready s now)) /\
  free_slots s = Z.to_nat (maxConcurrency cfg - JS.len (running s)) /\
  StronglySorted job_order (ready s now) /\
  (forall job,
      In job (ready s now) <->
      getJob s (id job) = Some job /\ status job = Pending /\
      JS.valid_date (nextRunAt job) = true /\ JS.valid_date now = true /\
      nextRunAt job <= now /\ mem (type job) (handlers s) = true).
Proof.
  intros Hnd Hrun.
  pose proof (reachable_well_formed cfg events s out Hnd Hrun) as Hwf.
  pose proof (run_keeps_config events (create cfg)) as Hc. rewrite Hrun in Hc. simpl in Hc.
  split; [now apply (processJobs_exact s now throwing out (added_ids events))|].
  split; [apply called_prefix|].
  split; [intros Hall; now apply called_all_return|].
  split; [unfold free_slots; now rewrite Hc|].
  split; [apply ready_sorted|].
  intros job. unfold ready. rewrite filter_In. split.
  - intros [Hin Hh].
    apply (Permutation_in _ (sort_perm by_priority_then_age _)) in Hin.
    apply filter_In in Hin as [Hin Hd]. apply due_spec in Hd as [Hp Hdue].
    destruct (well_formed_pending _ _ _ _ Hwf Hin Hp) as [Hg _].
    unfold JS.date_le in Hdue. apply andb_true_iff in Hdue as [Hv Hle].
    apply andb_true_iff in Hv as [Hv1 Hv2]. apply Z.leb_le in Hle. auto 10.
  - intros (Hg & Hp & Hv1 & Hv2 & Hle & Hh). split; [|exact Hh].
    apply (Permutation_in _ (Permutation_sym (sort_perm by_priority_then_age _))).
    apply filter_In. split.
    + apply get_in in Hg. apply in_values. now exists (id job).
    + apply due_spec. split; [exact Hp|]. unfold JS.date_le.
      rewrite Hv1, Hv2. simpl. now apply Z.leb_le.
Qed.

(** Every handler the loop calls takes one slot, and gives it back at once
    if it throws before it returns. *)
Lemma start_jobs_grows (l : list Job) :
  forall s now throwing s' out,
    start_jobs l s now throwing = (s', out) ->
    JS.len (running s') = JS.len (running s) + JS.len (returned throwing out).
Proof.
  induction l as [|job rest IH]; intros s now throwing s' out H; simpl in H.
  - inversion H; subst. unfold JS.len. simpl. lia.
  - destruct (maxConcurrency (config s) <=? JS.len (running s)) eqn:E.
    { inversion H; subst. unfold JS.len. simpl. lia. }
    destruct (mem (id job) (running s)) eqn:Hm; [now apply (IH s now)|].
    assert (~ In (id job) (running s)) as Hj.
    { intros Hin. apply mem_in in Hin. congruence. }
    unfold processJob in H. rewrite E in H. simpl in H.
    destruct (mem (type job) (handlers s)).
    + destruct (thrown_by (id job) throwing) as [message|] eqn:Ht.
      * match type of H with
        | (let '(s2, out2) := start_jobs rest ?s1 now throwing in _) = _ =>
            destruct (start_jobs rest s1 now throwing) as [s2 out2] eqn:Hrec
        end.
        inversion H; subst s2 out. clear H. apply IH in Hrec. simpl in Hrec.
        rewrite (add_fresh _ _ Hj), (delete_snoc _ _ Hj) in Hrec.
        unfold returned in *. simpl. now rewrite Ht.
      * match type of H with
        | (let '(s2, out2) := start_jobs rest ?s1 now throwing in _) = _ =>
            destruct (start_jobs rest s1 now throwing) as [s2 out2] eqn:Hrec
        end.
        inversion H; subst s2 out. clear H. apply IH in Hrec. simpl in Hrec.
        rewrite (add_fresh _ _ Hj) in Hrec.
        unfold returned in *. simpl. rewrite Ht.
        unfold JS.len in *. rewrite length_app in Hrec. simpl in *. lia.
    + match type of H with
      | (let '(s2, out2) := start_jobs rest ?s1 now throwing in _) = _ =>
          destruct (start_jobs rest s1 now throwing) as [s2 out2] eqn:Hrec
      end.
      inversion H; subst s2 out. clear H. apply IH in Hrec. simpl in Hrec.
      rewrite (add_fresh _ _ Hj), (delete_snoc _ _ Hj) in Hrec. exact Hrec.
Qed.

(** X10.  Over every run, at most [maxConcurrency] handler calls are under
    way.  A tick takes one slot for each handler it calls that returns, none
    for a handler that throws before it returns, and stays within the
    bound. *)
Theorem running_within_maxConcurrency
  (cfg : QueueConfig) (events : list Event) (s : State) (out : list Effect) :
  run (create cfg) events = (s, out) ->
  JS.len (running s) <= Z.max 0 (maxConcurrency cfg) /\
  (forall now throwing s' out',
      processJobs s now throwing = (s', out') ->
      JS.len (running s') = JS.len (running s) + JS.len (returned throwing out') /\
      JS.len (running s') <= Z.max 0 (maxConcurrency cfg)).
Proof.
  intros Hrun.
  pose proof (run_keeps_config events (create cfg)) as Hc.
  pose proof (run_running events (create cfg)) as Hb.
  rewrite Hrun in Hc, Hb. simpl in Hc, Hb.
  assert (JS.len (running s) <= Z.max 0 (maxConcurrency cfg)) as Hs.
  { apply Hb. unfold JS.len. simpl. lia. }
  split; [exact Hs|].
  intros now throwing s' out' Hp. split.
  - unfold processJobs in Hp.
    destruct (maxConcurrency (config s) <=? JS.len (running s)).
    + inversion Hp; subst. unfold JS.len. simpl. lia.
    + now apply start_jobs_grows in Hp.
  - pose proof (step_running s (Tick now throwing)) as Ht. simpl in Ht.
    rewrite Hp, Hc in Ht. now apply Ht.
Qed.

(** ** Statistics *)




(** ** Jobs that are done *)

Lemma get_set_other (k k' : string) (j : Job) (m : list (string * Job)) :
  k <> k' -> get k (set k' j m) = get k m.
Proof.
  intros Hne. induction m as [|[k0 j0] m IH]; simpl.
  - destruct (String.eqb k' k) eqn:E; [|reflexivity].
    apply String.eqb_eq in E. congruence.
  - destruct (String.eqb k0 k') eqn:E0; simpl.
    + apply String.eqb_eq in E0. subst k0.
      destruct (String.eqb k' k) eqn:E; [|reflexivity].
      apply String.eqb_eq in E. congruence.
    + now rewrite IH.
Qed.

Lemma get_modify_other (k k' : string) (f : Job -> Job) (m : list (string * Job)) :
  k <> k' -> get k (modify k' f m) = get k m.
Proof.
  intros Hne. induction m as [|[k0 j0] m IH]; simpl; [reflexivity|].
  destruct (String.eqb k0 k') eqn:E0; simpl.
  - apply String.eqb_eq in E0. subst k0.
    destruct (String.eqb k' k) eqn:E; [|reflexivity].
    apply String.eqb_eq in E. congruence.
  - now rewrite IH.
Qed.

Lemma get_none (k : string) (m : list (string * Job)) :
  get k m = None <-> ~ In k (keys m).
Proof.
  induction m as [|[k0 j0] m IH]; simpl.
  - split; [intros _ []|reflexivity].
  - destruct (String.eqb k0 k) eqn:E.
    + apply String.eqb_eq in E. split; [discriminate|]. intros H. exfalso. apply H. now left.
    + apply String.eqb_neq in E. rewrite IH. split.
      * intros H [H'|H']; [congruence|contradiction].
      * intros H H'. apply H. now right.
Qed.

Lemma get_filter (p : string * Job -> bool) (k : string) (m : list (string * Job)) :
  NoDup (keys m) ->
  get k (filter p m)
  = match get k m with
    | Some j => if p (k, j) then Some j else None
    | None => None
    end.
Proof.
  induction m as [|[k0 j0] m IH]; simpl; intros Hnd; [reflexivity|].
  inversion Hnd as [|? ? Hfresh Hnd']; subst.
  destruct (String.eqb k0 k) eqn:E.
  - apply String.eqb_eq in E. subst k0.
    destruct (p (k, j0)); simpl.
    + now rewrite String.eqb_refl.
    + rewrite (IH Hnd'). apply get_none in Hfresh. now rewrite Hfresh.
  - destruct (p (k0, j0)); simpl; [rewrite E|]; now apply IH.
Qed.

Lemma processJob_get_other (s : State) (job : Job) (now : Z) (thrown : option string)
  (k : string) :
  k <> id job -> get k (jobs (fst (processJob s job now thrown))) = get k (jobs s).
Proof.
  intros Hne. unfold processJob.
  destruct (maxConcurrency (config s) <=? JS.len (running s)); [reflexivity|]. simpl.
  destruct (mem (type job) (handlers s)); [destruct thrown|]; simpl;
    rewrite !get_modify_other; auto.
Qed.

Lemma start_jobs_get_other (l : list Job) (k : string) :
  forall s now throwing,
    (forall job, In job l -> id job <> k) ->
    get k (jobs (fst (start_jobs l s now throwing))) = get k (jobs s).
Proof.
  induction l as [|job rest IH]; intros s now throwing Hl; simpl; [reflexivity|].
  destruct (maxConcurrency (config s) <=? JS.len (running s)); [reflexivity|].
  assert (forall job', In job' rest -> id job' <> k) as Hrest
      by (intros job' Hin; apply Hl; now right).
  destruct (mem (id job) (running s)); [now apply IH|].
  assert (k <> id job) as Hne by (intros E; apply (Hl job); [now left|auto]).
  pose proof (processJob_get_other s job now (thrown_by (id job) throwing) k Hne) as E1.
  destruct (processJob s job now (thrown_by (id job) throwing)) as [s1 out1]. simpl in E1.
  pose proof (IH s1 now throwing Hrest) as E2.
  destruct (start_jobs rest s1 now throwing) as [s2 out2]. simpl in *. congruence.
Qed.
Lemma at_rest_not_pending (s : State) (out : list Effect) (added : list string)
  (k : string) (job : Job) :
  well_formed s out added -> at_rest s k ->
  In job (values (jobs s)) -> status job = Pending -> id job <> k.
Proof.
  intros Hwf Hq Hin Hp E.
  destruct (well_formed_pending _ _ _ _ Hwf Hin Hp) as [Hg _].
  unfold at_rest in Hq. rewrite <- E, Hg in Hq.
  destruct Hq as [H|[H|H]]; congruence.
Qed.

(** One event leaves a job that is done, or an id that is not in the map,
    as it is, unless the event is the cleanup that removes the job; the
    handler of such a job is not called. *)
Lemma step_at_rest (s : State) (e : Event) out added (k : string) s' out' :
  well_formed s out added ->
  In k added ->
  (forall k', In k' (event_ids e) -> ~ In k' added) ->
  at_rest s k ->
  step s e = (s', out') ->
  ~ In (Invoke k) out' /\
  (getJob s' k = getJob s k \/
   exists j now, getJob s k = Some j /\ getJob s' k = None /\
                 e = Cleanup now /\ expendable now j).
Proof.
  intros Hwf Hk Hfresh Hq Hstep.
  pose proof Hwf as (H1 & H2 & H3 & H4 & H5 & H6 & H7 & H8).
  unfold getJob in *.
  destruct e as [t|jobId t d options now|jobId|now throwing|jobId o now|now];
    simpl in Hstep.
  - inversion Hstep; subst. simpl. split; [intros []|now left].
  - assert (k <> jobId) as Hne.
    { intros E. apply (Hfresh jobId); [now left|now rewrite <- E]. }
    inversion Hstep; subst. split; [intros []|left].
    unfold addJob.
    destruct (if JS.truthy (opt_idempotencyKey options)
              then find (live_with_key (opt_idempotencyKey options)) (values (jobs s))
              else None); simpl; [reflexivity|].
    now apply get_set_other.
  - inversion Hstep; subst. split; [intros []|left].
    unfold cancelJob. destruct (get jobId (jobs s)) as [job|] eqn:Hg; [|reflexivity].
    destruct (status_eqb (status job) Pending) eqn:Hp; [|reflexivity]. simpl.
    apply get_modify_other. intros E. subst jobId.
    unfold at_rest, getJob in Hq. rewrite Hg in Hq.
    destruct Hq as [H|[H|H]]; rewrite H in Hp; discriminate.
  - split.
    + intros Hin.
      assert (In (Invoke k) (snd (processJobs s now throwing))) as Hin'
          by (now rewrite Hstep).
      apply processJobs_invokes_pending in Hin' as (job & Hjob & Hid & Hp & _).
      now apply (at_rest_not_pending s out added k job).
    + left. unfold processJobs in Hstep.
      destruct (maxConcurrency (config s) <=? JS.len (running s)).
      { inversion Hstep; subst. reflexivity. }
      match type of Hstep with
      | start_jobs ?l s now throwing = _ =>
          pose proof (start_jobs_get_other l k s now throwing) as Hg
      end.
      rewrite Hstep in Hg. apply Hg.
      intros job Hin.
      apply (Permutation_in _ (sort_perm by_priority_then_age _)) in Hin.
      apply filter_In in Hin as [Hin Hd]. apply andb_true_iff in Hd as [Hp _].
      apply (at_rest_not_pending s out added k job); auto.
      destruct (status job); simpl in Hp; congruence.
  - inversion Hstep; subst. split; [intros []|left].
    unfold settle. destruct (startTime_of jobId (awaiting s)) as [start|] eqn:Hst;
      [|reflexivity].
    assert (In jobId (keys (awaiting s))) as Hw by (apply startTime_of_in; eauto).
    assert (k <> jobId) as Hne.
    { intros E. subst jobId. destruct (keys_in _ _ (H4 _ Hw)) as (j & Hin).
      destruct (H7 _ _ Hin) as (_ & Hiff & _). apply Hiff in Hw.
      unfold at_rest, getJob in Hq. rewrite (in_get _ _ _ H1 Hin) in Hq.
      destruct Hq as [H|[H|H]]; congruence. }
    unfold settle_state. destruct o; simpl; now apply get_modify_other.
  - inversion Hstep; subst. split; [intros []|]. simpl.
    rewrite (get_filter _ k (jobs s) H1).
    destruct (get k (jobs s)) as [j|] eqn:Hg; [|now left].
    destruct (status_eqb (status j) Completed || status_eqb (status j) Failed) eqn:Hst;
      simpl; [|now left].
    destruct (createdAt j <? now - 86400000) eqn:Hold; simpl; [|now left].
    right. exists j, now. split; [reflexivity|]. split; [reflexivity|].
    split; [reflexivity|]. apply Z.ltb_lt in Hold. split; [|lia].
    apply orb_true_iff in Hst as [Hst|Hst]; [left|right];
      destruct (status j); simpl in Hst; congruence.
Qed.

Lemma added_ids_app (l1 l2 : list Event) :
  added_ids (l1 ++ l2) = added_ids l1 ++ added_ids l2.
Proof. unfold added_ids. apply flat_map_app. Qed.

Lemma fresh_event_ids (added : list string) (e : Event) (events : list Event) :
  NoDup (added ++ added_ids (e :: events)) ->
  (forall k, In k (event_ids e) -> ~ In k added) /\
  NoDup ((added ++ event_ids e) ++ added_ids events).
Proof.
  rewrite added_ids_cons, app_assoc. intros Hnd. split; [|exact Hnd].
  apply NoDup_app_remove_r in Hnd.
  intros k Hk Hin. destruct e; simpl in Hk; try contradiction.
  destruct Hk as [<-|[]].
  apply NoDup_remove_2 in Hnd. apply Hnd. now rewrite app_nil_r.
Qed.

(** An id that was generated and is not in the map stays out of it. *)
Lemma run_absent (events : list Event) :
  forall s out added s' out' k,
    well_formed s out added ->
    NoDup (added ++ added_ids events) ->
    In k added ->
    getJob s k = None ->
    run s events = (s', out') ->
    ~ In (Invoke k) out' /\ getJob s' k = None.
Proof.
  induction events as [|e events IH]; intros s out added s' out' k Hwf Hnd Hk Hg Hrun;
    simpl in Hrun.
  - inversion Hrun; subst. split; [intros []|exact Hg].
  - destruct (step s e) as [s1 out1] eqn:He.
    destruct (run s1 events) as [s2 out2] eqn:Hr. inversion Hrun; subst s' out'.
    destruct (fresh_event_ids _ _ _ Hnd) as [Hfresh Hnd'].
    assert (at_rest s k) as Hq by (unfold at_rest; now rewrite Hg).
    destruct (step_at_rest s e out added k s1 out1 Hwf Hk Hfresh Hq He)
      as [Hno [Hsame|(j & now & Hj & _)]]; [|congruence].
    pose proof (step_well_formed s e out added s1 out1 Hwf Hfresh He) as Hwf1.
    destruct (IH s1 (out ++ out1) (added ++ event_ids e) s2 out2 k Hwf1 Hnd')
      as [Hno2 Hg2]; auto.
    + apply in_app_iff. now left.
    + congruence.
    + split; [|exact Hg2]. intros Hin. apply in_app_iff in Hin as [|]; auto.
Qed.

Lemma run_at_rest (events : list Event) :
  forall s out added s' out' k j,
    well_formed s out added ->
    NoDup (added ++ added_ids events) ->
    In k added ->
    getJob s k = Some j -> finished j ->
    run s events = (s', out') ->
    ~ In (Invoke k) out' /\
    (getJob s' k = Some j \/
     (getJob s' k = None /\ exists now, In (Cleanup now) events /\ expendable now j)).
Proof.
  induction events as [|e events IH];
    intros s out added s' out' k j Hwf Hnd Hk Hg Hf Hrun; simpl in Hrun.
  - inversion Hrun; subst. split; [intros []|now left].
  - destruct (step s e) as [s1 out1] eqn:He.
    destruct (run s1 events) as [s2 out2] eqn:Hr. inversion Hrun; subst s' out'.
    destruct (fresh_event_ids _ _ _ Hnd) as [Hfresh Hnd'].
    assert (at_rest s k) as Hq by (unfold at_rest; now rewrite Hg).
    pose proof (step_well_formed s e out added s1 out1 Hwf Hfresh He) as Hwf1.
    assert (In k (added ++ event_ids e)) as Hk' by (apply in_app_iff; now left).
    destruct (step_at_rest s e out added k s1 out1 Hwf Hk Hfresh Hq He)
      as [Hno [Hsame|(j0 & now & Hj & Hgone & -> & Hexp)]].
    + rewrite Hg in Hsame.
      destruct (IH s1 (out ++ out1) (added ++ event_ids e) s2 out2 k j Hwf1 Hnd' Hk'
                  Hsame Hf Hr) as [Hno2 Hcase].
      split; [intros Hin; apply in_app_iff in Hin as [|]; auto|].
      destruct Hcase as [Hc|(Hc & now & Hin & Hexp)]; [now left|right].
      split; [exact Hc|]. exists now. split; [now right|exact Hexp].
    + assert (j0 = j) as -> by congruence.
      destruct (run_absent events s1 (out ++ out1) (added ++ event_ids (Cleanup now))
                  s2 out2 k Hwf1 Hnd' Hk' Hgone Hr) as [Hno2 Hg2].
      split; [intros Hin; apply in_app_iff in Hin as [|]; auto|].
      right. split; [exact Hg2|]. exists now. split; [now left|exact Hexp].
Qed.

(** X13.  A job that is completed, failed or cancelled is final: whatever happens
    next, its handler is not called again and the job is not changed; it
    stays in the map as it is until a cleanup removes it, which happens only
    to a completed or failed job created more than 24 hours before that
    cleanup.  A cancelled job is never removed. *)
Theorem finished_job_is_final
  (cfg : QueueConfig) (events1 events2 : list Event)
  (s1 s2 : State) (out1 out2 : list Effect) (k : string) (j : Job) :
  NoDup (added_ids (events1 ++ events2)) ->
  run (create cfg) events1 = (s1, out1) ->
  run s1 events2 = (s2, out2) ->
  getJob s1 k = Some j -> finished j ->
  ~ In (Invoke k) out2 /\
  (getJob s2 k = Some j \/
   (getJob s2 k = None /\ exists now, In (Cleanup now) events2 /\ expendable now j)) /\
  (status j = Cancelled -> getJob s2 k = Some j).
Proof.
  intros Hnd Hrun1 Hrun2 Hg Hf. rewrite added_ids_app in Hnd.
  pose proof (reachable_well_formed cfg events1 s1 out1 (NoDup_app_remove_r _ _ Hnd) Hrun1)
    as Hwf.
  assert (In k (added_ids events1)) as Hk.
  { destruct Hwf as (_ & _ & _ & _ & H5 & _). apply H5.
    apply get_in in Hg. now apply (in_keys k j). }
  destruct (run_at_rest events2 s1 out1 (added_ids events1) s2 out2 k j Hwf Hnd Hk Hg Hf
              Hrun2) as [Hno Hcase].
  split; [exact Hno|]. split; [exact Hcase|].
  intros Hc. destruct Hcase as [H|(_ & now & _ & [[H|H] _])]; [exact H| |]; congruence.
Qed.

(** ** Failing jobs *)










(** ** A busy queue *)

Ltac distinct_strings :=
  vm_compute; repeat (constructor; [simpl; intuition discriminate|]); constructor.

Lemma running_within_maxConcurrency_witness :
  exists s out,
    run (create small_queue_config) (busy_start ++ [Tick 1000 [("b", "refused")]])
    = (s, out) /\
    (JS.len (running s) <= Z.max 0 (maxConcurrency small_queue_config) /\
     (forall now throwing s' out',
         processJobs s now throwing = (s', out') ->
         JS.len (running s') = JS.len (running s) + JS.len (returned throwing out') /\
         JS.len (running s') <= Z.max 0 (maxConcurrency small_queue_config))).
Proof.
  eexists. eexists. split; [vm_compute; reflexivity|].
  eapply (running_within_maxConcurrency small_queue_config
            (busy_start ++ [Tick 1000 [("b", "refused")]])).
  vm_compute. reflexivity.
Defined.

Lemma tick_starts_ready_jobs_in_order_witness :
  exists s out,
    NoDup (added_ids busy_start) /\
    run (create small_queue_config) busy_start = (s, out) /\
    (snd (processJobs s 70000 [("b", "refused")])
     = map (fun job => Invoke (id job))
           (called (free_slots s) [("b", "refused")] (ready s 70000)) /\
     (exists skipped,
         ready s 70000 = called (free_slots s) [("b", "refused")] (ready s 70000) ++ skipped /\
         (List.length (filter (returns [("b", "refused")])
                         (called (free_slots s) [("b", "refused")] (ready s 70000)))
          <= free_slots s)%nat /\
         (skipped <> [] ->
          List.length (filter (returns [("b", "refused")])
                         (called (free_slots s) [("b", "refused")] (ready s 70000)))
          = free_slots s)) /\
     ((forall job, In job (ready s 70000) -> returns [("b", "refused")] job = true) ->
      called (free_slots s) [("b", "refused")] (ready s 70000)
      = firstn (free_slots s) (ready s 70000)) /\
     free_slots s = Z.to_nat (maxConcurrency small_queue_config - JS.len (running s)) /\
     StronglySorted job_order (ready s 70000) /\
     (forall job,
         In job (ready s 70000) <->
         getJob s (id job) = Some job /\ status job = Pending /\
         JS.valid_date (nextRunAt job) = true /\ JS.valid_date 70000 = true /\
         nextRunAt job <= 70000 /\ mem (type job) (handlers s) = true)).
Proof.
  eexists. eexists. split; [distinct_strings|]. split; [vm_compute; reflexivity|].
  eapply (tick_starts_ready_jobs_in_order small_queue_config busy_start).
  - distinct_strings.
  - vm_compute. reflexivity.
Defined.


Lemma finished_job_is_final_witness :
  exists s1 out1 s2 out2 j,
    NoDup (added_ids (busy_start ++ busy_rest)) /\
    run (create small_queue_config) busy_start = (s1, out1) /\
    run s1 busy_rest = (s2, out2) /\
    getJob s1 "c" = Some j /\ finished j /\
    (~ In (Invoke "c") out2 /\
     (getJob s2 "c" = Some j \/
      (getJob s2 "c" = None /\
       exists now, In (Cleanup now) busy_rest /\ expendable now j)) /\
     (status j = Cancelled -> getJob s2 "c" = Some j)).
Proof.
  do 5 eexists. split; [distinct_strings|]. split; [vm_compute; reflexivity|].
  split; [vm_compute; reflexivity|]. split; [vm_compute; reflexivity|].
  split; [right; right; reflexivity|].
  eapply (finished_job_is_final small_queue_config busy_start busy_rest).
  - distinct_strings.
  - vm_compute. reflexivity.
  - vm_compute. reflexivity.
  - vm_compute. reflexivity.
  - right. right. reflexivity.
Defined.

End JobQueueProofs.

(* ===================================================================== *)
(** * Properties of the connection-pool middleware                        *)
(* ===================================================================== *)

Module ConnectionPoolMiddlewareProofs.
Import ConnectionPoolMiddleware.

(** ** Traces *)

Lemma passed_app (out1 out2 : list Action) :
  passed (out1 ++ out2) = passed out1 ++ passed out2.
Proof.
  induction out1 as [|a out1 IH]; simpl; [reflexivity|].
  destruct a; simpl; now rewrite IH.
Qed.

Lemma refused_app (out1 out2 : list Action) :
  refused (out1 ++ out2) = refused out1 ++ refused out2.
Proof.
  induction out1 as [|a out1 IH]; simpl; [reflexivity|].
  destruct a; simpl; now rewrite IH.
Qed.

Lemma callbacks_app (out1 out2 : list Action) :
  callbacks (out1 ++ out2) = callbacks out1 + callbacks out2.
Proof.
  induction out1 as [|a out1 IH]; [reflexivity|].
  destruct a; cbn [app callbacks]; lia.
Qed.

Lemma releases_app (out1 out2 : list Action) :
  releases (out1 ++ out2) = releases out1 + releases out2.
Proof.
  induction out1 as [|a out1 IH]; [reflexivity|].
  destruct a; cbn [app releases]; lia.
Qed.

Lemma remove_item_some (r : nat) (q q' : list QueueItem) :
  remove_item r q = Some q' ->
  exists l1 x l2, q = l1 ++ x :: l2 /\ q' = l1 ++ l2 /\ res x = r.
Proof.
  revert q'. induction q as [|y q IH]; simpl; intros q' H; [discriminate|].
  destruct (Nat.eqb (res y) r) eqn:E.
  - apply Nat.eqb_eq in E. inversion H; subst. exists [], y, q'. auto.
  - destruct (remove_item r q) as [q''|]; [|discriminate].
    inversion H; subst. destruct (IH q'' eq_refl) as (l1 & x & l2 & -> & -> & Hx).
    exists (y :: l1), x, l2. auto.
Qed.

Lemma remove_item_none (r : nat) (q : list QueueItem) :
  remove_item r q = None -> ~ In r (map res q).
Proof.
  induction q as [|y q IH]; simpl; intros H; [intros []|].
  destruct (Nat.eqb (res y) r) eqn:E; [discriminate|].
  apply Nat.eqb_neq in E. destruct (remove_item r q); [discriminate|].
  intros [H'|H']; [contradiction|]. now apply IH.
Qed.

(** ** What one release does *)

(** [releaseConnection] takes one off the counter; then, with a request
    waiting, it either resumes the request, which counts it twice, or drops
    it as timed out. *)
Lemma releaseConnection_cases (s : State) (now : Z) s' out :
  releaseConnection s now = (s', out) ->
  maxConnections s' = maxConnections s /\ nextRes s' = nextRes s /\
  totalRequests (connectionStats s') = totalRequests (connectionStats s) /\
  ((connectionQueue s = [] /\ out = [] /\
    s' = set_active s (activeConnections s - 1))
   \/
   (exists item rest,
      connectionQueue s = item :: rest /\ now - timestamp item < 30000 /\
      out = [Callback (res item); Next (res item)] /\
      activeConnections s' = activeConnections s + 1 /\
      connectionQueue s' = rest /\
      listening s' = listening s ++ [res item] /\
      headersSent s' = headersSent s /\
      queuedRequests (connectionStats s') = queuedRequests (connectionStats s) - 1 /\
      timeouts (connectionStats s') = timeouts (connectionStats s) /\
      peakActiveConnections (connectionStats s')
      = Z.max (peakActiveConnections (connectionStats s)) (activeConnections s + 1))
   \/
   (exists item rest,
      connectionQueue s = item :: rest /\ 30000 <= now - timestamp item /\
      (out = [] \/ (out = [Respond (res item) 503 "QUEUED_REQUEST_TIMEOUT"] /\
                    ~ In (res item) (headersSent s))) /\
      activeConnections s' = activeConnections s - 1 /\
      connectionQueue s' = rest /\
      listening s' = listening s /\
      queuedRequests (connectionStats s') = queuedRequests (connectionStats s) - 1 /\
      timeouts (connectionStats s') = timeouts (connectionStats s) + 1 /\
      peakActiveConnections (connectionStats s')
      = peakActiveConnections (connectionStats s))).
Proof.
  unfold releaseConnection. simpl.
  destruct (connectionQueue s) as [|item rest] eqn:Hq.
  - intros H. inversion H; subst. simpl. auto 10.
  - destruct (now - timestamp item <? 30000) eqn:Hfresh.
    + apply Z.ltb_lt in Hfresh. unfold callback, pass_on, take_connection. simpl.
      intros H. inversion H; subst. simpl.
      split; [reflexivity|]. split; [reflexivity|]. split; [reflexivity|].
      right. left. exists item, rest.
      repeat (split; [first [reflexivity|assumption|lia]|]). lia.
    + apply Z.ltb_ge in Hfresh. unfold answer_unless_sent, has_sent. simpl.
      destruct (existsb (Nat.eqb (res item)) (headersSent s)) eqn:Hs;
        intros H; inversion H; subst; simpl;
        (split; [reflexivity|]; split; [reflexivity|]; split; [reflexivity|];
         right; right; exists item, rest;
         split; [reflexivity|]; split; [exact Hfresh|]; split;
         [|repeat split; lia]).
      * now left.
      * right. split; [reflexivity|]. intros Hin.
        assert (existsb (Nat.eqb (res item)) (headersSent s) = true); [|congruence].
        apply existsb_exists. exists (res item). split; [exact Hin|apply Nat.eqb_refl].
Qed.


(** ** The counter and the statistics *)

(** What one event does to the counter, the queue and the statistics, read
    against the calls it makes. *)
Lemma step_deltas (s : State) (e : Event) s' out :
  step s e = (s', out) ->
  maxConnections s' = maxConnections s /\
  activeConnections s'
  = activeConnections s + Z.of_nat (List.length (passed out)) + callbacks out
    - releases out /\
  JS.len (connectionQueue s') - queuedRequests (connectionStats s')
  = JS.len (connectionQueue s) - queuedRequests (connectionStats s) /\
  totalRequests (connectionStats s') - Z.of_nat (nextRes s')
  = totalRequests (connectionStats s) - Z.of_nat (nextRes s) /\
  totalRequests (connectionStats s') - timeouts (connectionStats s')
    - queuedRequests (connectionStats s')
  = totalRequests (connectionStats s) - timeouts (connectionStats s)
    - queuedRequests (connectionStats s) + Z.of_nat (List.length (passed out)) /\
  timeouts (connectionStats s) <= timeouts (connectionStats s') /\
  peakActiveConnections (connectionStats s) <= peakActiveConnections (connectionStats s') /\
  (activeConnections s <= peakActiveConnections (connectionStats s) ->
   activeConnections s' <= peakActiveConnections (connectionStats s')).
Proof.
  assert (forall s0 r now s1 out1,
             listener s0 r now = (s1, out1) ->
             maxConnections s1 = maxConnections s0 /\
             activeConnections s1
             = activeConnections s0 + Z.of_nat (List.length (passed out1))
               + callbacks out1 - releases out1 /\
             JS.len (connectionQueue s1) - queuedRequests (connectionStats s1)
             = JS.len (connectionQueue s0) - queuedRequests (connectionStats s0) /\
             totalRequests (connectionStats s1) - Z.of_nat (nextRes s1)
             = totalRequests (connectionStats s0) - Z.of_nat (nextRes s0) /\
             totalRequests (connectionStats s1) - timeouts (connectionStats s1)
               - queuedRequests (connectionStats s1)
             = totalRequests (connectionStats s0) - timeouts (connectionStats s0)
               - queuedRequests (connectionStats s0)
               + Z.of_nat (List.length (passed out1)) /\
             timeouts (connectionStats s0) <= timeouts (connectionStats s1) /\
             peakActiveConnections (connectionStats s0)
             <= peakActiveConnections (connectionStats s1) /\
             (activeConnections s0 <= peakActiveConnections (connectionStats s0) ->
              activeConnections s1 <= peakActiveConnections (connectionStats s1)))
    as Hlistener.
  { intros s0 r now s1 out1. unfold listener.
    destruct (existsb (Nat.eqb r) (listening s0)).
    - destruct (releaseConnection s0 now) as [s2 out2] eqn:Hr.
      intros H. inversion H; subst s2 out1. clear H.
      destruct (releaseConnection_cases _ _ _ _ Hr)
        as (E1 & E2 & E3 &
            [(Hq & -> & ->)
            |[(item & rest & Hq & _ & -> & A & Q & _ & _ & B & C & D)
             |(item & rest & Hq & _ & Hout & A & Q & _ & B & C & D)]]).
      + simpl. rewrite Hq. unfold JS.len. simpl. repeat split; lia.
      + rewrite E1, E2, E3, A, Q, B, C, D, Hq. unfold JS.len. simpl List.length.
        cbn [passed callbacks releases List.length]. repeat split; lia.
      + rewrite E1, E2, E3, A, Q, B, C, D, Hq. unfold JS.len. simpl List.length.
        destruct Hout as [->|[-> _]]; cbn [passed callbacks releases List.length];
          repeat split; lia.
    - intros H. inversion H; subst. simpl. repeat split; lia. }
  destruct e as [now|r now|r now|r]; simpl.
  - unfold middleware. simpl.
    destruct (activeConnections s <? maxConnections s).
    + unfold pass_on, take_connection. simpl. intros H. inversion H; subst. simpl.
      repeat split; lia.
    + intros H. inversion H; subst. simpl.
      unfold JS.len. rewrite length_app. simpl List.length.
      destruct (Z.rem (queuedRequests (connectionStats s) + 1) 10 =? 0); simpl;
        repeat split; lia.
  - intros H. apply Hlistener in H. exact H.
  - apply Hlistener.
  - unfold queue_timeout.
    destruct (remove_item r (connectionQueue s)) as [q'|] eqn:Hrm.
    + destruct (remove_item_some _ _ _ Hrm) as (l1 & x & l2 & E1 & E2 & _).
      assert (JS.len (connectionQueue s) = JS.len q' + 1) as Hlen.
      { rewrite E1, E2. unfold JS.len. rewrite !length_app. simpl. lia. }
      unfold answer_unless_sent, has_sent. simpl.
      destruct (existsb (Nat.eqb r) (headersSent s)); intros H; inversion H; subst; simpl;
        repeat split; lia.
    + intros H. inversion H; subst. simpl. repeat split; lia.
Qed.

(** X14.  Over every run of the middleware the statistics account for every
    request: [queuedRequests] is the length of the queue, [totalRequests] is
    the number of requests seen, and each of them is passed on, counted as a
    timeout or still queued; the peak is never below the counter. *)
Theorem stats_account_for_every_request
  (maxConnections : Z) (events : list Event) (s : State) (out : list Action) :
  run (create maxConnections) events = (s, out) ->
  queuedRequests (connectionStats s) = JS.len (connectionQueue s) /\
  totalRequests (connectionStats s) = Z.of_nat (nextRes s) /\
  totalRequests (connectionStats s)
  = Z.of_nat (List.length (passed out)) + timeouts (connectionStats s)
    + queuedRequests (connectionStats s) /\
  0 <= timeouts (connectionStats s) /\
  activeConnections s <= peakActiveConnections (connectionStats s).
Proof.
  assert (forall events s0 s1 out1,
             run s0 events = (s1, out1) ->
             JS.len (connectionQueue s1) - queuedRequests (connectionStats s1)
             = JS.len (connectionQueue s0) - queuedRequests (connectionStats s0) /\
             totalRequests (connectionStats s1) - Z.of_nat (nextRes s1)
             = totalRequests (connectionStats s0) - Z.of_nat (nextRes s0) /\
             totalRequests (connectionStats s1) - timeouts (connectionStats s1)
               - queuedRequests (connectionStats s1)
             = totalRequests (connectionStats s0) - timeouts (connectionStats s0)
               - queuedRequests (connectionStats s0)
               + Z.of_nat (List.length (passed out1)) /\
             timeouts (connectionStats s0) <= timeouts (connectionStats s1) /\
             (activeConnections s0 <= peakActiveConnections (connectionStats s0) ->
              activeConnections s1 <= peakActiveConnections (connectionStats s1)))
    as Hrun.
  { clear. induction events as [|e events IH]; intros s0 s1 out1 H; simpl in H.
    - inversion H; subst. simpl. repeat split; lia.
    - destruct (step s0 e) as [s2 out2] eqn:He.
      destruct (run s2 events) as [s3 out3] eqn:Hr. inversion H; subst s3 out1.
      destruct (step_deltas _ _ _ _ He) as (_ & _ & A1 & A2 & A3 & A4 & _ & A5).
      destruct (IH _ _ _ Hr) as (B1 & B2 & B3 & B4 & B5).
      rewrite passed_app, length_app. repeat split; lia. }
  intros H. destruct (Hrun _ _ _ _ H) as (A1 & A2 & A3 & A4 & A5).
  simpl in *. unfold JS.len in *. simpl in *. repeat split; lia.
Qed.

Lemma run_counter (events : list Event) :
  forall s s' out,
    run s events = (s', out) ->
    activeConnections s'
    = activeConnections s + Z.of_nat (List.length (passed out)) + callbacks out
      - releases out.
Proof.
  induction events as [|e events IH]; intros s s' out H; simpl in H.
  - inversion H; subst. simpl. lia.
  - destruct (step s e) as [s1 out1] eqn:He.
    destruct (run s1 events) as [s2 out2] eqn:Hr. inversion H; subst s2 out.
    destruct (step_deltas _ _ _ _ He) as (_ & A & _).
    rewrite (IH _ _ _ Hr), A, passed_app, length_app, callbacks_app, releases_app. lia.
Qed.


Lemma listening_true (s : State) (r : nat) :
  In r (listening s) -> existsb (Nat.eqb r) (listening s) = true.
Proof.
  intros H. apply existsb_exists. exists r. split; [exact H|apply Nat.eqb_refl].
Qed.

(** X15.  The counter is not the number of requests in flight: it counts every
    request passed on, counts a request resumed from the queue once more,
    and goes down at every ['finish'] and every ['close'].  So a response
    that emits both takes off two when nobody waits, and a release that
    resumes a waiting request leaves the counter one higher than before. *)
Theorem activeConnections_counts_calls
  (maxConnections : Z) (events : list Event) (s : State) (out : list Action) :
  run (create maxConnections) events = (s, out) ->
  activeConnections s
  = Z.of_nat (List.length (passed out)) + callbacks out - releases out /\
  (forall r now1 now2,
      In r (listening s) -> connectionQueue s = [] ->
      run s [Finish r now1; Close r now2]
      = (set_headersSent (set_active s (activeConnections s - 2)) (r :: headersSent s),
         [Release r; Release r])) /\
  (forall r now item rest,
      In r (listening s) -> connectionQueue s = item :: rest ->
      now - timestamp item < 30000 ->
      exists s',
        step s (Close r now) = (s', [Release r; Callback (res item); Next (res item)]) /\
        activeConnections s' = activeConnections s + 1 /\
        connectionQueue s' = rest).
Proof.
  intros Hrun. split; [|split].
  - rewrite (run_counter _ _ _ _ Hrun). simpl. lia.
  - intros r now1 now2 Hr Hq. simpl. unfold listener. simpl.
    rewrite (listening_true _ _ Hr). unfold releaseConnection. simpl. rewrite Hq. simpl.
    rewrite (listening_true _ _ Hr). rewrite Hq. unfold set_headersSent, set_active. simpl.
    replace (activeConnections s - 1 - 1) with (activeConnections s - 2) by lia.
    reflexivity.
  - intros r now item rest Hr Hq Hfresh. simpl. unfold listener.
    rewrite (listening_true _ _ Hr).
    destruct (releaseConnection s now) as [s1 out1] eqn:Hrel.
    destruct (releaseConnection_cases _ _ _ _ Hrel)
      as (_ & _ & _ &
          [(Hq' & _)
          |[(item' & rest' & Hq' & _ & -> & A & Q & _)
           |(item' & rest' & Hq' & Hstale & _)]]).
    + congruence.
    + rewrite Hq in Hq'. inversion Hq'; subst item' rest'.
      exists s1. auto.
    + rewrite Hq in Hq'. inversion Hq'; subst item' rest'. lia.
Qed.

(** ** More requests in flight than connections *)

Lemma arrivals_pass (t : Z) (n : nat) :
  forall s s' out,
    activeConnections s + Z.of_nat n <= maxConnections s ->
    run s (repeat (Arrive t) n) = (s', out) ->
    out = map Next (seq (nextRes s) n) /\
    activeConnections s' = activeConnections s + Z.of_nat n /\
    connectionQueue s' = connectionQueue s /\
    maxConnections s' = maxConnections s.
Proof.
  induction n as [|n IH]; intros s s' out Hroom H; simpl in H.
  - inversion H; subst. simpl. repeat split; lia.
  - unfold middleware in H. simpl in H.
    destruct (activeConnections s <? maxConnections s) eqn:E;
      [|apply Z.ltb_ge in E; lia].
    unfold pass_on, take_connection in H. simpl in H.
    match type of H with
    | (let '(s2, out2) := run ?s1 _ in _) = _ =>
        destruct (run s1 (repeat (Arrive t) n)) as [s2 out2] eqn:Hr
    end.
    inversion H; subst s2 out. clear H.
    apply IH in Hr; [|simpl; lia]. simpl in Hr.
    destruct Hr as (-> & A & B & C). simpl. repeat split; auto. lia.
Qed.

Lemma passed_passes (l : list nat) : passed (map Next l) = l.
Proof. induction l as [|x l IH]; simpl; [reflexivity|now rewrite IH]. Qed.

Lemma released_passes (r : nat) (l : list nat) : released r (map Next l) = false.
Proof. unfold released. induction l as [|x l IH]; simpl; auto. Qed.

(** X16.  The counter does not bound the requests in flight.  With any limit of
    one or more: one request arrives and its response emits ['finish'] and
    ['close'], which leaves the counter at -1; the next [maxConnections + 1]
    arrivals are then all passed on, with nothing queued. *)
Theorem more_in_flight_than_maxConnections (maxConnections : Z) :
  1 <= maxConnections ->
  exists s out,
    run (create maxConnections) (drain_then_fill (Z.to_nat (maxConnections + 1)))
    = (s, out) /\
    in_flight out = seq 1 (Z.to_nat (maxConnections + 1)) /\
    Z.of_nat (List.length (in_flight out)) = maxConnections + 1 /\
    activeConnections s = maxConnections /\
    connectionQueue s = [].
Proof.
  intros Hm. unfold drain_then_fill.
  set (n := Z.to_nat (maxConnections + 1)).
  simpl. unfold middleware. simpl.
  destruct (0 <? maxConnections) eqn:E; [|apply Z.ltb_ge in E; lia].
  unfold pass_on, take_connection, listener, releaseConnection. simpl.
  match goal with
  | |- context [run ?s1 (repeat (Arrive 20) n)] =>
      destruct (run s1 (repeat (Arrive 20) n)) as [s2 out2] eqn:Hr
  end.
  apply arrivals_pass in Hr; [|cbn -[Z.add Z.of_nat]; unfold n; lia].
  cbn -[Z.add Z.of_nat] in Hr.
  destruct Hr as (-> & A & B & C).
  eexists. eexists. split; [reflexivity|].
  assert (in_flight ([Next 0%nat] ++ [Release 0%nat] ++ [Release 0%nat]
                      ++ map Next (seq 1 n)) = seq 1 n) as Hfl.
  { unfold in_flight. simpl.
    rewrite passed_passes.
    apply forallb_filter_id. apply forallb_forall. intros r Hr.
    apply in_seq in Hr. unfold released. simpl.
    destruct r as [|r]; [lia|]. simpl.
    change (negb (released (S r) (map Next (seq 1 n))) = true).
    now rewrite released_passes. }
  split; [exact Hfl|]. split.
  { change (Z.of_nat (List.length
                        (in_flight ([Next 0%nat] ++ [Release 0%nat] ++ [Release 0%nat]
                                    ++ map Next (seq 1 n)))) = maxConnections + 1).
    rewrite Hfl, length_seq. unfold n. lia. }
  split; [unfold n in A; lia|exact B].
Qed.


(** ** Every request is passed on or answered at most once *)

Ltac split_tidy := split; [|split; [|split; [|split; [|split; [|split]]]]].

(** A queued request leaves the queue without being passed on; it is
    answered or not. *)
Lemma tidy_drop (s s' : State) (out out1 : list Action)
  (l1 l2 : list QueueItem) (x : QueueItem) :
  tidy s out ->
  connectionQueue s = l1 ++ x :: l2 ->
  connectionQueue s' = l1 ++ l2 ->
  nextRes s' = nextRes s -> listening s' = listening s ->
  passed out1 = [] ->
  refused out1 = [] \/ refused out1 = [res x] ->
  tidy s' (out ++ out1).
Proof.
  intros (T1 & T2 & T3 & T4 & T5 & T6 & T7) Hq Hq' Hn Hl Hp Hr.
  assert (forall r, In r (map res (l1 ++ l2)) -> In r (map res (connectionQueue s))) as Hsub.
  { intros r Hin. rewrite Hq. rewrite map_app in *. simpl.
    apply in_app_iff in Hin as [|]; apply in_app_iff; [left|right; right]; assumption. }
  assert (In (res x) (map res (connectionQueue s))) as Hx.
  { rewrite Hq, map_app. apply in_app_iff. right. now left. }
  assert (~ In (res x) (map res (l1 ++ l2))) as Hout.
  { pose proof T1 as Hnd. rewrite Hq, map_app in Hnd. simpl in Hnd.
    apply NoDup_remove_2 in Hnd. now rewrite map_app. }
  assert (NoDup (map res (l1 ++ l2))) as Hnd'.
  { pose proof T1 as Hnd. rewrite Hq, map_app in Hnd. simpl in Hnd.
    apply NoDup_remove_1 in Hnd. now rewrite map_app. }
  unfold tidy. rewrite passed_app, refused_app, Hp, app_nil_r, Hq', Hn, Hl. split_tidy.
  - exact Hnd'.
  - intros r Hin. apply T2. now apply Hsub.
  - exact T3.
  - exact T4.
  - exact T5.
  - destruct Hr as [->| ->]; [now rewrite app_nil_r|].
    apply NoDup_app; [exact T6|repeat constructor; intros []|].
    intros r Hin [<-|[]]. destruct (T7 _ Hin) as (_ & B & _). contradiction.
  - intros r Hin.
    assert (In r (refused out) \/ (r = res x /\ refused out1 = [res x])) as [Hold|[-> _]].
    { destruct Hr as [E|E]; rewrite E in Hin.
      - rewrite app_nil_r in Hin. now left.
      - apply in_app_iff in Hin as [|[<-|[]]]; auto. }
    + destruct (T7 _ Hold) as (A & B & C). split; [exact A|]. split; [|exact C].
      intros Hin'. apply B. now apply Hsub.
    + destruct (T2 _ Hx) as [A B]. auto.
Qed.

(** A request that is not yet known to the listeners is passed on: a new
    arrival, or the head of the queue. *)
Lemma tidy_pass (s s' : State) (out out1 : list Action) (r : nat) :
  tidy s out ->
  (r < nextRes s')%nat -> (nextRes s <= nextRes s')%nat ->
  ~ In r (listening s) -> ~ In r (refused out) ->
  ~ In r (map res (connectionQueue s')) ->
  NoDup (map res (connectionQueue s')) ->
  (forall r', In r' (map res (connectionQueue s')) ->
     In r' (map res (connectionQueue s))) ->
  listening s' = listening s ++ [r] ->
  passed out1 = [r] -> refused out1 = [] ->
  tidy s' (out ++ out1).
Proof.
  intros (T1 & T2 & T3 & T4 & T5 & T6 & T7) Hr Hn Hl Hf Hq Hnd Hsub Hl' Hp Hrf.
  unfold tidy. rewrite passed_app, refused_app, Hp, Hrf, app_nil_r, Hl'. split_tidy.
  - exact Hnd.
  - intros r' Hin. destruct (T2 _ (Hsub _ Hin)) as [A B]. split; [lia|].
    intros Hin'. apply in_app_iff in Hin' as [|[<-|[]]]; contradiction.
  - now rewrite T3.
  - apply NoDup_app; [exact T4|repeat constructor; intros []|].
    intros r' Hin [<-|[]]. contradiction.
  - intros r' Hin. apply in_app_iff in Hin as [Hin|[<-|[]]]; [|exact Hr].
    specialize (T5 _ Hin). lia.
  - exact T6.
  - intros r' Hin. destruct (T7 _ Hin) as (A & B & C). split; [lia|]. split.
    + intros Hin'. apply B. now apply Hsub.
    + intros Hin'. apply in_app_iff in Hin' as [|[<-|[]]]; contradiction.
Qed.

Lemma tidy_same (s s' : State) (out out1 : list Action) :
  tidy s out ->
  connectionQueue s' = connectionQueue s -> nextRes s' = nextRes s ->
  listening s' = listening s -> passed out1 = [] -> refused out1 = [] ->
  tidy s' (out ++ out1).
Proof.
  intros T Hq Hn Hl Hp Hr. unfold tidy.
  rewrite passed_app, refused_app, Hp, Hr, !app_nil_r, Hq, Hn, Hl. exact T.
Qed.

Lemma listener_tidy (s : State) (r : nat) (now : Z) s' out out1 :
  tidy s out -> listener s r now = (s', out1) -> tidy s' (out ++ out1).
Proof.
  intros T. unfold listener.
  destruct (existsb (Nat.eqb r) (listening s)).
  - destruct (releaseConnection s now) as [s1 out2] eqn:Hrel.
    intros H. inversion H; subst s1 out1. clear H.
    destruct (releaseConnection_cases _ _ _ _ Hrel)
      as (_ & En & _ &
          [(Hq & -> & ->)
          |[(item & rest & Hq & _ & -> & _ & Q & L & _)
           |(item & rest & Hq & _ & Hout & _ & Q & L & _)]]).
    + now apply (tidy_same s).
    + pose proof T as (T1 & T2 & _ & _ & _ & _ & T7).
      rewrite Hq in T1, T2. simpl in T1, T2. apply NoDup_cons_iff in T1 as [Hfresh Hnd].
      destruct (T2 (res item)) as [A B]; [now left|].
      apply (tidy_pass s s' out _ (res item)); auto.
      * lia.
      * lia.
      * intros Hin. destruct (T7 _ Hin) as (_ & C & _). apply C. rewrite Hq. now left.
      * now rewrite Q.
      * now rewrite Q.
      * rewrite Q, Hq. intros r' Hin. now right.
    + apply (tidy_drop s s' out _ [] rest item); auto.
      * destruct Hout as [->|[-> _]]; reflexivity.
      * destruct Hout as [->|[-> _]]; [now left|now right].
  - intros H. inversion H; subst s' out1. now apply (tidy_same s).
Qed.

Lemma step_tidy (s : State) (e : Event) s' out out1 :
  tidy s out -> step s e = (s', out1) -> tidy s' (out ++ out1).
Proof.
  intros T. destruct e as [now|r now|r now|r]; simpl.
  - pose proof T as (T1 & T2 & T3 & T4 & T5 & T6 & T7).
    unfold middleware. simpl.
    destruct (activeConnections s <? maxConnections s).
    + unfold pass_on, take_connection. simpl. intros H. inversion H; subst s' out1.
      apply (tidy_pass s _ out _ (nextRes s)); simpl; auto.
      * intros Hin. specialize (T5 _ Hin). lia.
      * intros Hin. destruct (T7 _ Hin). lia.
      * intros Hin. destruct (T2 _ Hin). lia.
    + intros H. inversion H; subst s' out1. clear H.
      match goal with
      | |- tidy ?s1 (out ++ ?o) => assert (passed o = [] /\ refused o = []) as [Hp Hr]
      end.
      { destruct (Z.rem _ 10 =? 0); auto. }
      unfold tidy. rewrite passed_app, refused_app, Hp, Hr, !app_nil_r. simpl.
      rewrite map_app. simpl. split_tidy.
      * apply NoDup_app; [exact T1|repeat constructor; intros []|].
        intros r Hin [<-|[]]. destruct (T2 _ Hin). lia.
      * intros r Hin. apply in_app_iff in Hin as [Hin|[<-|[]]].
        -- destruct (T2 _ Hin). split; [lia|assumption].
        -- split; [lia|]. intros Hin. specialize (T5 _ Hin). lia.
      * exact T3.
      * exact T4.
      * intros r Hin. specialize (T5 _ Hin). lia.
      * exact T6.
      * intros r Hin. destruct (T7 _ Hin) as (A & B & C). split; [lia|]. split; [|exact C].
        intros Hin'. apply in_app_iff in Hin' as [|[<-|[]]]; [contradiction|lia].
  - intros H. apply (listener_tidy _ r now _ out out1) in H; [exact H|].
    replace out with (out ++ []) by apply app_nil_r.
    now apply (tidy_same s).
  - now apply listener_tidy.
  - unfold queue_timeout.
    destruct (remove_item r (connectionQueue s)) as [q'|] eqn:Hrm.
    + destruct (remove_item_some _ _ _ Hrm) as (l1 & x & l2 & E1 & E2 & E3).
      unfold answer_unless_sent, has_sent. simpl.
      destruct (existsb (Nat.eqb r) (headersSent s)); intros H; inversion H; subst s' out1;
        apply (tidy_drop s _ out _ l1 l2 x); simpl; auto.
      right. now rewrite E3.
    + intros H. inversion H; subst s' out1. now apply (tidy_same s).
Qed.

Lemma run_tidy (events : list Event) :
  forall s out s' out1,
    tidy s out -> run s events = (s', out1) -> tidy s' (out ++ out1).
Proof.
  induction events as [|e events IH]; intros s out s' out1 T H; simpl in H.
  - inversion H; subst. now rewrite app_nil_r.
  - destruct (step s e) as [s1 o1] eqn:He.
    destruct (run s1 events) as [s2 o2] eqn:Hr. inversion H; subst s2 out1.
    rewrite app_assoc. apply (IH s1); [|exact Hr]. now apply (step_tidy s e).
Qed.

(** X17.  Over every run, no request is passed to its handler twice, none is
    answered by the middleware twice, none is both passed on and answered,
    and a request passed on or answered is no longer queued. *)
Theorem request_passed_or_refused_once
  (maxConnections : Z) (events : list Event) (s : State) (out : list Action) :
  run (create maxConnections) events = (s, out) ->
  NoDup (passed out) /\
  NoDup (refused out) /\
  (forall r, In r (refused out) -> ~ In r (passed out)) /\
  (forall r, In r (passed out) \/ In r (refused out) ->
     (r < nextRes s)%nat /\ ~ In r (map res (connectionQueue s))) /\
  NoDup (map res (connectionQueue s)).
Proof.
  intros Hrun.
  assert (tidy (create maxConnections) []) as T0.
  { unfold tidy. simpl. split_tidy.
    - constructor.
    - intros r [].
    - reflexivity.
    - constructor.
    - intros r [].
    - constructor.
    - intros r []. }
  pose proof (run_tidy _ _ _ _ _ T0 Hrun) as (T1 & T2 & T3 & T4 & T5 & T6 & T7).
  simpl in *. rewrite <- T3.
  split; [exact T4|]. split; [exact T6|]. split; [|split; [|exact T1]].
  - intros r Hin. now apply T7.
  - intros r [Hin|Hin].
    + split; [now apply T5|]. intros Hq. destruct (T2 _ Hq). contradiction.
    + destruct (T7 _ Hin) as (A & B & _). auto.
Qed.

(** ** A pool of one *)

Lemma stats_account_for_every_request_witness :
  exists s out,
    run (create 1) pool_of_one_events = (s, out) /\
    (queuedRequests (connectionStats s) = JS.len (connectionQueue s) /\
     totalRequests (connectionStats s) = Z.of_nat (nextRes s) /\
     totalRequests (connectionStats s)
     = Z.of_nat (List.length (passed out)) + timeouts (connectionStats s)
       + queuedRequests (connectionStats s) /\
     0 <= timeouts (connectionStats s) /\
     activeConnections s <= peakActiveConnections (connectionStats s)).
Proof.
  eexists. eexists. split; [vm_compute; reflexivity|].
  eapply (stats_account_for_every_request 1 pool_of_one_events).
  vm_compute. reflexivity.
Defined.

Lemma activeConnections_counts_calls_witness :
  exists s out,
    run (create 1) pool_of_one_events = (s, out) /\
    (activeConnections s
     = Z.of_nat (List.length (passed out)) + callbacks out - releases out /\
     (forall r now1 now2,
         In r (listening s) -> connectionQueue s = [] ->
         run s [Finish r now1; Close r now2]
         = (set_headersSent (set_active s (activeConnections s - 2)) (r :: headersSent s),
            [Release r; Release r])) /\
     (forall r now item rest,
         In r (listening s) -> connectionQueue s = item :: rest ->
         now - timestamp item < 30000 ->
         exists s',
           step s (Close r now)
           = (s', [Release r; Callback (res item); Next (res item)]) /\
           activeConnections s' = activeConnections s + 1 /\
           connectionQueue s' = rest)).
Proof.
  eexists. eexists. split; [vm_compute; reflexivity|].
  eapply (activeConnections_counts_calls 1 pool_of_one_events).
  vm_compute. reflexivity.
Defined.

Lemma more_in_flight_than_maxConnections_witness :
  exists s out,
    run (create 3) (drain_then_fill (Z.to_nat (3 + 1))) = (s, out) /\
    in_flight out = seq 1 (Z.to_nat (3 + 1)) /\
    Z.of_nat (List.length (in_flight out)) = 3 + 1 /\
    activeConnections s = 3 /\
    connectionQueue s = [].
Proof.
  apply (more_in_flight_than_maxConnections 3). lia.
Defined.

Lemma request_passed_or_refused_once_witness :
  exists s out,
    run (create 1) pool_of_one_events = (s, out) /\
    (NoDup (passed out) /\
     NoDup (refused out) /\
     (forall r, In r (refused out) -> ~ In r (passed out)) /\
     (forall r, In r (passed out) \/ In r (refused out) ->
        (r < nextRes s)%nat /\ ~ In r (map res (connectionQueue s))) /\
     NoDup (map res (connectionQueue s))).
Proof.
  eexists. eexists. split; [vm_compute; reflexivity|].
  eapply (request_passed_or_refused_once 1 pool_of_one_events).
  vm_compute. reflexivity.
Defined.

End ConnectionPoolMiddlewareProofs.

(* ===================================================================== *)
(** * Properties of [query], the health check and the metrics             *)
(* ===================================================================== *)

Module PoolQueryProofs.
Import ConnectionPool PoolQuery.

Ltac run_query :=
  unfold query, traceDatabaseOperation, query_body, finally, catching, and_then, exec,
    settle_with, pure, raise, on_pool, call, set_calls, set_metrics, set_queryTimes,
    set_monitor; simpl.

(** X18.  [query] asks for a connection first and ends the span last.  Between
    the two it releases the client exactly once when the connection was
    there, after the statement was sent, and never when it was not; and what
    the caller gets is the rows, or the very error that [pool.connect()] or
    [client.query] rejected with. *)
Theorem query_releases_and_rethrows {R : Type} (w : QueryWorld R)
  (text : string) (params : list string) (start stop : Z) (p : Pool) :
  exists t,
    calls (snd (query w text params start stop p))
    = calls p ++ PoolConnect :: t
      ++ [EndSpan (match query_error w with None => true | Some _ => false end)] /\
    release_count (PoolConnect :: t)
    = match connect_outcome w with Returned _ => 1%nat | Thrown _ => 0%nat end /\
    (connect_outcome w = Returned tt ->
     exists t1, t = ClientQuery text :: t1 ++ [ClientRelease]) /\
    fst (query w text params start stop p)
    = match query_error w with
      | Some e => Thrown e
      | None => query_outcome w
      end.
Proof.
  unfold query_error. run_query.
  destruct (connect_outcome w) as [[]|ec] eqn:Hc; simpl.
  - destruct (query_outcome w) as [rows|eq] eqn:Hq; simpl.
    + exists [ClientQuery text; ClientRelease].
      repeat rewrite <- app_assoc. simpl. repeat split; try reflexivity.
      intros _. exists []. reflexivity.
    + exists [ClientQuery text; LogLine "Database query error"; ClientRelease].
      repeat rewrite <- app_assoc. simpl. repeat split; try reflexivity.
      intros _. exists [LogLine "Database query error"]. reflexivity.
  - exists [LogLine "Database query error"].
    repeat rewrite <- app_assoc. simpl. repeat split; try reflexivity.
    intros H. discriminate H.
Qed.


(** X19.  Every call of [query] counts once: as a query when it succeeded, as an
    error when it failed.  Only a successful call adds its duration to
    [queryTimes]; the monitor is told of every call, with the duration
    negated when the call failed. *)
Theorem query_counts_one_outcome {R : Type} (w : QueryWorld R)
  (text : string) (params : list string) (start stop : Z) (p : Pool) :
  let p' := snd (query w text params start stop p) in
  totalQueries (metrics p')
  = totalQueries (metrics p) + match query_error w with Some _ => 0 | None => 1 end /\
  totalErrors (metrics p')
  = totalErrors (metrics p) + match query_error w with Some _ => 1 | None => 0 end /\
  queryTimes p'
  = match query_error w with
    | Some _ => queryTimes p
    | None => queryTimes p ++ [stop - start]
    end /\
  monitor p' = recordQuery (monitor p) text (reported_time w start stop) params stop /\
  startTime p' = startTime p /\ isShuttingDown p' = isShuttingDown p.
Proof.
  unfold reported_time, query_error. run_query.
  destruct (connect_outcome w) as [[]|ec]; simpl.
  - destruct (query_outcome w) as [rows|eq]; simpl; repeat split; lia.
  - repeat split; lia.
Qed.

Lemma slice_last_snoc {A : Type} (n : nat) (l : list A) (x : A) :
  (0 < n)%nat -> exists older, slice_last n (l ++ [x]) = older ++ [x].
Proof.
  intros Hn. unfold slice_last. rewrite length_app. simpl.
  exists (skipn (List.length l + 1 - n) l).
  rewrite skipn_app.
  replace (List.length l + 1 - n - List.length l)%nat with 0%nat by lia.
  reflexivity.
Qed.

Lemma recordQuery_last (m : Monitor) (text : string) (time : Z) (params : list string)
  (now : Z) :
  exists older entry,
    queryMetrics (recordQuery m text time params now) = older ++ [entry] /\
    executionTime entry = time /\
    slow entry = (slowQueryThreshold m <? time) /\
    qm_timestamp entry = now.
Proof.
  unfold recordQuery. simpl.
  destruct (1000 <? JS.len (queryMetrics m ++ _)).
  - destruct (slice_last_snoc 1000 (queryMetrics m)
                {| qm_query := String.substring 0 500 text; executionTime := time;
                   qm_timestamp := now; slow := slowQueryThreshold m <? time;
                   parameters := if enableDetailedLogging m then Some params else None |})
      as [older E]; [lia|].
    rewrite E. eexists. eexists. split; [reflexivity|]. simpl. auto.
  - eexists. eexists. split; [reflexivity|]. simpl. auto.
Qed.

(** X20.  A call of [query] that fails is reported to the monitor with a negated
    duration, so with a clock that does not run backwards and a threshold
    that is not negative it is never flagged or logged as slow, however long
    it took. *)
Theorem failed_query_never_slow {R : Type} (w : QueryWorld R)
  (text : string) (params : list string) (start stop : Z) (p : Pool) (e : string) :
  query_error w = Some e ->
  start <= stop ->
  0 <= slowQueryThreshold (monitor p) ->
  let p' := snd (query w text params start stop p) in
  fst (query w text params start stop p) = Thrown e /\
  monitorLog (monitor p') = monitorLog (monitor p) /\
  exists older entry,
    queryMetrics (monitor p') = older ++ [entry] /\
    executionTime entry = - (stop - start) /\
    slow entry = false.
Proof.
  intros He Ht Hth. cbv zeta.
  assert (fst (query w text params start stop p) = Thrown e /\
          monitor (snd (query w text params start stop p))
          = recordQuery (monitor p) text (- (stop - start)) params stop) as [Hr Hm].
  { unfold query_error in He. run_query.
    destruct (connect_outcome w) as [[]|ec]; simpl.
    - destruct (query_outcome w) as [rows|eq]; [discriminate|].
      inversion He; subst. simpl. auto.
    - inversion He; subst. simpl. auto. }
  split; [exact Hr|]. rewrite Hm.
  assert ((slowQueryThreshold (monitor p) <? - (stop - start)) = false) as Hslow
      by (apply Z.ltb_ge; lia).
  split.
  - unfold recordQuery. simpl. now rewrite Hslow.
  - destruct (recordQuery_last (monitor p) text (- (stop - start)) params stop)
      as (older & entry & E1 & E2 & E3 & _).
    exists older, entry. rewrite E3, Hslow. auto.
Qed.


(** ** The error-rate warning *)

Lemma run_call_fields (p : Pool) (c : QueryCall) :
  totalQueries (metrics (run_call p c))
  = totalQueries (metrics p)
    + match query_error (call_world c) with Some _ => 0 | None => 1 end /\
  totalErrors (metrics (run_call p c))
  = totalErrors (metrics p)
    + match query_error (call_world c) with Some _ => 1 | None => 0 end /\
  forall msg, msg <> "Database query error" ->
              In (LogLine msg) (calls (run_call p c)) -> In (LogLine msg) (calls p).
Proof.
  unfold run_call, query_error. run_query.
  destruct (connect_outcome (call_world c)) as [[]|ec]; simpl.
  - destruct (query_outcome (call_world c)) as [rows|eq]; simpl.
    + split; [lia|]. split; [lia|]. intros msg Hne Hin.
      repeat (apply in_app_iff in Hin as [Hin|[Hin|[]]]; [|discriminate Hin]).
      exact Hin.
    + split; [lia|]. split; [lia|]. intros msg Hne Hin.
      apply in_app_iff in Hin as [Hin|[Hin|[]]]; [|discriminate Hin].
      apply in_app_iff in Hin as [Hin|[Hin|[]]]; [|discriminate Hin].
      apply in_app_iff in Hin as [Hin|[Hin|[]]]; [|congruence].
      apply in_app_iff in Hin as [Hin|[Hin|[]]]; [|discriminate Hin].
      apply in_app_iff in Hin as [Hin|[Hin|[]]]; [|discriminate Hin].
      exact Hin.
  - split; [lia|]. split; [lia|]. intros msg Hne Hin.
    apply in_app_iff in Hin as [Hin|[Hin|[]]]; [|discriminate Hin].
    apply in_app_iff in Hin as [Hin|[Hin|[]]]; [|congruence].
    apply in_app_iff in Hin as [Hin|[Hin|[]]]; [|discriminate Hin].
    exact Hin.
Qed.

Lemma run_calls_failing (l : list QueryCall) :
  forall p,
    Forall (fun c => query_error (call_world c) <> None) l ->
    totalQueries (metrics (run_calls p l)) = totalQueries (metrics p) /\
    totalErrors (metrics (run_calls p l))
    = totalErrors (metrics p) + Z.of_nat (List.length l) /\
    forall msg, msg <> "Database query error" ->
                In (LogLine msg) (calls (run_calls p l)) -> In (LogLine msg) (calls p).
Proof.
  induction l as [|c l IH]; intros p Hall; simpl.
  - split; [reflexivity|]. split; [lia|]. auto.
  - inversion Hall as [|? ? Hc Hl]; subst.
    destruct (run_call_fields p c) as (A1 & A2 & A3).
    destruct (IH (run_call p c) Hl) as (B1 & B2 & B3).
    unfold run_calls in *. simpl.
    destruct (query_error (call_world c)); [|congruence].
    split; [lia|]. split; [lia|]. intros msg Hne Hin. apply (A3 msg Hne). now apply B3.
Qed.

(** X21.  [totalQueries] counts only the calls that succeeded, and
    [checkPoolHealth] computes the error rate only when it is positive.  So
    a pool whose every query has failed never logs the error-rate warning,
    however many errors it has counted. *)
Theorem failing_pool_raises_no_error_rate_warning
  (m : Monitor) (t0 : Z) (l : list QueryCall) (pg : PgCounts) (now : Z) :
  Forall (fun c => query_error (call_world c) <> None) l ->
  totalQueries (metrics (run_calls (create m t0) l)) = 0 /\
  totalErrors (metrics (run_calls (create m t0) l)) = Z.of_nat (List.length l) /\
  ~ In (LogLine "High database error rate detected")
       (calls (monitoringTick pg now (run_calls (create m t0) l))).
Proof.
  intros Hall.
  destruct (run_calls_failing l (create m t0) Hall) as (A & B & C).
  simpl in A, B. split; [exact A|]. split; [exact B|].
  intros Hin.
  assert (In (LogLine "High database error rate detected")
             (calls (run_calls (create m t0) l))) as Hin'.
  { unfold monitoringTick, checkPoolHealth, updateMetrics, call, set_calls,
      set_queryTimes, set_metrics in Hin. simpl in Hin. rewrite A in Hin. simpl in Hin.
    rewrite andb_false_r in Hin.
    repeat match type of Hin with
           | context [if ?c then _ else _] => destruct c; simpl in Hin
           end;
      repeat (apply in_app_iff in Hin as [Hin|[Hin|[]]]; [|discriminate Hin]);
      exact Hin. }
  apply C in Hin'; [exact Hin'|discriminate].
Qed.

(** ** The health check *)

(** X22.  The health check never rejects.  It releases the client it borrowed
    only when the probe succeeded: when the connection is there and
    [SELECT 1] fails, the error is counted and logged and the client is not
    released.  While the pool shuts down it does nothing. *)
Theorem healthCheck_releases_only_on_success (w : QueryWorld unit) (p : Pool) :
  fst (healthCheck w p) = Returned tt /\
  (isShuttingDown p = true -> snd (healthCheck w p) = p) /\
  (isShuttingDown p = false ->
   exists t,
     calls (snd (healthCheck w p)) = calls p ++ t /\
     match connect_outcome w, query_outcome w with
     | Returned _, Returned _ =>
         t = [PoolConnect; ClientQuery "SELECT 1"; ClientRelease;
              LogLine "Database health check passed"] /\
         totalErrors (metrics (snd (healthCheck w p))) = totalErrors (metrics p)
     | Returned _, Thrown _ =>
         t = [PoolConnect; ClientQuery "SELECT 1"; LogLine "Database health check failed"] /\
         release_count t = 0%nat /\
         totalErrors (metrics (snd (healthCheck w p))) = totalErrors (metrics p) + 1
     | Thrown _, _ =>
         t = [PoolConnect; LogLine "Database health check failed"] /\
         totalErrors (metrics (snd (healthCheck w p))) = totalErrors (metrics p) + 1
     end).
Proof.
  unfold healthCheck.
  destruct (isShuttingDown p) eqn:Hs.
  - split; [reflexivity|]. split; [reflexivity|discriminate].
  - unfold catching, and_then, exec, settle_with, call, set_calls, set_metrics. simpl.
    destruct (connect_outcome w) as [[]|ec]; simpl.
    + destruct (query_outcome w) as [[]|eq]; simpl.
      * split; [reflexivity|]. split; [discriminate|]. intros _.
        eexists. split; [|split; reflexivity].
        repeat rewrite <- app_assoc. reflexivity.
      * split; [reflexivity|]. split; [discriminate|]. intros _.
        eexists. split; [|split; [reflexivity|split; reflexivity]].
        repeat rewrite <- app_assoc. reflexivity.
    + split; [reflexivity|]. split; [discriminate|]. intros _.
      eexists. split; [|split; reflexivity].
      repeat rewrite <- app_assoc. reflexivity.
Qed.

(** ** Metrics and status *)

Lemma Qless_true (a b : Q) : Qless a b = true <-> (a < b)%Q.
Proof.
  unfold Qless. rewrite negb_true_iff. split.
  - intros H. apply Qnot_le_lt. intros Hle. apply Qle_bool_iff in Hle. congruence.
  - intros H. destruct (Qle_bool b a) eqn:E; [|reflexivity].
    apply Qle_bool_iff in E. exfalso. apply (Qlt_not_le _ _ H E).
Qed.

Lemma utilization_below (a t : Z) :
  0 < t -> ((inject_Z a / inject_Z t) * (100#1) < 90#1)%Q <-> 10 * a < 9 * t.
Proof.
  intros Ht. destruct t as [|pt|nt]; try lia.
  rewrite <- (Qmake_Qdiv a pt).
  unfold Qlt, Qmult. cbn [Qnum Qden]. lia.
Qed.

Lemma slice_last_suffix {A : Type} (n : nat) (l : list A) :
  exists older, l = older ++ slice_last n l /\
                List.length (slice_last n l) = Nat.min n (List.length l).
Proof.
  unfold slice_last. exists (firstn (List.length l - n) l).
  split; [now rewrite firstn_skipn|]. rewrite length_skipn. lia.
Qed.

(** X23.  [getMetrics] leaves at most the last 100 durations in [queryTimes]; the
    average it reports is taken over everything that was there before the
    cut, and is the stored one when nothing was there. *)
Theorem getMetrics_keeps_last_hundred (pg : PgCounts) (now : Z) (p : Pool) :
  let '(m, p') := getMetrics pg now p in
  (exists older, queryTimes p = older ++ queryTimes p') /\
  List.length (queryTimes p') = Nat.min 100 (List.length (queryTimes p)) /\
  (queryTimes p <> [] ->
   averageQueryTime m
   = (inject_Z (JS.sum (queryTimes p)) / inject_Z (JS.len (queryTimes p)))%Q) /\
  (queryTimes p = [] -> averageQueryTime m = averageQueryTime (metrics p)) /\
  activeConnections m = totalCount pg - idleCount pg /\
  uptime m = now - startTime p /\
  totalQueries m = totalQueries (metrics p) /\ totalErrors m = totalErrors (metrics p) /\
  metrics p' = m.
Proof.
  unfold getMetrics, updateMetrics. cbn -[Nat.min Z.ltb Z.sub slice_last].
  assert ((0 <? JS.len (queryTimes p)) = true <-> queryTimes p <> []) as Hne.
  { unfold JS.len. destruct (queryTimes p); simpl; split; try discriminate; try reflexivity.
    intros H. now contradiction H. }
  split; [|split; [|split; [|split]]].
  - destruct (100 <? JS.len (queryTimes p)).
    + destruct (slice_last_suffix 100 (queryTimes p)) as (older & E & _). eauto.
    + exists []. reflexivity.
  - destruct (100 <? JS.len (queryTimes p)) eqn:E.
    + now destruct (slice_last_suffix 100 (queryTimes p)) as (older & _ & ->).
    + apply Z.ltb_ge in E. unfold JS.len in E. lia.
  - intros H. apply Hne in H. now rewrite H.
  - intros H. rewrite H. reflexivity.
  - repeat split; reflexivity.
Qed.

(** X24.  [getStatus] reports the pool healthy exactly when fewer than ten
    clients wait and the pool is empty or fewer than nine in ten of its
    connections are in use. *)
Theorem getStatus_healthy_iff (pg : PgCounts) (now : Z) (p : Pool) :
  healthy (fst (getStatus pg now p)) = true <->
  waitingCount pg < 10 /\
  (totalCount pg <= 0 \/ 10 * (totalCount pg - idleCount pg) < 9 * totalCount pg).
Proof.
  unfold getStatus, getMetrics, updateMetrics. simpl.
  rewrite andb_true_iff, Qless_true, Z.ltb_lt.
  destruct (0 <? totalCount pg) eqn:E.
  - apply Z.ltb_lt in E. rewrite (utilization_below _ _ E). split.
    + intros [H1 H2]. split; [exact H2|]. now right.
    + intros [H1 [H2|H2]]; [lia|]. split; assumption.
  - apply Z.ltb_ge in E. split.
    + intros [_ H2]. split; [exact H2|]. now left.
    + intros [H1 _]. split; [reflexivity|exact H1].
Qed.

(** ** Concrete calls *)

Lemma failed_query_never_slow_witness :
  fst (query rejected_world "SELECT * FROM visits" [] 0 6000 (create default_monitor 0))
  = Thrown "relation does not exist" /\
  monitorLog (monitor (snd (query rejected_world "SELECT * FROM visits" [] 0 6000
                              (create default_monitor 0))))
  = monitorLog (monitor (create default_monitor 0)) /\
  exists older entry,
    queryMetrics (monitor (snd (query rejected_world "SELECT * FROM visits" [] 0 6000
                                  (create default_monitor 0))))
    = older ++ [entry] /\
    executionTime entry = - (6000 - 0) /\
    slow entry = false.
Proof.
  apply (failed_query_never_slow rejected_world "SELECT * FROM visits" [] 0 6000
           (create default_monitor 0) "relation does not exist").
  - reflexivity.
  - lia.
  - simpl. lia.
Defined.

Lemma failing_pool_raises_no_error_rate_warning_witness :
  totalQueries (metrics (run_calls (create default_monitor 0) (repeat failing_call 12))) = 0 /\
  totalErrors (metrics (run_calls (create default_monitor 0) (repeat failing_call 12)))
  = Z.of_nat (List.length (repeat failing_call 12)) /\
  ~ In (LogLine "High database error rate detected")
       (calls (monitoringTick busy_counts 9000
                 (run_calls (create default_monitor 0) (repeat failing_call 12)))).
Proof.
  apply (failing_pool_raises_no_error_rate_warning default_monitor 0
           (repeat failing_call 12) busy_counts 9000).
  repeat constructor; discriminate.
Defined.

End PoolQueryProofs.
